(** * ASAPy.CovManipulation: correlation/covariance conversion, the
    Gill-Murray-Wright modified Cholesky factorisation and the rank-matching
    step of the correlated Latin-hypercube sampler.

    The Python code is written once, over an interface [Num] of the
    arithmetic it uses ([+ - * /], [abs], [sqrt], comparisons).  The
    interface is instantiated twice: at the real numbers, where the algebraic
    theorems are proved, and at binary64 floating-point numbers, where the
    code is evaluated on concrete inputs.

    Conventions of the embedding:
    - a NumPy array is its shape together with an indexing function; element
      reads and writes check the indices against the shape and raise
      [IndexError] as NumPy does;
    - every array holds floats (dtype [float64]); an array of integers, in
      which NumPy would store the products of [correlation_to_cov]
      truncated, is outside the model;
    - a Python exception is the [Raise] case of [result]; loops thread their
      state explicitly;
    - [x ** 2] is [x * x] and [x ** 0.5] is [sqrt x] (on a scalar NumPy
      calls the C function [pow], whose result may differ from these in the
      last bit of a binary64 value);
    - [np.dot] and [.sum()] add their terms from left to right;
    - the routines of SALib, SciPy and NumPy that the sampler calls are the
      fields of the class [Library]: the theorems about the sampler hold for
      every implementation of them, and those that can raise return a
      [result]. *)

From Stdlib Require Import Floats.
From Stdlib Require Import String.
From Stdlib Require Import List Arith Lia Bool ZArith Permutation.
From Stdlib Require Import Reals Lra.
Import ListNotations.

(** ** The arithmetic of the source *)

Class Num (T : Type) : Type := {
  zero : T;
  one : T;
  finfo_eps : T;                (* np.finfo(float).eps *)
  lit_1_8e308 : T;              (* the literal 1.8e308 *)
  add : T -> T -> T;
  sub : T -> T -> T;
  mul : T -> T -> T;
  div : T -> T -> T;            (* NumPy division: never raises *)
  absv : T -> T;
  sqrt_ : T -> T;
  ltb : T -> T -> bool;         (* x < y *)
  leb : T -> T -> bool;         (* x <= y *)
  of_nat : nat -> T
}.

(** Real numbers: exact arithmetic. *)
Definition R_eps : R := (/ 2 ^ 52)%R.
Definition R_1_8e308 : R := (18 * 10 ^ 307)%R.

#[export] Instance R_Num : Num R := {|
  zero := 0%R;
  one := 1%R;
  finfo_eps := R_eps;
  lit_1_8e308 := R_1_8e308;
  add := Rplus;
  sub := Rminus;
  mul := Rmult;
  div := Rdiv;
  absv := Rabs;
  sqrt_ := R_sqrt.sqrt;
  ltb := fun x y => if Rlt_dec x y then true else false;
  leb := fun x y => if Rle_dec x y then true else false;
  of_nat := INR
|}.

(** binary64, round to nearest even.  The literal 1.8e308 exceeds the largest
    finite double and is read as infinity. *)
#[export] Instance float_Num : Num float := {|
  zero := 0%float;
  one := 1%float;
  finfo_eps := 0x1p-52%float;
  lit_1_8e308 := infinity;
  add := PrimFloat.add;
  sub := PrimFloat.sub;
  mul := PrimFloat.mul;
  div := PrimFloat.div;
  absv := PrimFloat.abs;
  sqrt_ := PrimFloat.sqrt;
  ltb := PrimFloat.ltb;
  leb := PrimFloat.leb;
  of_nat := fun n => PrimFloat.of_uint63 (Uint63.of_Z (Z.of_nat n))
|}.

(** ** Exceptions *)

Inductive exn : Type :=
  | IndexError
  | ValueError
  | ZeroDivisionError
  | LinAlgError
  | UnboundLocalError
  | Exception (msg : string).

Inductive result (A : Type) : Type :=
  | Ok (a : A)
  | Raise (e : exn).

Arguments Ok {A} a.
Arguments Raise {A} e.

Definition bind {A B : Type} (m : result A) (k : A -> result B) : result B :=
  match m with
  | Ok a => k a
  | Raise e => Raise e
  end.

Notation "x <- m ;; k" := (bind m (fun x => k))
  (at level 61, m at next level, right associativity).
Notation "' p <- m ;; k" := (bind m (fun x => let p := x in k))
  (at level 61, p pattern, m at next level, right associativity).

(** [for i in range(lo, hi): s = body i s] *)
Fixpoint for_loop {S : Type} (count lo : nat) (body : nat -> S -> result S)
  (s : S) : result S :=
  match count with
  | O => Ok s
  | Datatypes.S count' => s' <- body lo s ;; for_loop count' (Datatypes.S lo) body s'
  end.

Definition for_range {S : Type} (lo hi : nat) (body : nat -> S -> result S)
  (s : S) : result S :=
  for_loop (hi - lo) lo body s.

(** ** NumPy arrays: a shape and an indexing function

    The function is total; what it returns outside the shape is never read
    through [item1], [item2] or the slices. *)

Set Implicit Arguments.

Record array1 (T : Type) : Type := Arr1 {
  len1 : nat;
  get1 : nat -> T
}.

Record array2 (T : Type) : Type := Arr2 {
  nrows : nat;
  ncols : nat;
  get2 : nat -> nat -> T
}.

Unset Implicit Arguments.

Section Arrays.
Context {T : Type} {num : Num T}.

(** Python's [max(x, y)]: the later argument wins only when strictly larger. *)
Definition pymax (x y : T) : T := if ltb x y then y else x.

(** [v[i]] *)
Definition item1 (v : array1 T) (i : nat) : result T :=
  if i <? len1 v then Ok (get1 v i) else Raise IndexError.

(** [v[i] = x] *)
Definition setitem1 (v : array1 T) (i : nat) (x : T) : result (array1 T) :=
  if i <? len1 v
  then Ok (Arr1 (len1 v) (fun k => if k =? i then x else get1 v k))
  else Raise IndexError.

(** [a[i, j]] *)
Definition item2 (a : array2 T) (i j : nat) : result T :=
  if (i <? nrows a) && (j <? ncols a) then Ok (get2 a i j) else Raise IndexError.

(** [a[i, j] = x] *)
Definition setitem2 (a : array2 T) (i j : nat) (x : T) : result (array2 T) :=
  if (i <? nrows a) && (j <? ncols a)
  then Ok (Arr2 (nrows a) (ncols a)
             (fun r c => if (r =? i) && (c =? j) then x else get2 a r c))
  else Raise IndexError.

(** [np.zeros(n)], [np.zeros((m, n))], [np.eye(n)] *)
Definition np_zeros1 (n : nat) : array1 T := Arr1 n (fun _ => zero).
Definition np_zeros2 (m n : nat) : array2 T := Arr2 m n (fun _ _ => zero).
Definition np_eye (n : nat) : array2 T :=
  Arr2 n n (fun r c => if r =? c then one else zero).
Definition np_ones (n : nat) : array1 T := Arr1 n (fun _ => one).

(** [np.diag(v)] for a vector [v], and [np.diag(a)] for a matrix [a] *)
Definition np_diag (v : array1 T) : array2 T :=
  Arr2 (len1 v) (len1 v) (fun r c => if r =? c then get1 v r else zero).
Definition np_diagonal (a : array2 T) : array1 T :=
  Arr1 (Nat.min (nrows a) (ncols a)) (fun k => get2 a k k).

(** [a.T] *)
Definition transpose (a : array2 T) : array2 T :=
  Arr2 (ncols a) (nrows a) (fun r c => get2 a c r).

(** [v ** 2] on a vector: NumPy squares by multiplying. *)
Definition np_square (v : array1 T) : array1 T :=
  Arr1 (len1 v) (fun k => mul (get1 v k) (get1 v k)).

(** [c * a] for a scalar [c] *)
Definition np_scale (c : T) (a : array2 T) : array2 T :=
  Arr2 (nrows a) (ncols a) (fun r c' => mul c (get2 a r c')).

(** Element-wise [a + b] and [a - b]; operands of different shapes are
    rejected (broadcasting never arises in this module). *)
Definition same_shape (a b : array2 T) : bool :=
  (nrows a =? nrows b) && (ncols a =? ncols b).
Definition np_add (a b : array2 T) : result (array2 T) :=
  if same_shape a b
  then Ok (Arr2 (nrows a) (ncols a) (fun r c => add (get2 a r c) (get2 b r c)))
  else Raise ValueError.
Definition np_sub (a b : array2 T) : result (array2 T) :=
  if same_shape a b
  then Ok (Arr2 (nrows a) (ncols a) (fun r c => sub (get2 a r c) (get2 b r c)))
  else Raise ValueError.

(** Sum of [f lo], ..., [f (lo + count - 1)], accumulated left to right. *)
Fixpoint sum_from (count lo : nat) (f : nat -> T) (acc : T) : T :=
  match count with
  | O => acc
  | S count' => sum_from count' (S lo) f (add acc (f lo))
  end.
Definition sum_n (n : nat) (f : nat -> T) : T := sum_from n 0 f zero.

(** [np.dot(a, b)] for two matrices *)
Definition np_dot (a b : array2 T) : result (array2 T) :=
  if ncols a =? nrows b
  then Ok (Arr2 (nrows a) (ncols b)
             (fun r c => sum_n (ncols a) (fun k => mul (get2 a r k) (get2 b k c))))
  else Raise ValueError.

(** [a[:, j]], [a[:, j] = v], [a[i]] and [a[i] = v] *)
Definition getcol (a : array2 T) (j : nat) : result (array1 T) :=
  if j <? ncols a then Ok (Arr1 (nrows a) (fun r => get2 a r j)) else Raise IndexError.
Definition setcol (a : array2 T) (j : nat) (v : array1 T) : result (array2 T) :=
  if j <? ncols a
  then if len1 v =? nrows a
       then Ok (Arr2 (nrows a) (ncols a)
                  (fun r c => if c =? j then get1 v r else get2 a r c))
       else Raise ValueError
  else Raise IndexError.
Definition getrow (a : array2 T) (i : nat) : result (array1 T) :=
  if i <? nrows a then Ok (Arr1 (ncols a) (fun c => get2 a i c)) else Raise IndexError.
Definition setrow (a : array2 T) (i : nat) (v : array1 T) : result (array2 T) :=
  if i <? nrows a
  then if len1 v =? ncols a
       then Ok (Arr2 (nrows a) (ncols a)
                  (fun r c => if r =? i then get1 v c else get2 a r c))
       else Raise ValueError
  else Raise IndexError.

(** [c * v] and [v + c] for a vector [v] and a scalar [c]; [f] applied to
    every entry. *)
Definition np_map1 (f : T -> T) (v : array1 T) : array1 T :=
  Arr1 (len1 v) (fun k => f (get1 v k)).

(** Conversions from and to nested lists, for concrete inputs and outputs. *)
Definition of_list (l : list T) : array1 T :=
  Arr1 (length l) (fun k => nth k l zero).
Definition to_list (v : array1 T) : list T :=
  map (get1 v) (seq 0 (len1 v)).
Definition of_rows (rows : list (list T)) : array2 T :=
  Arr2 (length rows) (length (hd [] rows))
       (fun r c => nth c (nth r rows []) zero).
Definition to_rows (a : array2 T) : list (list T) :=
  map (fun r => map (get2 a r) (seq 0 (ncols a))) (seq 0 (nrows a)).

(** ** CorrelationConverter *)

Definition correlation_to_cov (std : array1 T) (corr : array2 T)
  : result (array2 T) :=
  let cov := np_diag (np_square std) in
  let shape := len1 std in
  cov <- for_range 0 shape (fun i cov =>
           for_range (i + 1) shape (fun j cov =>
             c <- item2 corr i j ;;
             si <- item1 std i ;;
             sj <- item1 std j ;;
             setitem2 cov i j (mul (mul c si) sj)) cov) cov ;;
  s <- np_add cov (transpose cov) ;;
  np_sub s (np_diag (np_diagonal cov)).

Definition cov_to_correlation (cov : array2 T) : result (array2 T) :=
  let shape := nrows cov in
  let corr := np_diag (np_ones shape) in
  corr <- for_range 0 shape (fun i corr =>
            for_range (i + 1) shape (fun j corr =>
              cij <- item2 cov i j ;;
              cii <- item2 cov i i ;;
              cjj <- item2 cov j j ;;
              setitem2 corr i j (div cij (sqrt_ (absv (mul cii cjj))))) corr) corr ;;
  s <- np_add corr (transpose corr) ;;
  np_sub s (np_diag (np_diagonal corr)).

(** ** ModifiedCholesky *)

Definition _EPS : T := finfo_eps.

(** Lines 83-88: [gamma] and [xi]. *)
Definition gamma_xi (A : array2 T) (n : nat) : result (T * T) :=
  for_range 0 n (fun i '(gamma, xi) =>
    aii <- item2 A i i ;;
    let gamma := pymax (absv aii) gamma in
    xi <- for_range (i + 1) n (fun j xi =>
            aij <- item2 A i j ;;
            Ok (pymax (absv aij) xi)) xi ;;
    Ok (gamma, xi)) (zero, zero).

(** Lines 91-95: [delta] and [beta]. *)
Definition calc_delta (gamma xi : T) : T :=
  mul _EPS (pymax (add gamma xi) one).

Definition calc_beta (n : nat) (gamma xi : T) : T :=
  if n =? 1
  then sqrt_ (pymax gamma _EPS)
  else sqrt_ (pymax (pymax gamma (div xi (sqrt_ (sub (of_nat (n * n)) one)))) _EPS).

(** Lines 107-110: index of the largest remaining diagonal entry. *)
Definition find_pivot (a : array2 T) (n j : nat) : result nat :=
  for_range (j + 1) n (fun i q =>
    aii <- item2 a i i ;;
    aqq <- item2 a q q ;;
    Ok (if leb (absv aqq) (absv aii) then i else q)) j.

(** Lines 113-130: interchange of rows and columns [j] and [q]. *)
Definition interchange (n j q : nat) (a r P : array2 T)
    : result (array2 T * array2 T * array2 T) :=
  if negb (q =? j)
  then
    let p := np_eye n in
    Pq <- getcol P q ;;
    let row_P := np_map1 (mul one) Pq in
    Pj <- getcol P j ;;
    P <- setcol P q Pj ;;
    P <- setcol P j row_P ;;
    pq <- getrow p q ;;
    let row_p := np_map1 (mul one) pq in
    pj <- getrow p j ;;
    p <- setrow p q pj ;;
    p <- setrow p j row_p ;;
    ap <- np_dot a p ;;
    a <- np_dot p ap ;;
    r <- np_dot r p ;;
    Ok (a, r, P)
  else Ok (a, r, P).

(** Lines 133-136: [theta_j]. *)
Definition calc_theta (a : array2 T) (n j : nat) : result T :=
  if j <? n - 1
  then for_range (j + 1) n (fun i theta_j =>
         aji <- item2 a j i ;;
         Ok (pymax theta_j (absv aji))) zero
  else Ok zero.

(** Lines 144-147: row [j] of [r] and the update of [a]. *)
Definition eliminate (n j : nat) (a r : array2 T)
    : result (array2 T * array2 T) :=
  for_range (j + 1) n (fun i '(a, r) =>
    aji <- item2 a j i ;;
    rjj <- item2 r j j ;;
    r <- setitem2 r j i (div aji rjj) ;;
    a <- for_range (j + 1) (i + 1) (fun k a =>
           aki <- item2 a k i ;;
           rji <- item2 r j i ;;
           rjk <- item2 r j k ;;
           let v := sub aki (mul rji rjk) in
           a <- setitem2 a i k v ;;
           setitem2 a k i v) a ;;
    Ok (a, r)) (a, r).

(** Lines 104-147: one iteration of the main loop. *)
Definition gmw_step (n : nat) (beta delta : T) (j : nat)
    (st : array2 T * array2 T * array1 T * array2 T)
    : result (array2 T * array2 T * array1 T * array2 T) :=
  let '(a, r, e, P) := st in
  q <- find_pivot a n j ;;
  '(a, r, P) <- interchange n j q a r P ;;
  theta_j <- calc_theta a n j ;;
  ajj <- item2 a j j ;;
  let tb := div theta_j beta in
  let dj := pymax (pymax (absv ajj) (mul tb tb)) delta in
  e <- setitem1 e j (sub dj ajj) ;;
  r <- setitem2 r j j (sqrt_ dj) ;;
  '(a, r) <- eliminate n j a r ;;
  Ok (a, r, e, P).

Definition gmw_cholesky (A : array2 T)
    : result (array2 T * array2 T * array1 T) :=
  let n := nrows A in
  '(gamma, xi) <- gamma_xi A n ;;
  let delta := calc_delta gamma xi in
  let beta := calc_beta n gamma xi in
  let a := np_scale one A in
  let r := np_scale zero A in
  let e := np_zeros1 n in
  let P := np_eye n in
  '(a, r, e, P) <- for_range 0 n (gmw_step n beta delta) (a, r, e, P) ;;
  Ok (P, transpose r, e).

(** ** StratifiedSampler and CorrelatedSampleComposer *)

(** [np.sort] and [np.argsort], by stable insertion. *)
Fixpoint insert_by {A : Type} (lt : A -> A -> bool) (x : A) (l : list A)
    : list A :=
  match l with
  | [] => [x]
  | y :: l' => if lt y x then y :: insert_by lt x l' else x :: l
  end.

Definition sort_by {A : Type} (lt : A -> A -> bool) (l : list A) : list A :=
  fold_right (insert_by lt) [] l.

Definition np_sort (v : array1 T) : array1 T :=
  of_list (sort_by ltb (to_list v)).

Definition np_argsort (v : array1 T) : array1 nat :=
  let idx := sort_by (fun i k => ltb (get1 v i) (get1 v k)) (seq 0 (len1 v)) in
  Arr1 (length idx) (fun k => nth k idx 0).

(** [rank = np.zeros(np.shape(r), dtype=int); rank[r] = np.array(range(m))] *)
Definition scatter_range (r : array1 nat) (m : nat) : result (array1 nat) :=
  if len1 r =? m
  then for_range 0 m (fun k rank =>
         if get1 r k <? len1 rank
         then Ok (Arr1 (len1 rank)
                    (fun i => if i =? get1 r k then k else get1 rank i))
         else Raise IndexError) (Arr1 (len1 r) (fun _ => 0))
  else Raise ValueError.

(** [rs[rank]] *)
Definition take (rs : array1 T) (rank : array1 nat) : result (array1 T) :=
  if forallb (fun i => get1 rank i <? len1 rs) (seq 0 (len1 rank))
  then Ok (Arr1 (len1 rank) (fun i => get1 rs (get1 rank i)))
  else Raise IndexError.

(** [np.abs(a - b).sum().sum()] *)
Definition abs_diff_sum (a b : array2 T) : result T :=
  d <- np_sub a b ;;
  Ok (sum_n (nrows d) (fun r => sum_n (ncols d) (fun c => absv (get2 d r c)))).

End Arrays.

(** The library routines the sampler calls: SALib's Latin-hypercube sampler
    (with its random state), SciPy's normal quantile function and NumPy's
    [corrcoef], [linalg.cholesky] and [linalg.inv].  SALib's sampler raises
    on some sizes ([IndexError] without variables, [ZeroDivisionError]
    without samples). *)
Class Library (T : Type) : Type := {
  lhs_sample : nat -> nat -> result (array2 T);   (* num_vars, num_samples *)
  norm_ppf : T -> T -> T -> T;             (* loc, scale, probability *)
  np_corrcoef : array2 T -> result (array2 T);
  linalg_cholesky : array2 T -> result (array2 T);
  linalg_inv : array2 T -> result (array2 T)
}.

Section Sampler.
Context {T : Type} {num : Num T} {lib : Library T}.

Definition lhs_uniform_sample (num_vars num_samples : nat)
    : result (array2 T) :=
  lhs_sample num_vars num_samples.

Definition lhs_normal_sample (num_samples : nat) (means std_dev : array1 T)
    : result (array2 T) :=
  let num_vars := len1 means in
  samples <- lhs_uniform_sample num_vars num_samples ;;
  for_range 0 num_vars (fun i samples =>
    m <- item1 means i ;;
    sd <- item1 std_dev i ;;
    col <- getcol samples i ;;
    setcol samples i (np_map1 (norm_ppf m sd) col)) samples.

(** Lines 262-266: column [j] of [z]. *)
Definition rank_match_column (num_samples : nat)
    (samples dependent_samples : array2 T) (mean_values std_dev : array1 T)
    (j : nat) (z : array2 T) : result (array2 T) :=
  dj <- getcol dependent_samples j ;;
  let r := np_argsort dj in
  rank <- scatter_range r num_samples ;;
  sj <- getcol samples j ;;
  let rs := np_sort sj in
  rsr <- take rs rank ;;
  sd <- item1 std_dev j ;;
  mu <- item1 mean_values j ;;
  setcol z j (np_map1 (fun x => add (mul x sd) mu) rsr).

(** Lines 261-266: the columns of [z] for one try. *)
Definition rank_match (num_vars num_samples : nat)
    (samples dependent_samples : array2 T) (mean_values std_dev : array1 T)
    (z : array2 T) : result (array2 T) :=
  for_range 0 num_vars
    (rank_match_column num_samples samples dependent_samples mean_values std_dev) z.

(** Lines 261-268: one try, its columns and its score [ae]. *)
Definition one_try (num_vars num_samples : nat)
    (samples dependent_samples : array2 T) (mean_values std_dev : array1 T)
    (desired_corr : array2 T) (z : array2 T) : result (array2 T * T) :=
  z <- rank_match num_vars num_samples samples dependent_samples
         mean_values std_dev z ;;
  c <- np_corrcoef (transpose z) ;;
  ae <- abs_diff_sum c desired_corr ;;
  Ok (z, ae).

(** Lines 270-274: keep a try that beats the best score so far, or raise. *)
Definition keep_or_raise (z : array2 T) (ae amin : T)
    : result (array2 T * option (array2 T) * T) :=
  if ltb ae amin
  then Ok (z, Some z, ae)
  else Raise (Exception "Could not order samples"%string).

(** Lines 260-274: the retry loop; [zb] is unbound until a try is kept. *)
Definition retry_loop (ntry num_vars num_samples : nat)
    (samples dependent_samples : array2 T) (mean_values std_dev : array1 T)
    (desired_corr : array2 T) (amin : T) (z : array2 T)
    : result (array2 T * option (array2 T) * T) :=
  for_range 0 ntry (fun il '(z, zb, amin) =>
    '(z, ae) <- one_try num_vars num_samples samples dependent_samples
                  mean_values std_dev desired_corr z ;;
    keep_or_raise z ae amin) (z, None, amin).

(** Lines 228-238: the linear map applied to the uncorrelated samples. *)
Definition dependent_samples_of (samples desired_corr : array2 T)
    : result (array2 T) :=
  T0 <- np_corrcoef (transpose samples) ;;
  '(permutation, Q, e) <- gmw_cholesky T0 ;;
  P <- linalg_cholesky desired_corr ;;
  Qinv <- linalg_inv Q ;;
  M <- np_dot P Qinv ;;
  np_dot samples (transpose M).

Definition lhs_normal_sample_corr (mean_values std_dev : array1 T)
    (desired_corr : array2 T) (num_samples : nat) : result (array2 T) :=
  let num_vars := len1 mean_values in
  samples <- lhs_normal_sample num_samples (np_zeros1 num_vars) (np_ones num_vars) ;;
  dependent_samples <- dependent_samples_of samples desired_corr ;;
  let ntry := 1 in
  let amin := lit_1_8e308 in
  let z := np_zeros2 (nrows samples) (ncols samples) in
  '(z, zb, amin) <- retry_loop ntry num_vars num_samples samples dependent_samples
                      mean_values std_dev desired_corr amin z ;;
  match zb with
  | Some zb => Ok zb
  | None => Raise UnboundLocalError
  end.

End Sampler.

(** ** Vocabulary of the specifications *)

(** An [n] x [n] array. *)
Definition square {T} (n : nat) (a : array2 T) : Prop :=
  nrows a = n /\ ncols a = n.

Definition to_rows_result {T} (r : result (array2 T)) : result (list (list T)) :=
  match r with
  | Ok a => Ok (to_rows a)
  | Raise e => Raise e
  end.

Definition symmetric2 {T} (a : array2 T) : Prop :=
  forall r k, r < nrows a -> k < ncols a -> get2 a r k = get2 a k r.

Section Vocabulary.
Context {T : Type} {num : Num T}.

(** What [correlation_to_cov] stores before mirroring. *)
Definition cov_upper (std : array1 T) (corr : array2 T) (r k : nat) : T :=
  if (r <? k) && (k <? len1 std)
  then mul (mul (get2 corr r k) (get1 std r)) (get1 std k)
  else if r =? k then mul (get1 std r) (get1 std r) else zero.

(** What [cov_to_correlation] stores before mirroring. *)
Definition corr_upper (cov : array2 T) (r k : nat) : T :=
  if (r <? k) && (k <? nrows cov)
  then div (get2 cov r k) (sqrt_ (absv (mul (get2 cov r r) (get2 cov k k))))
  else if r =? k then one else zero.

End Vocabulary.

(** The leading [n] x [n] block of an array. *)
Definition leading_block {T} (n : nat) (a : array2 T) : array2 T :=
  Arr2 n n (get2 a).

(** Two arrays agree strictly above the diagonal, within the first [n] rows
    and columns. *)
Definition agree_above {T} (n : nat) (a b : array2 T) : Prop :=
  forall r k, r < k < n -> get2 a r k = get2 b r k.

(** Two arrays agree on and above the diagonal. *)
Definition agree_on_above {T} (n : nat) (a b : array2 T) : Prop :=
  forall r k, r <= k < n -> get2 a r k = get2 b r k.

(** The values of column [j] of an array, top to bottom. *)
Definition column {T} (a : array2 T) (j : nat) : list T :=
  map (fun i => get2 a i j) (seq 0 (nrows a)).

(** What the rank-matching step does to a value of variable [j]. *)
Definition scale_shift {T} {num : Num T} (mean_values std_dev : array1 T)
    (j : nat) (x : T) : T :=
  add (mul x (get1 std_dev j)) (get1 mean_values j).

(** ** Stand-ins for the library routines

    Used to run the sampler on concrete data.  The theorems about the sampler
    hold for every [Library]; these definitions only provide one. *)

Section LibraryModels.
Context {T : Type} {num : Num T}.

(** An array with its entries computed once. *)
Definition freeze (a : array2 T) : array2 T :=
  let rows := to_rows a in
  Arr2 (nrows a) (ncols a) (fun r c => nth c (nth r rows []) zero).

(** [np.corrcoef(x)]: the rows of [x] are the variables. *)
Definition corrcoef_model (x : array2 T) : result (array2 T) :=
  let n := ncols x in
  let mean := fun i => div (sum_n n (fun k => get2 x i k)) (of_nat n) in
  let X := freeze (Arr2 (nrows x) n (fun i k => sub (get2 x i k) (mean i))) in
  let fact := div one (of_nat (n - 1)) in
  let c := freeze (Arr2 (nrows x) (nrows x)
                     (fun i j => mul (sum_n n (fun k => mul (get2 X i k) (get2 X j k)))
                                     fact)) in
  let stddev := fun i => sqrt_ (get2 c i i) in
  let clip := fun v => if ltb v (sub zero one) then sub zero one
                       else if ltb one v then one else v in
  Ok (freeze (Arr2 (nrows x) (nrows x)
                (fun i j => clip (div (div (get2 c i j) (stddev i)) (stddev j))))).

(** [np.linalg.cholesky(a)]: the lower factor, column by column. *)
Definition cholesky_model (a : array2 T) : result (array2 T) :=
  let n := nrows a in
  for_range 0 n (fun j L =>
    let s := fun i => sum_n j (fun k => mul (get2 L i k) (get2 L j k)) in
    let d := sub (get2 a j j) (s j) in
    if leb d zero then Raise LinAlgError
    else
      let ljj := sqrt_ d in
      Ok (freeze (Arr2 n n (fun i c =>
            if c =? j
            then if i =? j then ljj
                 else if j <? i then div (sub (get2 a i j) (s i)) ljj
                 else zero
            else get2 L i c)))) (np_zeros2 n n).

(** [np.linalg.inv(a)]: Gauss-Jordan elimination with row pivoting. *)
Definition inv_model (a : array2 T) : result (array2 T) :=
  let n := nrows a in
  '(_, b) <- for_range 0 n (fun c '(a, b) =>
    let p := fold_left (fun p r => if ltb (absv (get2 a p c)) (absv (get2 a r c))
                                   then r else p) (seq c (n - c)) c in
    if leb (absv (get2 a p c)) zero then Raise LinAlgError
    else
      let sw := fun r => if r =? c then p else if r =? p then c else r in
      let piv := get2 a p c in
      let step := fun (m : array2 T) =>
        freeze (Arr2 n n (fun r k =>
          let top := div (get2 m p k) piv in
          if r =? c then top
          else sub (get2 m (sw r) k) (mul (get2 a (sw r) c) top))) in
      Ok (step a, step b)) (freeze a, np_eye n) ;;
  Ok b.

End LibraryModels.

(** Quantiles of the standard normal distribution at the midpoints of ten
    equal strata. *)
Definition normal_decile_midpoint (p : float) : float :=
  if PrimFloat.ltb p 0.1 then (-1.6448536269514722)%float
  else if PrimFloat.ltb p 0.2 then (-1.0364333894937898)%float
  else if PrimFloat.ltb p 0.3 then (-0.6744897501960817)%float
  else if PrimFloat.ltb p 0.4 then (-0.3853204664075677)%float
  else if PrimFloat.ltb p 0.5 then (-0.1256613468550741)%float
  else if PrimFloat.ltb p 0.6 then 0.1256613468550741%float
  else if PrimFloat.ltb p 0.7 then 0.3853204664075677%float
  else if PrimFloat.ltb p 0.8 then 0.6744897501960817%float
  else if PrimFloat.ltb p 0.9 then 1.0364333894937898%float
  else 1.6448536269514722%float.

(** One Latin-hypercube draw of ten samples of two variables: every stratum
    of every variable is hit once. *)
Definition lhs_draw : array2 float :=
  of_rows [[0.05; 0.65]; [0.15; 0.25]; [0.25; 0.95]; [0.35; 0.05]; [0.45; 0.75];
           [0.55; 0.35]; [0.65; 0.85]; [0.75; 0.15]; [0.85; 0.55]; [0.95; 0.45]]%float.

Definition run_library : Library float := {|
  lhs_sample := fun _ _ => Ok lhs_draw;
  norm_ppf := fun loc scale p =>
                PrimFloat.add loc (PrimFloat.mul scale (normal_decile_midpoint p));
  np_corrcoef := corrcoef_model;
  linalg_cholesky := cholesky_model;
  linalg_inv := inv_model
|}.

Definition run_mean : array1 float := of_list [20; 20]%float.
Definition run_std : array1 float := of_list [1; 2]%float.
Definition run_corr : array2 float := of_rows [[1; -0.5]; [-0.5; 1]]%float.

Section GmwVocabulary.
Context {T : Type} {num : Num T}.

(** The matrix [p] of lines 115-126: the identity with rows [j] and [q]
    exchanged. *)
Definition swap_eye (n j q : nat) : array2 T :=
  Arr2 n n (fun r c =>
    if r =? j then mul one (get2 (np_eye n) q c)
    else if r =? q then get2 (np_eye n) j c
    else get2 (np_eye n) r c).

(** The quotient stored in [r[j, y]] by the elimination of row [j]. *)
Definition quotient (a r : array2 T) (j y : nat) : T :=
  div (get2 a j y) (get2 r j j).

End GmwVocabulary.

(** The exchange of [j] and [q]. *)
Definition tau (j q x : nat) : nat :=
  if x =? j then q else if x =? q then j else x.

(** [P] is the matrix of a permutation [sigma] of [0, n): column [y] has its
    single 1 in row [sigma y]. *)
Definition permutation_matrix (n : nat) (P : array2 R) : Prop :=
  nrows P = n /\ ncols P = n /\
  exists sigma : nat -> nat,
    (forall y, y < n -> sigma y < n)
    /\ (forall y y', y < n -> y' < n -> sigma y = sigma y' -> y = y')
    /\ forall x y, x < n -> y < n ->
                   get2 P x y = if x =? sigma y then 1%R else 0%R.

(** [L] is lower triangular with a positive diagonal. *)
Definition lower_triangular_positive (n : nat) (L : array2 R) : Prop :=
  nrows L = n /\ ncols L = n
  /\ (forall x y, x < y < n -> get2 L x y = 0%R)
  /\ (forall x, x < n -> (0 < get2 L x x)%R).

(** [P.T @ A @ P] and [L @ L.T - np.diag(e)]. *)
Definition permuted {T} {num : Num T} (A P : array2 T) : result (array2 T) :=
  AP <- np_dot A P ;; np_dot (transpose P) AP.

Definition recomposed {T} {num : Num T} (L : array2 T) (e : array1 T)
    : result (array2 T) :=
  LLt <- np_dot L (transpose L) ;; np_sub LLt (np_diag e).

(** The state of the main loop of [gmw_cholesky] before iteration [j], in
    exact arithmetic: [sigma] is the permutation accumulated in [P], the
    first [j] rows of [r] are final, and the trailing block of [a] is what
    remains of the permuted [A] once those rows are accounted for. *)
Record gmw_inv (n : nat) (A : array2 R) (j : nat) (a r : array2 R)
    (e : array1 R) (P : array2 R) (sigma : nat -> nat) : Prop := {
    inv_a_shape : nrows a = n /\ ncols a = n;
    inv_r_shape : nrows r = n /\ ncols r = n;
    inv_P_shape : nrows P = n /\ ncols P = n;
    inv_e_shape : len1 e = n;
    inv_sigma_bound : forall y, y < n -> sigma y < n;
    inv_sigma_inj : forall y y', y < n -> y' < n -> sigma y = sigma y' -> y = y';
    inv_P : forall x y, x < n -> y < n ->
                        get2 P x y = if x =? sigma y then 1%R else 0%R;
    inv_a_sym : forall x y, x < n -> y < n -> get2 a x y = get2 a y x;
    inv_r_zero : forall x y, x < n -> y < n -> y < x \/ j <= x -> get2 r x y = 0%R;
    inv_schur : forall x y, j <= x < n -> j <= y < n ->
        get2 a x y
        = (get2 A (sigma x) (sigma y)
           - sum_n j (fun m => get2 r m x * get2 r m y))%R;
    inv_done : forall x y, x < j -> x <= y < n ->
        get2 A (sigma x) (sigma y)
        = (sum_n (S x) (fun m => get2 r m x * get2 r m y)
           - (if x =? y then get1 e x else 0))%R;
    inv_diag_pos : forall m, m < j -> (0 < get2 r m m)%R;
    inv_e_nonneg : forall m, m < j -> (0 <= get1 e m)%R
}.

Arguments inv_a_shape {n A j a r e P sigma} _.
Arguments inv_r_shape {n A j a r e P sigma} _.
Arguments inv_P_shape {n A j a r e P sigma} _.
Arguments inv_e_shape {n A j a r e P sigma} _.
Arguments inv_sigma_bound {n A j a r e P sigma} _.
Arguments inv_sigma_inj {n A j a r e P sigma} _.
Arguments inv_P {n A j a r e P sigma} _.
Arguments inv_a_sym {n A j a r e P sigma} _.
Arguments inv_r_zero {n A j a r e P sigma} _.
Arguments inv_schur {n A j a r e P sigma} _.
Arguments inv_done {n A j a r e P sigma} _.
Arguments inv_diag_pos {n A j a r e P sigma} _.
Arguments inv_e_nonneg {n A j a r e P sigma} _.

(** The quadratic form [y.T @ a @ y] and the squared length [y.T @ y] of a
    vector [y] with [n] entries. *)
Definition quad_form (n : nat) (a : array2 R) (y : nat -> R) : R :=
  sum_n n (fun x => y x * sum_n n (fun k => get2 a x k * y k))%R.

Definition sq_norm (n : nat) (y : nat -> R) : R :=
  sum_n n (fun x => y x * y x)%R.

(** [A] is positive definite with margin [delta]: [y.T A y >= delta * y.T y]
    for every [y], that is, no eigenvalue of [A] is below [delta]. *)
Definition positive_definite_margin (n : nat) (A : array2 R) (delta : R) : Prop :=
  forall y : nat -> R, (delta * sq_norm n y <= quad_form n A y)%R.

(** The indicator of index [c]. *)
Definition ind (c x : nat) : R := if x =? c then 1%R else 0%R.

(** What a positive definite input adds to the invariant of the main loop:
    no shift has been recorded, the trailing block of [a] is positive
    definite with margin [delta], and its diagonal does not exceed
    [gamma]. *)
Definition pd_state (n : nat) (gamma delta : R) (j : nat)
    (a : array2 R) (e : array1 R) : Prop :=
  (forall m, m < j -> get1 e m = 0%R)
  /\ (forall y : nat -> R,
         (forall x, x < j -> y x = 0%R) ->
         (delta * sq_norm n y <= quad_form n a y)%R)
  /\ (forall x, j <= x < n -> (get2 a x x <= gamma)%R).

(** Row [m] of the upper factor [r] and entry [m] of [e] obey the pivot
    rule of lines 132-145 with the thresholds [beta] and [delta].  The
    loop leaves [r[m, m] = sqrt dj], [r[m, y] = a[m, y] / r[m, m]] and
    [e[m] = dj - a[m, m]], so that [a[m, m] = r[m, m]^2 - e[m]] and
    [|a[m, y]| = |r[m, y]| * r[m, m]]; with [theta] the largest of the
    [|a[m, y]|] to the right of the diagonal (0 when there is none), the
    rule is [dj = max(|a[m, m]|, (theta / beta)^2, delta)]. *)
Definition pivot_rule_row (n : nat) (beta delta : R) (r : array2 R)
    (e : array1 R) (m : nat) : Prop :=
  exists theta : R,
    (forall y, m < y < n -> (Rabs (get2 r m y) * get2 r m m <= theta)%R)
    /\ (theta = 0%R
        \/ exists y, m < y < n /\ theta = (Rabs (get2 r m y) * get2 r m m)%R)
    /\ (get2 r m m * get2 r m m
        = Rmax (Rmax (Rabs (get2 r m m * get2 r m m - get1 e m))
                     (theta / beta * (theta / beta)))
               delta)%R.

(** The same rule read on the lower factor [L = r.T] that [gmw_cholesky]
    returns: column [j] of [L] and entry [j] of [e]. *)
Definition pivot_rule (n : nat) (beta delta : R) (L : array2 R)
    (e : array1 R) (j : nat) : Prop :=
  pivot_rule_row n beta delta (transpose L) e j.

(** The first [j] rows of [r] obey the pivot rule. *)
Definition pivots_ruled (n : nat) (beta delta : R) (j : nat)
    (r : array2 R) (e : array1 R) : Prop :=
  forall m, m < j -> pivot_rule_row n beta delta r e m.

(** [g] is the largest absolute value of the diagonal of [A], and [x] the
    largest absolute value above the diagonal, each 0 when no entry is
    larger: the [gamma] and [xi] of lines 83-88. *)
Definition largest_diagonal (n : nat) (A : array2 R) (g : R) : Prop :=
  (forall i, i < n -> (Rabs (get2 A i i) <= g)%R)
  /\ (g = 0%R \/ exists i, i < n /\ g = Rabs (get2 A i i)).

Definition largest_off_diagonal (n : nat) (A : array2 R) (x : R) : Prop :=
  (forall i j, i < j < n -> (Rabs (get2 A i j) <= x)%R)
  /\ (x = 0%R \/ exists i j, i < j < n /\ x = Rabs (get2 A i j)).

(** What [gmw_cholesky] returns, as lists. *)
Definition gmw_cholesky_rows {T} {num : Num T} (A : array2 T)
    : result (list (list T) * list (list T) * list T) :=
  '(P, L, e) <- gmw_cholesky A ;; Ok (to_rows P, to_rows L, to_list e).

(** The largest entry of [|P.T @ A @ P - (L @ L.T - diag(e))|], as binary64
    computes it. *)
Definition max_residual (A : array2 float) : result float :=
  '(P, L, e) <- gmw_cholesky A ;;
  B <- permuted A P ;;
  C <- recomposed L e ;;
  Ok (fold_left (fun m x => pymax m x)
        (concat (to_rows (Arr2 (nrows B) (ncols B)
                   (fun x y => PrimFloat.abs (PrimFloat.sub (get2 B x y) (get2 C x y))))))
        0%float).

(** The shift vector returned by [gmw_cholesky], as a list. *)
Definition shift_of {T} {num : Num T} (A : array2 T) : result (list T) :=
  '(P, L, e) <- gmw_cholesky A ;; Ok (to_list e).

(** The factor returned by [gmw_cholesky], as rows. *)
Definition factor_of {T} {num : Num T} (A : array2 T) : result (list (list T)) :=
  '(P, L, e) <- gmw_cholesky A ;; Ok (to_rows L).

(** The test matrix left in the comments of [gmw_cholesky]. *)
Definition test_matrix : array2 float :=
  of_rows [[4; 2; 1]; [2; 6; 3]; [1; 3; -0.004]]%float.

(** A positive definite matrix whose eigenvalues 1e16 and 0.1 are seventeen
    orders of magnitude apart. *)
Definition ill_conditioned_pd : array2 float :=
  of_rows [[1e16; 0]; [0; 0.1]]%float.

(** A positive definite matrix with eigenvalues 1 and 3. *)
Definition pd_matrix_R : array2 R := of_rows [[2; 1]; [1; 2]]%R.

(** ** Concrete inputs *)

Definition std_1_2 : array1 R := of_list [1; 2]%R.
Definition corr_half : array2 R := of_rows [[1; / 2]; [/ 2; 1]]%R.

Definition cov_neg_diag : array2 R := of_rows [[-1; 1]; [1; 4]]%R.

Definition std_f : array1 float := of_list [1; 2; 3]%float.
Definition corr_f1 : array2 float :=
  of_rows [[1; 0.5; 0.25]; [0.5; 1; -0.5]; [0.25; -0.5; 1]]%float.
Definition corr_f2 : array2 float :=
  of_rows [[7; 0.5; 0.25]; [8; 9; -0.5]; [10; 11; 12]]%float.

Definition std_two : array1 float := of_list [1; 2]%float.
Definition corr_three : array2 float :=
  of_rows [[1; 0.5; 0.25]; [0.5; 1; 0.125]; [0.25; 0.125; 1]]%float.

(** The sampler run on [run_mean], [run_std], [run_corr] with ten samples. *)
Definition run_result : result (array2 float) :=
  lhs_normal_sample_corr (lib:=run_library) run_mean run_std run_corr 10.

(** The score of the single try of the run. *)
Definition run_try : result (array2 float * float) :=
  match lhs_normal_sample (lib:=run_library) 10
          (np_zeros1 2) (np_ones 2) with
  | Ok samples =>
      match dependent_samples_of (lib:=run_library) samples run_corr with
      | Ok dep =>
          one_try (lib:=run_library) 2 10 samples dep run_mean run_std
                   run_corr (np_zeros2 (nrows samples) (ncols samples))
      | Raise e => Raise e
      end
  | Raise e => Raise e
  end.

(** The test matrix left in the comments of [gmw_cholesky]. *)
Definition test_matrix_R : array2 R :=
  of_rows [[4; 2; 1]; [2; 6; 3]; [1; 3; - (4 / 1000)]]%R.

(** The difference between [P.T @ A @ P] and [L @ L.T - diag(e)] at entry
    (0, 0), as binary64 computes it. *)
Definition residual_00 (A : array2 float) : result float :=
  '(P, L, e) <- gmw_cholesky A ;;
  B <- permuted A P ;;
  C <- recomposed L e ;;
  Ok (PrimFloat.abs (PrimFloat.sub (get2 B 0 0) (get2 C 0 0))).

(** The stratified sample and the transformed sample of the run. *)
Definition run_samples : array2 float :=
  match lhs_normal_sample (lib:=run_library) 10 (np_zeros1 2) (np_ones 2) with
  | Ok samples => samples
  | Raise _ => np_zeros2 0 0
  end.

Definition run_dependent : array2 float :=
  match dependent_samples_of (lib:=run_library) run_samples run_corr with
  | Ok dep => dep
  | Raise _ => np_zeros2 0 0
  end.

(** The scores of a first and of a second try on the run: the second try is
    kept only when the second component is [true]. *)
Definition run_two_scores : result (float * float * bool) :=
  '(z1, ae1) <- one_try (lib:=run_library) 2 10 run_samples run_dependent
                  run_mean run_std run_corr (np_zeros2 10 2) ;;
  '(z2, ae2) <- one_try (lib:=run_library) 2 10 run_samples run_dependent
                  run_mean run_std run_corr z1 ;;
  Ok (ae1, ae2, ltb ae2 ae1).

(** ** Further vocabulary of the converters, the factorisation and the
    sampler *)

(** [np.sqrt(np.diag(cov))]: the standard deviations of a covariance
    matrix. *)
Definition np_sqrt_diag {T} {num : Num T} (cov : array2 T) : array1 T :=
  np_map1 sqrt_ (np_diagonal cov).

(** [cov] with variable [i] measured in a unit [d[i]] times smaller:
    entry [(i, j)] is multiplied by [d[i] * d[j]]. *)
Definition rescaled (d : array1 R) (cov : array2 R) : array2 R :=
  Arr2 (nrows cov) (ncols cov)
       (fun i j => (get1 d i * get1 d j * get2 cov i j)%R).

(** [y.T @ a @ y >= 0] for every [y]. *)
Definition positive_semidefinite (n : nat) (a : array2 R) : Prop :=
  forall y : nat -> R, (0 <= quad_form n a y)%R.

(** [P] is the matrix of a permutation, with the 0 and 1 of the arithmetic
    at hand. *)
Definition permutation_matrix_of {T} {num : Num T} (n : nat) (P : array2 T)
    : Prop :=
  nrows P = n /\ ncols P = n /\
  exists sigma : nat -> nat,
    (forall y, y < n -> sigma y < n)
    /\ (forall y y', y < n -> y' < n -> sigma y = sigma y' -> y = y')
    /\ forall x y, x < n -> y < n ->
                   get2 P x y = if x =? sigma y then one else zero.

(** A list is in non-decreasing order of the keys of its elements. *)
Fixpoint ascending_by {A : Type} (key : A -> R) (l : list A) : Prop :=
  match l with
  | [] => True
  | x :: l' => (forall y, In y l' -> (key x <= key y)%R) /\ ascending_by key l'
  end.

(** The first [j] rows of [r] obey the two bounds of the algorithm: a
    diagonal entry is at least [sqrt delta], and an entry to the right of
    the diagonal is at most [beta] in absolute value. *)
Definition rows_bounded (n : nat) (beta delta : R) (j : nat) (r : array2 R)
    : Prop :=
  forall m, m < j ->
    (sqrt delta <= get2 r m m)%R
    /\ forall y, m < y < n -> (Rabs (get2 r m y) <= beta)%R.

(** [P] keeps the invariant of the main loop of [gmw_cholesky] in any
    arithmetic: the arrays keep their shapes and [P] is a permutation
    matrix. *)
Definition permutation_state {T} {num : Num T} (n : nat)
    (s : array2 T * array2 T * array1 T * array2 T) : Prop :=
  let '(a, r, e, P) := s in
  square n a /\ square n r /\ len1 e = n /\ permutation_matrix_of n P.

(** * ASAPy.AceIO: rewriting the data of an ACE file as text

    Conventions of the embedding:
    - a Python [str] is the list of its characters, a character being a code
      point below 256;
    - a file is the text that Python's text layer reads from it or writes to
      it: [open(path, 'r')] followed by [readlines()] is a function of that
      text, and [write_ace] returns the text it writes;
    - [format(x, formatting)] is a parameter of the functions that call it. *)

Definition pystr : Type := list Ascii.ascii.

Definition newline : Ascii.ascii := Ascii.ascii_of_nat 10.
Definition space : Ascii.ascii := Ascii.ascii_of_nat 32.
Definition full_stop : Ascii.ascii := Ascii.ascii_of_nat 46.
Definition letter_K : Ascii.ascii := Ascii.ascii_of_nat 75.

(** [c.isspace()]: the characters at which [str.split()] separates. *)
Definition isspace (c : Ascii.ascii) : bool :=
  let n := Ascii.nat_of_ascii c in
  ((9 <=? n) && (n <=? 13)) || ((28 <=? n) && (n <=? 32))
  || (n =? 133) || (n =? 160).

Arguments isspace : simpl never.
Arguments newline : simpl never.
Arguments space : simpl never.
Arguments full_stop : simpl never.

(** [l[i]] for a list or a string. *)
Definition list_item {A : Type} (l : list A) (i : nat) : result A :=
  match nth_error l i with
  | Some x => Ok x
  | None => Raise IndexError
  end.

(** [s.split()]: the maximal runs of characters that are not whitespace;
    [word] is the run being read. *)
Fixpoint split_from (word : pystr) (s : pystr) : list pystr :=
  match s with
  | [] => match word with [] => [] | _ => [word] end
  | c :: s' =>
      if isspace c
      then match word with
           | [] => split_from [] s'
           | _ => word :: split_from [] s'
           end
      else split_from (word ++ [c]) s'
  end.

Definition py_split (s : pystr) : list pystr := split_from [] s.

(** [f.readlines()]: the lines of a text, each with its newline; [line] is
    the line being read. *)
Fixpoint lines_from (line : pystr) (text : pystr) : list pystr :=
  match text with
  | [] => match line with [] => [] | _ => [line] end
  | c :: text' =>
      if Ascii.eqb c newline
      then (line ++ [c]) :: lines_from [] text'
      else lines_from (line ++ [c]) text'
  end.

Definition readlines (text : pystr) : list pystr := lines_from [] text.

(** [l.replace('\n', ' ')] *)
Definition newlines_to_spaces (l : pystr) : pystr :=
  map (fun c => if Ascii.eqb c newline then space else c) l.

(** [re.sub(' +', ' ', s)]: every run of spaces becomes one space;
    [in_run] tells whether the previous character was a space. *)
Fixpoint squeeze_from (in_run : bool) (s : pystr) : pystr :=
  match s with
  | [] => []
  | c :: s' =>
      if Ascii.eqb c space
      then if in_run then squeeze_from true s' else c :: squeeze_from true s'
      else c :: squeeze_from false s'
  end.

Definition re_sub_spaces (s : pystr) : pystr := squeeze_from false s.

(** ** WriteAce *)

Record WriteAce : Type := {
  single_line : pystr;
  header_lines : list pystr
}.

(** Line 431: 15 header lines when the second character of the first word
    is a full stop, 12 otherwise. *)
Definition number_of_header_lines (lines : list pystr) : result nat :=
  line0 <- list_item lines 0 ;;
  word0 <- list_item (py_split line0) 0 ;;
  c <- list_item word0 1 ;;
  Ok (if Ascii.eqb c full_stop then 15 else 12).

(** [_read_ace_to_a_line], on the text of the file. *)
Definition _read_ace_to_a_line (text : pystr) : result (pystr * list pystr) :=
  let lines := readlines text in
  n <- number_of_header_lines lines ;;
  let header_lines := firstn n lines in
  let single_line :=
    fold_left (fun single_line l => single_line ++ newlines_to_spaces l)
              (skipn n lines) [] in
  let single_line := re_sub_spaces single_line in
  Ok (single_line, header_lines).

(** [WriteAce(ace_path)] *)
Definition WriteAce_init (text : pystr) : result WriteAce :=
  '(single_line, header_lines) <- _read_ace_to_a_line text ;;
  Ok {| single_line := single_line; header_lines := header_lines |}.

(** ['{0:>20}'.format(value)] *)
Definition format_right_20 (value : pystr) : pystr :=
  repeat space (20 - length value) ++ value.

(** Lines 501-506: the values, four to a line; the state is the text written
    so far and the counter. *)
Definition write_values (values : list pystr) (f : pystr) : pystr * nat :=
  fold_left (fun '(f, values_printed_coutner) value =>
               let f := f ++ format_right_20 value in
               let values_printed_coutner := values_printed_coutner + 1 in
               if values_printed_coutner =? 4
               then (f ++ [newline], 0)
               else (f, values_printed_coutner))
            values (f, 0).

(** [write_ace]: the text written to the file. *)
Definition write_ace (self : WriteAce) : pystr :=
  let split_all_data_str := py_split (single_line self) in
  let f := fold_left (fun f line => f ++ line) (header_lines self) [] in
  let '(f, values_printed_coutner) := write_values split_all_data_str f in
  if values_printed_coutner <? 4 then f ++ [newline] else f.

(** [' '.join(strs)] *)
Fixpoint join_spaces (strs : list pystr) : pystr :=
  match strs with
  | [] => []
  | [s] => s
  | s :: strs' => s ++ space :: join_spaces strs'
  end.

(** [s.startswith(prefix)] *)
Fixpoint startswith (s prefix : pystr) {struct prefix} : bool :=
  match prefix, s with
  | [], _ => true
  | _ :: _, [] => false
  | p :: prefix', c :: s' => Ascii.eqb c p && startswith s' prefix'
  end.

(** [s.index(sub)]: the lowest position at which [sub] occurs, [ValueError]
    when there is none. *)
Fixpoint find_from (position : nat) (s sub : pystr) : option nat :=
  if startswith s sub then Some position
  else match s with
       | [] => None
       | _ :: s' => find_from (S position) s' sub
       end.

Definition py_index (s sub : pystr) : result nat :=
  match find_from 0 s sub with
  | Some i => Ok i
  | None => Raise ValueError
  end.

(** [s[first:last]] *)
Definition slice (s : pystr) (first last : nat) : pystr :=
  firstn (last - first) (skipn first s).

(** The number of replacements [s.replace(old, new, count)] may still make:
    [None] is no limit (a negative [count]). *)
Definition replacements_allowed (count : Z) : option nat :=
  if (count <? 0)%Z then None else Some (Z.to_nat count).

Definition may_replace (left : option nat) : bool :=
  match left with
  | Some 0 => false
  | _ => true
  end.

Definition one_replaced (left : option nat) : option nat :=
  option_map Nat.pred left.

(** [s.replace(old, new, count)] for a non-empty [old]: occurrences are
    found from left to right and do not overlap; [skip] characters of the
    occurrence just replaced are still to be passed over. *)
Fixpoint replace_from (old new : pystr) (left : option nat) (skip : nat)
    (s : pystr) : pystr :=
  match s with
  | [] => []
  | c :: s' =>
      match skip with
      | S skip' => replace_from old new left skip' s'
      | 0 =>
          if may_replace left && startswith s old
          then new ++ replace_from old new (one_replaced left)
                                   (length old - 1) s'
          else c :: replace_from old new left 0 s'
      end
  end.

(** [s.replace('', new, count)]: [new] is put before every character and
    at the end. *)
Fixpoint interleave (new : pystr) (left : option nat) (s : pystr) : pystr :=
  if may_replace left
  then match s with
       | [] => new
       | c :: s' => new ++ c :: interleave new (one_replaced left) s'
       end
  else s.

Definition py_replace (s old new : pystr) (count : Z) : pystr :=
  match old with
  | [] => interleave new (replacements_allowed count) s
  | _ :: _ => replace_from old new (replacements_allowed count) 0 s
  end.

Section FormatMcnp.
Variable V : Type.
(** [format(s, formatting)], for the format in use. *)
Variable py_format : V -> pystr.

(** [format_mcnp] *)
Definition format_mcnp (array : list V) : pystr :=
  let original_str_formatted := map py_format array in
  let original_str_line := join_spaces original_str_formatted in
  original_str_line.

(** [replace_array] *)
Definition replace_array (self : WriteAce) (array replace_with : list V)
    (max_replaces : Z) : result WriteAce :=
  if negb (length array =? length replace_with)
  then Raise (Exception "Arrays must be equal length for replacement."%string)
  else
    let original_str_line := format_mcnp array in
    first_idx_of_data <- py_index (single_line self) original_str_line ;;
    let last_idx_of_data := first_idx_of_data + length original_str_line in
    let replace_with_line := format_mcnp replace_with in
    Ok {| single_line :=
            py_replace (single_line self)
                       (slice (single_line self) first_idx_of_data
                              last_idx_of_data)
                       replace_with_line max_replaces;
          header_lines := header_lines self |}.

End FormatMcnp.

(** A string with no whitespace and at least one character: what
    [str.split()] returns. *)
Definition is_word (w : pystr) : Prop :=
  w <> [] /\ forall c, In c w -> isspace c = false.

(** A line of text as [readlines] returns it before the end of the file: it
    ends with its newline and has no other. *)
Definition is_line (l : pystr) : Prop :=
  exists body, l = body ++ [newline] /\ ~ In newline body.

(** [sub] occurs in [s] at position [i]. *)
Definition occurs_at (s sub : pystr) (i : nat) : Prop :=
  exists before after, s = before ++ sub ++ after /\ length before = i.

(** The text of lines 501-506 in closed form: every value right-justified
    in 20 columns, a newline after every fourth one. *)
Fixpoint values_text (values_printed_coutner : nat) (values : list pystr)
    : pystr :=
  match values with
  | [] => []
  | value :: values' =>
      format_right_20 value
      ++ (if values_printed_coutner + 1 =? 4
          then newline :: values_text 0 values'
          else values_text (values_printed_coutner + 1) values')
  end.

(** No two spaces follow each other in [s]. *)
Fixpoint single_spaced (s : pystr) : Prop :=
  match s with
  | [] => True
  | c :: s' =>
      match s' with
      | [] => True
      | c' :: _ => ~ (c = space /\ c' = space)
      end /\ single_spaced s'
  end.

(** ** Concrete inputs *)

(** A line of text given by its characters, with its newline. *)
Definition text_line (s : string) : pystr :=
  list_ascii_of_string s ++ [newline].

(** A small file in the layout of an ACE table: 15 header lines and two
    lines of data. *)
Definition example_header : list pystr :=
  text_line "2.0.1 92235.710nc ENDFB-VII.1" :: repeat (text_line "header") 14.

Definition example_text : pystr :=
  concat example_header
  ++ text_line "   1.00000000000E+00   2.00000000000E+00"
  ++ text_line "   3.50000000000E+00".

Definition example_ace : WriteAce := {|
  single_line :=
    list_ascii_of_string
      " 1.00000000000E+00 2.00000000000E+00 3.50000000000E+00 ";
  header_lines := example_header
|}.

(** A loaded file with a value of 21 characters. *)
Definition example_long_value : WriteAce := {|
  single_line := list_ascii_of_string " 1.5 -1.00000000000000E+00 ";
  header_lines := example_header
|}.

(** A formatter with three digits, for the examples. *)
Definition example_format (x : nat) : pystr :=
  match x with
  | 0 => list_ascii_of_string "0.00E+00"
  | 1 => list_ascii_of_string "1.00E+00"
  | 2 => list_ascii_of_string "2.00E+00"
  | _ => list_ascii_of_string "9.99E+99"
  end.

Definition example_data : WriteAce := {|
  single_line := list_ascii_of_string " 0.00E+00 -1.00E+00 2.00E+00 1.00E+00 ";
  header_lines := example_header
|}.

(** ** AceEditor

    The table that [IncidentNeutron.from_ace] loads is a parameter: of the
    constructor only what it computes from [table.temperatures] and from
    the keys of [table.reactions] is embedded, and of [set_chi_distro] the
    update of one tabulated distribution (lines 172-184). *)

(** The [temperature] argument of the constructor: [None], a [str] or a
    [float]. *)
Inductive temperature_argument : Type :=
  | TemperatureNone
  | TemperatureStr (s : pystr)
  | TemperatureFloat (x : float).

Definition pystr_eqb (a b : pystr) : bool :=
  if list_eq_dec Ascii.ascii_dec a b then true else false.

(** [list(s)]: the characters of [s], each a string of length one. *)
Definition list_of_characters (s : pystr) : list pystr :=
  map (fun c => [c]) s.

(** [x in l] for strings. *)
Definition py_in (x : pystr) (l : list pystr) : bool :=
  existsb (pystr_eqb x) l.

(** [s.endswith('K')] *)
Definition endswith_K (s : pystr) : bool :=
  match rev s with
  | [] => false
  | c :: _ => Ascii.eqb c letter_K
  end.

Record AceEditor : Type := {
  temperature : pystr;
  all_mts : list Z;
  adjusted_mts : list Z
}.

Section Constructor.
(** [str(x)] for a float [x]. *)
Variable str_float : float -> pystr.

(** [not temperature] *)
Definition py_not (temperature : temperature_argument) : bool :=
  match temperature with
  | TemperatureNone => true
  | TemperatureStr s => match s with [] => true | _ => false end
  | TemperatureFloat x => PrimFloat.eqb x 0%float
  end.

(** [str(temperature)] *)
Definition py_str (temperature : temperature_argument) : pystr :=
  match temperature with
  | TemperatureNone => list_ascii_of_string "None"
  | TemperatureStr s => s
  | TemperatureFloat x => str_float x
  end.

(** Lines 29-44: the temperature the editor works at. *)
Definition init_temperature (temperatures : list pystr)
    (temperature : temperature_argument) : result pystr :=
  if py_not temperature
  then
    if 1 <? length temperatures
    then Raise (Exception
                  "Multiple temperature found, please specify temperature"%string)
    else list_item temperatures 0
  else
    let temperature := py_str temperature in
    let temperature :=
      if negb (endswith_K temperature)
      then temperature ++ [letter_K]
      else temperature in
    if negb (py_in temperature (list_of_characters temperature))
    then Raise (Exception
                  (String.append "Could not find temperature "
                     (String.append (string_of_list_ascii temperature)
                                    " in ace file")))
    else Ok temperature.

(** Lines 47-51: the MT numbers of the table, with those of nu-bar and of
    the fission spectrum when fission is present. *)
Definition init_all_mts (reaction_keys : list Z) : list Z :=
  if existsb (Z.eqb 18) reaction_keys
  then (reaction_keys ++ [452%Z]) ++ [1018%Z]
  else reaction_keys.

(** [AceEditor(ace_path, temperature)], given what the table holds. *)
Definition AceEditor_init (temperatures : list pystr) (reaction_keys : list Z)
    (temperature : temperature_argument) : result AceEditor :=
  temperature <- init_temperature temperatures temperature ;;
  Ok {| temperature := temperature;
        all_mts := init_all_mts reaction_keys;
        adjusted_mts := [] |}.

End Constructor.

(** A Python [set] of integers is a list without repetition; the order in
    which [list(s)] enumerates a set is not specified by Python, and nothing
    proved below depends on the order chosen here. *)
Definition py_set (l : list Z) : list Z := nodup Z.eq_dec l.

Definition set_intersection (a b : list Z) : list Z :=
  filter (fun mt => existsb (Z.eqb mt) b) a.

(** [_check_if_mts_present] *)
Definition _check_if_mts_present (self : AceEditor) (mt_list : list Z)
    (compare_to : option (list Z)) : list Z :=
  let compare_to :=
    match compare_to with
    | None => all_mts self
    | Some compare_to => compare_to
    end in
  let search_set := py_set mt_list in
  let search_in_set := py_set compare_to in
  set_intersection search_in_set search_set.

Section ChiDistro.
Context {T : Type} {num : Num T}.

(** An element-wise operation on two vectors, with NumPy's broadcasting of
    a vector of length one. *)
Definition broadcast1 (f : T -> T -> T) (a b : array1 T) : result (array1 T) :=
  if len1 a =? len1 b
  then Ok (Arr1 (len1 a) (fun i => f (get1 a i) (get1 b i)))
  else if len1 a =? 1
       then Ok (Arr1 (len1 b) (fun i => f (get1 a 0) (get1 b i)))
       else if len1 b =? 1
            then Ok (Arr1 (len1 a) (fun i => f (get1 a i) (get1 b 0)))
            else Raise ValueError.

(** [np.diff(v)] *)
Definition np_diff (v : array1 T) : array1 T :=
  Arr1 (len1 v - 1) (fun i => sub (get1 v (i + 1)) (get1 v i)).

(** [np.insert(v, 0, value)] *)
Definition np_insert_front (v : array1 T) (value : T) : array1 T :=
  Arr1 (S (len1 v)) (fun i => match i with 0 => value | S k => get1 v k end).

(** [v[-1]] *)
Definition item_last (v : array1 T) : result T :=
  if len1 v =? 0 then Raise IndexError else Ok (get1 v (len1 v - 1)).

(** [[sum(v[0:i + 1]) for i in range(len(v))]] *)
Definition running_sums (v : array1 T) : array1 T :=
  Arr1 (len1 v) (fun i => sum_n (i + 1) (get1 v)).

(** A tabulated distribution: its grid [x], its density [p] and its
    cumulative distribution [c]. *)
Record Tabular : Type := {
  distro_x : array1 T;
  distro_p : array1 T;
  distro_c : array1 T
}.

(** Lines 172-184 of [set_chi_distro]: the update of one distribution by
    the density [pdf[idx]]. *)
Definition set_chi_distro_update (pdf_idx : array1 T) (distro : Tabular)
    : result Tabular :=
  delta_pdf <- broadcast1 sub pdf_idx (distro_p distro) ;;
  let delta_e := np_diff (distro_x distro) in
  let delta_e := np_insert_front delta_e zero in
  delta_cdf <- broadcast1 mul delta_pdf delta_e ;;
  let delta_cdf_sum := running_sums delta_cdf in
  c_last <- item_last (distro_c distro) ;;
  s_last <- item_last delta_cdf_sum ;;
  let normalization := add c_last s_last in
  c_plus <- broadcast1 add (distro_c distro) delta_cdf_sum ;;
  Ok {| distro_x := distro_x distro;
        distro_p := np_map1 (fun v => div v normalization) pdf_idx;
        distro_c := np_map1 (fun v => div v normalization) c_plus |}.

(** Lines 171-184: every distribution of [energy_out] with its density. *)
Fixpoint set_chi_distro_loop (pdf : list (array1 T)) (idx : nat)
    (energy_out : list Tabular) : result (list Tabular) :=
  match energy_out with
  | [] => Ok []
  | distro :: energy_out' =>
      pdf_idx <- list_item pdf idx ;;
      distro <- set_chi_distro_update pdf_idx distro ;;
      rest <- set_chi_distro_loop pdf (S idx) energy_out' ;;
      Ok (distro :: rest)
  end.

End ChiDistro.

(** [c] is the cumulative sum of [p] over the grid [x], each value of [p]
    weighted by the width of the interval that ends at its point. *)
Definition cumulative_of (x p c : array1 R) : Prop :=
  forall i, i < len1 c ->
    get1 c i
    = sum_n (i + 1)
        (fun k => (get1 p k
                   * match k with 0 => 0 | S k' => get1 x k - get1 x k' end)%R).

(** The normalisation that [set_chi_distro] computes for a distribution and
    its new density, in closed form:
    [c[-1] + sum((pdf[idx] - p) * delta_e)]. *)
Definition normalization_of (pdf_idx : array1 R) (distro : @Tabular R) : R :=
  (get1 (distro_c distro) (len1 (distro_c distro) - 1)
   + sum_n (len1 pdf_idx) (fun k =>
       (get1 pdf_idx k - get1 (distro_p distro) k)
       * match k with
         | 0 => 0
         | S k' => get1 (distro_x distro) k - get1 (distro_x distro) k'
         end))%R.

(** The density and the three vectors of a distribution have one length,
    which is not zero. *)
Definition same_bins (pdf_idx : array1 R) (distro : @Tabular R) : Prop :=
  1 <= len1 pdf_idx
  /\ len1 (distro_x distro) = len1 pdf_idx
  /\ len1 (distro_p distro) = len1 pdf_idx
  /\ len1 (distro_c distro) = len1 pdf_idx.


Example correlation_to_cov_example :
to_rows_result (correlation_to_cov (of_list [1; 2]%float)
                  (of_rows [[1; 0.5]; [0.5; 1]]%float))
= Ok [[1; 1]; [1; 4]]%float.
Proof. vm_compute. reflexivity. Qed.

Example cov_to_correlation_example :
to_rows_result (cov_to_correlation (of_rows [[1; 1]; [1; 4]]%float))
= Ok [[1; 0.5]; [0.5; 1]]%float.
Proof. vm_compute. reflexivity. Qed.

(** Case analysis on every comparison of indices in the goal. *)
Ltac nat_cases :=
  repeat match goal with
         | |- context [?u <? ?v] => destruct (Nat.ltb_spec u v); simpl
         | |- context [?u <=? ?v] => destruct (Nat.leb_spec u v); simpl
         | |- context [?u =? ?v] => destruct (Nat.eqb_spec u v); simpl
         end.

(** ** Reasoning about loops *)

Lemma bind_Ok {A B} (m : result A) (k : A -> result B) a :
m = Ok a -> bind m k = k a.
Proof. intros ->. reflexivity. Qed.

Lemma for_loop_inv {S} (I : nat -> S -> Prop) (body : nat -> S -> result S) :
forall count lo s,
  I lo s ->
  (forall i s0, lo <= i < lo + count -> I i s0 ->
                exists s1, body i s0 = Ok s1 /\ I (Datatypes.S i) s1) ->
  exists s', for_loop count lo body s = Ok s' /\ I (lo + count) s'.
Proof.
induction count as [|count IH]; intros lo s H0 Hstep; simpl.
- exists s. rewrite Nat.add_0_r. auto.
- destruct (Hstep lo s) as (s1 & E1 & H1); [lia | assumption |].
  rewrite E1. simpl.
  destruct (IH (Datatypes.S lo) s1 H1) as (s' & E' & H').
  + intros i s0 Hi. apply Hstep. lia.
  + exists s'. split; [assumption|].
    replace (lo + Datatypes.S count) with (Datatypes.S lo + count) by lia.
    assumption.
Qed.

Lemma for_range_inv {S} (I : nat -> S -> Prop) (body : nat -> S -> result S)
    lo hi s :
lo <= hi ->
I lo s ->
(forall i s0, lo <= i < hi -> I i s0 ->
              exists s1, body i s0 = Ok s1 /\ I (Datatypes.S i) s1) ->
exists s', for_range lo hi body s = Ok s' /\ I hi s'.
Proof.
intros Hle H0 Hstep. unfold for_range.
destruct (for_loop_inv I body (hi - lo) lo s H0) as (s' & E & H').
- intros i s0 Hi. apply Hstep. lia.
- exists s'. split; [assumption|].
  replace hi with (lo + (hi - lo)) by lia. assumption.
Qed.

Lemma for_range_empty {S} (body : nat -> S -> result S) lo hi s :
hi <= lo -> for_range lo hi body s = Ok s.
Proof.
intros Hle. unfold for_range.
replace (hi - lo) with 0 by lia. reflexivity.
Qed.

(** The first iteration of a loop that raises ends the loop. *)
Lemma for_range_raise_first {S} (body : nat -> S -> result S) lo hi s e :
lo < hi -> body lo s = Raise e -> for_range lo hi body s = Raise e.
Proof.
intros Hlt E. unfold for_range.
destruct (hi - lo) as [|c] eqn:Ec; [lia|].
simpl. rewrite E. reflexivity.
Qed.

Section ArrayFacts.
Context {T : Type} {num : Num T}.

Lemma item1_Ok (v : array1 T) i : i < len1 v -> item1 v i = Ok (get1 v i).
Proof.
  intros Hi. unfold item1.
  destruct (Nat.ltb_spec i (len1 v)); [reflexivity | lia].
Qed.

Lemma item2_Ok (a : array2 T) i j :
  i < nrows a -> j < ncols a -> item2 a i j = Ok (get2 a i j).
Proof.
  intros Hi Hj. unfold item2.
  destruct (Nat.ltb_spec i (nrows a)); [|lia].
  destruct (Nat.ltb_spec j (ncols a)); [reflexivity | lia].
Qed.

Lemma item2_IndexError (a : array2 T) i j :
  nrows a <= i \/ ncols a <= j -> item2 a i j = Raise IndexError.
Proof.
  intros Hij. unfold item2.
  destruct (Nat.ltb_spec i (nrows a)); [|reflexivity].
  destruct (Nat.ltb_spec j (ncols a)); [lia | reflexivity].
Qed.

Lemma setitem2_Ok (a : array2 T) i j x :
  i < nrows a -> j < ncols a ->
  setitem2 a i j x =
  Ok (Arr2 (nrows a) (ncols a)
        (fun r c => if (r =? i) && (c =? j) then x else get2 a r c)).
Proof.
  intros Hi Hj. unfold setitem2.
  destruct (Nat.ltb_spec i (nrows a)); [|lia].
  destruct (Nat.ltb_spec j (ncols a)); [reflexivity | lia].
Qed.

Lemma setitem1_Ok (v : array1 T) i x :
  i < len1 v ->
  setitem1 v i x = Ok (Arr1 (len1 v) (fun k => if k =? i then x else get1 v k)).
Proof.
  intros Hi. unfold setitem1.
  destruct (Nat.ltb_spec i (len1 v)); [reflexivity | lia].
Qed.

(** Filling the strict upper triangle of an [n] x [n] array, row by row. *)
Lemma upper_fill_spec (n : nat) (g : nat -> nat -> T)
      (body : nat -> nat -> array2 T -> result (array2 T)) (c0 : array2 T) :
  nrows c0 = n -> ncols c0 = n ->
  (forall i j c, i < j < n -> nrows c = n -> ncols c = n ->
                 body i j c = setitem2 c i j (g i j)) ->
  exists c,
    for_range 0 n (fun i c => for_range (i + 1) n (fun j c => body i j c) c) c0
    = Ok c
    /\ nrows c = n /\ ncols c = n
    /\ forall r k, get2 c r k
                   = if (r <? k) && (k <? n) then g r k else get2 c0 r k.
Proof.
  intros Hr Hc Hbody.
  pose (I := fun (i : nat) (c : array2 T) =>
               nrows c = n /\ ncols c = n /\
               forall r k, get2 c r k
                           = if (r <? i) && ((r <? k) && (k <? n))
                             then g r k else get2 c0 r k).
  destruct (for_range_inv I
              (fun i c => for_range (i + 1) n (fun j c => body i j c) c)
              0 n c0) as (c & E & (Hr' & Hc' & Hg)).
  - lia.
  - unfold I. repeat split; try assumption.
  - intros i c1 Hi (Hr1 & Hc1 & Hg1).
    pose (J := fun (j : nat) (c : array2 T) =>
                 nrows c = n /\ ncols c = n /\
                 forall r k, get2 c r k
                             = if (r =? i) && ((i <? k) && (k <? j))
                               then g r k else get2 c1 r k).
    destruct (for_range_inv J (fun j c => body i j c)
                (i + 1) n c1) as (c2 & E2 & (Hr2 & Hc2 & Hg2)).
    + lia.
    + unfold J. repeat split; try assumption. intros r k.
      destruct (Nat.eqb_spec r i); simpl; [|reflexivity].
      destruct (Nat.ltb_spec i k); simpl; [|reflexivity].
      destruct (Nat.ltb_spec k (i + 1)); [lia | reflexivity].
    + intros j c3 Hj (Hr3 & Hc3 & Hg3).
      rewrite Hbody by (assumption || lia).
      rewrite setitem2_Ok by lia.
      eexists. split; [reflexivity|].
      unfold J. repeat split; simpl; try assumption. intros r k.
      rewrite Hg3.
      destruct (Nat.eqb_spec r i); simpl; [|reflexivity].
      destruct (Nat.eqb_spec k j); simpl.
      * subst k.
        destruct (Nat.ltb_spec i j); [|lia].
        destruct (Nat.ltb_spec j (Datatypes.S j)); [|lia].
        destruct (Nat.ltb_spec j j); [lia|]. simpl. subst r. reflexivity.
      * destruct (Nat.ltb_spec i k); simpl; [|reflexivity].
        destruct (Nat.ltb_spec k j), (Nat.ltb_spec k (Datatypes.S j));
          try lia; reflexivity.
    + exists c2. split; [exact E2|].
      unfold I. repeat split; try assumption. intros r k.
      rewrite Hg2, Hg1.
      destruct (Nat.eqb_spec r i); simpl.
      * subst r.
        destruct (Nat.ltb_spec i i); [lia|]. simpl.
        destruct (Nat.ltb_spec i (Datatypes.S i)); [|lia]. simpl.
        destruct (Nat.ltb_spec i k); reflexivity.
      * destruct (Nat.ltb_spec r i), (Nat.ltb_spec r (Datatypes.S i));
          try lia; reflexivity.
  - exists c. split; [exact E|].
    repeat split; try assumption. intros r k. rewrite Hg.
    destruct (Nat.ltb_spec r k); simpl.
    + destruct (Nat.ltb_spec k n); simpl.
      * destruct (Nat.ltb_spec r n); [reflexivity | lia].
      * rewrite andb_false_r. reflexivity.
    + rewrite andb_false_r. reflexivity.
Qed.

(** The mirroring step [c + c.T - np.diag(np.diag(c))] of a square array. *)
Lemma mirror_spec (n : nat) (c : array2 T) :
  nrows c = n -> ncols c = n ->
  exists m,
    (s <- np_add c (transpose c) ;; np_sub s (np_diag (np_diagonal c))) = Ok m
    /\ nrows m = n /\ ncols m = n
    /\ forall r k, get2 m r k
                   = sub (add (get2 c r k) (get2 c k r))
                         (if r =? k then get2 c r r else zero).
Proof.
  intros Hr Hc. unfold np_add, np_sub, same_shape. simpl.
  rewrite Hr, Hc, Nat.eqb_refl. simpl.
  rewrite Nat.min_id, Nat.eqb_refl. simpl.
  eexists. split; [reflexivity|]. simpl. auto.
Qed.


Lemma correlation_to_cov_spec (std : array1 T) (corr : array2 T) :
  len1 std <= nrows corr -> len1 std <= ncols corr ->
  exists cov,
    correlation_to_cov std corr = Ok cov
    /\ nrows cov = len1 std /\ ncols cov = len1 std
    /\ forall r k, get2 cov r k
                   = sub (add (cov_upper std corr r k) (cov_upper std corr k r))
                         (if r =? k then cov_upper std corr r r else zero).
Proof.
  intros Hr Hc. unfold correlation_to_cov.
  destruct (upper_fill_spec (len1 std)
              (fun r k => mul (mul (get2 corr r k) (get1 std r)) (get1 std k))
              (fun i j c =>
                 c0 <- item2 corr i j ;;
                 si <- item1 std i ;;
                 sj <- item1 std j ;;
                 setitem2 c i j (mul (mul c0 si) sj))
              (np_diag (np_square std)))
    as (c & E & Hr' & Hc' & Hg); try reflexivity.
  - intros i j c0 Hij _ _.
    rewrite item2_Ok by lia. simpl.
    rewrite !item1_Ok by lia. reflexivity.
  - rewrite E. simpl.
    destruct (mirror_spec _ c Hr' Hc') as (m & Em & Hrm & Hcm & Hm).
    exists m. split; [exact Em|].
    repeat split; try assumption. intros r k.
    rewrite Hm. unfold cov_upper. rewrite !Hg. simpl. reflexivity.
Qed.


Lemma cov_to_correlation_spec (cov : array2 T) :
  nrows cov <= ncols cov ->
  exists corr,
    cov_to_correlation cov = Ok corr
    /\ nrows corr = nrows cov /\ ncols corr = nrows cov
    /\ forall r k, get2 corr r k
                   = sub (add (corr_upper cov r k) (corr_upper cov k r))
                         (if r =? k then corr_upper cov r r else zero).
Proof.
  intros Hc. unfold cov_to_correlation.
  destruct (upper_fill_spec (nrows cov)
              (fun r k => div (get2 cov r k)
                              (sqrt_ (absv (mul (get2 cov r r) (get2 cov k k)))))
              (fun i j c =>
                 cij <- item2 cov i j ;;
                 cii <- item2 cov i i ;;
                 cjj <- item2 cov j j ;;
                 setitem2 c i j (div cij (sqrt_ (absv (mul cii cjj)))))
              (np_diag (np_ones (nrows cov))))
    as (c & E & Hr' & Hc' & Hg); try reflexivity.
  - intros i j c0 Hij _ _.
    rewrite !item2_Ok by lia. reflexivity.
  - rewrite E. simpl.
    destruct (mirror_spec _ c Hr' Hc') as (m & Em & Hrm & Hcm & Hm).
    exists m. split; [exact Em|].
    repeat split; try assumption. intros r k.
    rewrite Hm. unfold corr_upper. rewrite !Hg. simpl. reflexivity.
Qed.

End ArrayFacts.

(** ** Properties of the CorrelationConverter *)


(** binary64 addition is commutative. *)
Lemma float_add_comm (x y : float) : PrimFloat.add x y = PrimFloat.add y x.
Proof.
apply Prim2SF_inj. rewrite !add_spec. unfold SF64add.
destruct (Prim2SF x) as [sx|sx| |sx mx ex], (Prim2SF y) as [sy|sy| |sy my ey];
  simpl; try reflexivity;
  try (destruct sx, sy; reflexivity).
rewrite (Z.min_comm ey ex), Z.add_comm. reflexivity.
Qed.

Section ConverterOverR.
Open Scope R_scope.

Lemma cov_upper_diag (std : array1 R) (corr : array2 R) r :
  cov_upper std corr r r = get1 std r * get1 std r.
Proof.
  unfold cov_upper. rewrite Nat.ltb_irrefl, Nat.eqb_refl. reflexivity.
Qed.

Lemma cov_upper_lt (std : array1 R) (corr : array2 R) r k :
  (r < k < len1 std)%nat ->
  cov_upper std corr r k = get2 corr r k * get1 std r * get1 std k
  /\ cov_upper std corr k r = 0.
Proof.
  intros Hrk. unfold cov_upper.
  destruct (Nat.ltb_spec r k); [|lia].
  destruct (Nat.ltb_spec k (len1 std)); [|lia].
  destruct (Nat.ltb_spec k r); [lia|].
  destruct (Nat.eqb_spec k r); [lia|]. simpl. auto.
Qed.

(** Entries of [correlation_to_cov] in exact arithmetic. *)
Lemma correlation_to_cov_R (std : array1 R) (corr : array2 R) :
  (len1 std <= nrows corr)%nat -> (len1 std <= ncols corr)%nat ->
  exists cov,
    correlation_to_cov std corr = Ok cov
    /\ nrows cov = len1 std /\ ncols cov = len1 std
    /\ (forall i, get2 cov i i = get1 std i * get1 std i)
    /\ (forall i j, (i < j < len1 std)%nat ->
                    get2 cov i j = get2 corr i j * get1 std i * get1 std j
                    /\ get2 cov j i = get2 corr i j * get1 std i * get1 std j).
Proof.
  intros Hr Hc.
  destruct (correlation_to_cov_spec std corr Hr Hc) as (cov & E & Hr' & Hc' & Hg).
  exists cov. repeat split; try assumption.
  - intros i. rewrite Hg, Nat.eqb_refl, cov_upper_diag. simpl. ring.
  - rewrite Hg. destruct (Nat.eqb_spec i j); [lia|].
    destruct (cov_upper_lt std corr i j H) as [-> ->]. simpl. ring.
  - rewrite Hg. destruct (Nat.eqb_spec j i); [lia|].
    destruct (cov_upper_lt std corr i j H) as [-> ->]. simpl. ring.
Qed.

Lemma corr_upper_diag (cov : array2 R) r : corr_upper cov r r = 1.
Proof.
  unfold corr_upper. rewrite Nat.ltb_irrefl, Nat.eqb_refl. reflexivity.
Qed.

Lemma corr_upper_lt (cov : array2 R) r k :
  (r < k < nrows cov)%nat ->
  corr_upper cov r k
  = get2 cov r k / sqrt (Rabs (get2 cov r r * get2 cov k k))
  /\ corr_upper cov k r = 0.
Proof.
  intros Hrk. unfold corr_upper.
  destruct (Nat.ltb_spec r k); [|lia].
  destruct (Nat.ltb_spec k (nrows cov)); [|lia].
  destruct (Nat.ltb_spec k r); [lia|].
  destruct (Nat.eqb_spec k r); [lia|]. simpl. auto.
Qed.

(** Entries of [cov_to_correlation] in exact arithmetic. *)
Lemma cov_to_correlation_R (cov : array2 R) :
  (nrows cov <= ncols cov)%nat ->
  exists corr,
    cov_to_correlation cov = Ok corr
    /\ nrows corr = nrows cov /\ ncols corr = nrows cov
    /\ (forall i, get2 corr i i = 1)
    /\ (forall i j, (i < j < nrows cov)%nat ->
                    get2 corr i j
                    = get2 cov i j / sqrt (Rabs (get2 cov i i * get2 cov j j))
                    /\ get2 corr j i
                       = get2 cov i j / sqrt (Rabs (get2 cov i i * get2 cov j j))).
Proof.
  intros Hc.
  destruct (cov_to_correlation_spec cov Hc) as (corr & E & Hr' & Hc' & Hg).
  exists corr. repeat split; try assumption.
  - intros i. rewrite Hg, Nat.eqb_refl, corr_upper_diag. simpl. ring.
  - rewrite Hg. destruct (Nat.eqb_spec i j); [lia|].
    destruct (corr_upper_lt cov i j H) as [-> ->]. simpl. ring.
  - rewrite Hg. destruct (Nat.eqb_spec j i); [lia|].
    destruct (corr_upper_lt cov i j H) as [-> ->]. simpl. ring.
Qed.

End ConverterOverR.

Lemma for_loop_raise {S} (I : nat -> S -> Prop) (body : nat -> S -> result S) e :
  forall count lo s k,
    lo <= k < lo + count ->
    I lo s ->
    (forall i s0, lo <= i < k -> I i s0 ->
                  exists s1, body i s0 = Ok s1 /\ I (Datatypes.S i) s1) ->
    (forall s0, I k s0 -> body k s0 = Raise e) ->
    for_loop count lo body s = Raise e.
Proof.
  induction count as [|count IH]; intros lo s k Hk H0 Hstep Hraise; [lia|].
  simpl. destruct (Nat.eq_dec lo k) as [->|Hne].
  - rewrite (Hraise s H0). reflexivity.
  - destruct (Hstep lo s) as (s1 & E1 & H1); [lia | assumption |].
    rewrite E1. simpl.
    apply (IH (Datatypes.S lo) s1 k); try assumption; try lia.
    intros i s0 Hi. apply Hstep. lia.
Qed.

Lemma for_range_raise {S} (I : nat -> S -> Prop) (body : nat -> S -> result S)
      e lo hi s k :
  lo <= k < hi ->
  I lo s ->
  (forall i s0, lo <= i < k -> I i s0 ->
                exists s1, body i s0 = Ok s1 /\ I (Datatypes.S i) s1) ->
  (forall s0, I k s0 -> body k s0 = Raise e) ->
  for_range lo hi body s = Raise e.
Proof.
  intros Hk H0 Hstep Hraise. unfold for_range.
  apply (for_loop_raise I body e (hi - lo) lo s k); try assumption. lia.
Qed.

Lemma to_rows_ext {T} (a b : array2 T) :
  nrows a = nrows b -> ncols a = ncols b ->
  (forall r k, r < nrows a -> k < ncols a -> get2 a r k = get2 b r k) ->
  to_rows a = to_rows b.
Proof.
  intros Hr Hc Hg. unfold to_rows. rewrite <- Hr, <- Hc.
  apply map_ext_in. intros r Hin. apply in_seq in Hin.
  apply map_ext_in. intros k Hik. apply in_seq in Hik.
  apply Hg; lia.
Qed.

Section ConverterGeneric.
Context {T : Type} {num : Num T}.

Lemma cov_upper_agree (std : array1 T) (c1 c2 : array2 T) :
  agree_above (len1 std) c1 c2 ->
  forall r k, cov_upper std c1 r k = cov_upper std c2 r k.
Proof.
  intros Hag r k. unfold cov_upper.
  destruct (Nat.ltb_spec r k); simpl; [|reflexivity].
  destruct (Nat.ltb_spec k (len1 std)); simpl; [|reflexivity].
  rewrite (Hag r k) by lia. reflexivity.
Qed.

Lemma corr_upper_agree (c1 c2 : array2 T) :
  nrows c1 = nrows c2 ->
  agree_on_above (nrows c1) c1 c2 ->
  forall r k, corr_upper c1 r k = corr_upper c2 r k.
Proof.
  intros Hn Hag r k. unfold corr_upper. rewrite <- Hn.
  destruct (Nat.ltb_spec r k); simpl; [|reflexivity].
  destruct (Nat.ltb_spec k (nrows c1)); simpl; [|reflexivity].
  rewrite (Hag r k), (Hag r r), (Hag k k) by lia. reflexivity.
Qed.

(** The output of [correlation_to_cov] depends on [corr] only through its
    entries strictly above the diagonal. *)
Lemma correlation_to_cov_reads_upper (std : array1 T) (c1 c2 : array2 T) :
  len1 std <= nrows c1 -> len1 std <= ncols c1 ->
  len1 std <= nrows c2 -> len1 std <= ncols c2 ->
  agree_above (len1 std) c1 c2 ->
  exists rows,
    to_rows_result (correlation_to_cov std c1) = Ok rows
    /\ to_rows_result (correlation_to_cov std c2) = Ok rows.
Proof.
  intros Hr1 Hc1 Hr2 Hc2 Hag.
  destruct (correlation_to_cov_spec std c1 Hr1 Hc1) as (m1 & E1 & Hn1 & Hm1 & Hg1).
  destruct (correlation_to_cov_spec std c2 Hr2 Hc2) as (m2 & E2 & Hn2 & Hm2 & Hg2).
  exists (to_rows m1). rewrite E1, E2. simpl. split; [reflexivity|].
  f_equal. apply to_rows_ext; try congruence.
  intros r k _ _. rewrite Hg1, Hg2.
  rewrite !(cov_upper_agree std c1 c2 Hag). reflexivity.
Qed.

(** The output of [cov_to_correlation] depends on [cov] only through its
    entries on and above the diagonal. *)
Lemma cov_to_correlation_reads_upper (c1 c2 : array2 T) :
  nrows c1 <= ncols c1 -> nrows c2 <= ncols c2 ->
  nrows c1 = nrows c2 ->
  agree_on_above (nrows c1) c1 c2 ->
  exists rows,
    to_rows_result (cov_to_correlation c1) = Ok rows
    /\ to_rows_result (cov_to_correlation c2) = Ok rows.
Proof.
  intros Hc1 Hc2 Hn Hag.
  destruct (cov_to_correlation_spec c1 Hc1) as (m1 & E1 & Hn1 & Hm1 & Hg1).
  destruct (cov_to_correlation_spec c2 Hc2) as (m2 & E2 & Hn2 & Hm2 & Hg2).
  exists (to_rows m1). rewrite E1, E2. simpl. split; [reflexivity|].
  f_equal. apply to_rows_ext; try congruence.
  intros r k _ _. rewrite Hg1, Hg2.
  rewrite !(corr_upper_agree c1 c2 Hn Hag). reflexivity.
Qed.

(** An element access outside [corr] ends [correlation_to_cov] with the
    [IndexError] of that access. *)
Lemma correlation_to_cov_IndexError (std : array1 T) (corr : array2 T) :
  2 <= len1 std ->
  ncols corr < len1 std \/ nrows corr + 1 < len1 std ->
  correlation_to_cov std corr = Raise IndexError.
Proof.
  intros Hn Hsmall. unfold correlation_to_cov.
  set (n := len1 std) in *.
  set (inner := fun (i j : nat) (c : array2 T) =>
                  c0 <- item2 corr i j ;;
                  si <- item1 std i ;;
                  sj <- item1 std j ;;
                  setitem2 c i j (mul (mul c0 si) sj)).
  set (shaped := fun (_ : nat) (c : array2 T) => nrows c = n /\ ncols c = n).
  assert (Hinner_ok : forall i j c, i < nrows corr -> j < ncols corr ->
                                    i < j < n -> shaped j c ->
                                    exists c', inner i j c = Ok c' /\ shaped (S j) c').
  { intros i j c Hi Hj Hij [Hrc Hcc]. unfold inner.
    rewrite item2_Ok by assumption. simpl.
    rewrite !item1_Ok by (fold n; lia). simpl.
    rewrite setitem2_Ok by lia. eexists. split; [reflexivity|].
    split; simpl; assumption. }
  assert (Hinner_bad : forall i j c, nrows corr <= i \/ ncols corr <= j ->
                                     inner i j c = Raise IndexError).
  { intros i j c Hij. unfold inner. rewrite item2_IndexError by assumption.
    reflexivity. }
  (* the first row whose inner loop meets an access out of range *)
  set (i0 := if ncols corr <? n then 0 else nrows corr).
  assert (Hi0 : i0 < n - 1).
  { unfold i0. destruct (Nat.ltb_spec (ncols corr) n); lia. }
  erewrite (for_range_raise shaped _ IndexError 0 n _ i0); [reflexivity | lia | | |].
  - split; reflexivity.
  - intros i c Hi Hsh.
    assert (n <= ncols corr /\ i0 = nrows corr) as [Hge Ei0].
    { unfold i0 in *. destruct (Nat.ltb_spec (ncols corr) n); lia. }
    destruct (for_range_inv shaped (fun j c => inner i j c) (i + 1) n c)
      as (c' & E' & Hsh'); [lia | exact Hsh | | eauto].
    intros j c1 Hj Hsh1. apply Hinner_ok; try lia. exact Hsh1.
  - intros c Hsh.
    destruct (Nat.lt_ge_cases i0 (nrows corr)) as [Hlt|Hge].
    + (* the row exists: the inner loop runs out of columns *)
      assert (ncols corr < n /\ i0 = 0) as [Hc Ei0].
      { unfold i0 in *. destruct (Nat.ltb_spec (ncols corr) n); lia. }
      apply (for_range_raise shaped (fun j c => inner i0 j c) IndexError
               (i0 + 1) n c (Nat.max (i0 + 1) (ncols corr))); try lia; try exact Hsh.
      * intros j c1 Hj Hsh1. apply Hinner_ok; try lia. exact Hsh1.
      * intros c1 _. apply Hinner_bad. lia.
    + apply for_range_raise_first; [lia|].
      apply Hinner_bad. lia.
Qed.

(** An element access outside [cov] ends [cov_to_correlation] with the
    [IndexError] of that access. *)
Lemma cov_to_correlation_IndexError (cov : array2 T) :
  2 <= nrows cov -> ncols cov < nrows cov ->
  cov_to_correlation cov = Raise IndexError.
Proof.
  intros Hn Hlt. unfold cov_to_correlation.
  set (n := nrows cov) in *.
  set (inner := fun (i j : nat) (c : array2 T) =>
                  cij <- item2 cov i j ;;
                  cii <- item2 cov i i ;;
                  cjj <- item2 cov j j ;;
                  setitem2 c i j (div cij (sqrt_ (absv (mul cii cjj))))).
  set (shaped := fun (_ : nat) (c : array2 T) => nrows c = n /\ ncols c = n).
  erewrite (for_range_raise_first _ 0 n _ IndexError); [reflexivity | lia |].
  apply (for_range_raise shaped (fun j c => inner 0 j c) IndexError
           (0 + 1) n _ (Nat.max 1 (ncols cov))); try lia.
  - split; reflexivity.
  - intros j c Hj [Hrc Hcc]. unfold inner.
    rewrite !item2_Ok by (fold n; lia). simpl.
    rewrite setitem2_Ok by lia. eexists. split; [reflexivity|].
    split; simpl; assumption.
  - intros c _. unfold inner. rewrite item2_IndexError by lia. reflexivity.
Qed.

End ConverterGeneric.

(** ** Claims about the CorrelationConverter *)

(** C6, as the code behaves.  In exact arithmetic
    [correlation_to_cov std corr] returns the matrix with
    [cov[i,i] = std[i]^2] and [cov[i,j] = corr[i,j] * std[i] * std[j]]
    above the diagonal, its mirror image below (so the same formula for all
    [i <> j] when [corr] is symmetric, as a correlation matrix is), and the
    result is exactly symmetric for every size.  In binary64 the result is
    exactly symmetric as well, the two mirrored entries being the same
    float; there the mirroring step leaves [(s + s) - s] on the diagonal,
    with [s = std[i] * std[i]], and [(u + 0) - 0] off the diagonal, with
    [u = (corr[i,j] * std[i]) * std[j]], every operation rounded. *)
Theorem correlation_to_cov_formula_and_symmetry :
  (forall (std : array1 R) (corr : array2 R),
      len1 std <= nrows corr -> len1 std <= ncols corr ->
      exists cov,
        correlation_to_cov std corr = Ok cov
        /\ nrows cov = len1 std /\ ncols cov = len1 std
        /\ (forall i, i < len1 std -> get2 cov i i = (get1 std i * get1 std i)%R)
        /\ (forall i j, i < j < len1 std ->
                        get2 cov i j = (get2 corr i j * get1 std i * get1 std j)%R)
        /\ (symmetric2 corr ->
            forall i j, i < len1 std -> j < len1 std -> i <> j ->
                        get2 cov i j = (get2 corr i j * get1 std i * get1 std j)%R)
        /\ symmetric2 cov)
  /\ (forall (std : array1 float) (corr : array2 float),
         len1 std <= nrows corr -> len1 std <= ncols corr ->
         exists cov,
           correlation_to_cov std corr = Ok cov
           /\ nrows cov = len1 std /\ ncols cov = len1 std
           /\ symmetric2 cov
           /\ (forall i, i < len1 std ->
                 get2 cov i i
                 = (get1 std i * get1 std i + get1 std i * get1 std i
                    - get1 std i * get1 std i)%float)
           /\ (forall i j, i < j < len1 std ->
                 get2 cov i j
                 = (get2 corr i j * get1 std i * get1 std j + 0 - 0)%float)).
Proof.
  split.
  - intros std corr Hr Hc.
    destruct (correlation_to_cov_R std corr Hr Hc)
      as (cov & E & Hn & Hm & Hdiag & Hoff).
    exists cov. repeat split; try assumption.
    + intros i _. apply Hdiag.
    + intros i j Hij. apply (Hoff i j Hij).
    + intros Hsym i j Hi Hj Hne.
      destruct (Nat.lt_ge_cases i j) as [Hlt|Hge].
      * apply (Hoff i j). lia.
      * destruct (Hoff j i) as [_ ->]; [lia|].
        rewrite (Hsym j i) by lia. ring.
    + intros r k Hrn Hkn. rewrite Hn in Hrn. rewrite Hm in Hkn.
      destruct (Nat.lt_trichotomy r k) as [Hlt|[->|Hgt]].
      * destruct (Hoff r k) as [-> ->]; [lia | reflexivity].
      * reflexivity.
      * destruct (Hoff k r) as [-> ->]; [lia | reflexivity].
  - intros std corr Hr Hc.
    destruct (correlation_to_cov_spec std corr Hr Hc) as (cov & E & Hn & Hm & Hg).
    exists cov. split; [exact E|]. split; [exact Hn|]. split; [exact Hm|].
    split; [|split].
    + intros r k _ _.
      destruct (Nat.eq_dec r k) as [->|Hne]; [reflexivity|].
      rewrite !Hg.
      destruct (Nat.eqb_spec r k); [congruence|].
      destruct (Nat.eqb_spec k r); [congruence|].
      simpl. f_equal. apply float_add_comm.
    + intros i Hi. rewrite Hg, Nat.eqb_refl. unfold cov_upper.
      rewrite Nat.ltb_irrefl, Nat.eqb_refl. reflexivity.
    + intros i j Hij. rewrite Hg. unfold cov_upper.
      destruct (Nat.eqb_spec i j); [lia|].
      destruct (Nat.ltb_spec i j); [|lia].
      destruct (Nat.ltb_spec j (len1 std)); [|lia].
      destruct (Nat.ltb_spec j i); [lia|].
      destruct (Nat.eqb_spec j i); [lia|]. reflexivity.
Qed.

(** C6 as stated fails in binary64: for [std = [1e154]] the square
    [std[0]^2] is the finite number 1e308, but the mirroring step doubles it
    before subtracting it again, and the entry returned is infinite. *)
Lemma diagonal_is_not_the_square :
  to_rows_result (correlation_to_cov (of_list [1e154]%float)
                                     (of_rows [[1]]%float))
  = Ok [[infinity]]
  /\ PrimFloat.mul 1e154 1e154 = 1e308%float
  /\ PrimFloat.ltb 1e308 infinity = true.
Proof. repeat split; vm_compute; reflexivity. Qed.


Lemma correlation_to_cov_formula_and_symmetry_witness :
  exists cov,
    correlation_to_cov std_1_2 corr_half = Ok cov
    /\ nrows cov = 2 /\ ncols cov = 2
    /\ (forall i, i < 2 -> get2 cov i i = (get1 std_1_2 i * get1 std_1_2 i)%R)
    /\ (forall i j, i < j < 2 ->
                    get2 cov i j
                    = (get2 corr_half i j * get1 std_1_2 i * get1 std_1_2 j)%R)
    /\ (symmetric2 corr_half ->
        forall i j, i < 2 -> j < 2 -> i <> j ->
                    get2 cov i j
                    = (get2 corr_half i j * get1 std_1_2 i * get1 std_1_2 j)%R)
    /\ symmetric2 cov.
Proof.
  apply (proj1 correlation_to_cov_formula_and_symmetry std_1_2 corr_half);
    simpl; lia.
Defined.

(** C7, as the code behaves.  [cov_to_correlation cov] never raises on an
    input with at least as many columns as rows, a square one in
    particular; its diagonal is exactly 1 (also as a binary64 value), in
    exact arithmetic its entries above the diagonal are
    [cov[i,j] / sqrt |cov[i,i] * cov[j,j]|], and the entries below mirror
    them (so the same formula holds at every off-diagonal position of a
    symmetric [cov]).  Nothing is required of the signs of the diagonal of
    [cov].  On an input with fewer columns than rows, and at least two rows,
    it ends with an [IndexError], in every arithmetic. *)
Theorem cov_to_correlation_formula_no_error :
  (forall cov : array2 R,
      nrows cov <= ncols cov ->
      exists corr,
        cov_to_correlation cov = Ok corr
        /\ nrows corr = nrows cov /\ ncols corr = nrows cov
        /\ (forall i, i < nrows cov -> get2 corr i i = 1%R)
        /\ (forall i j, i < j < nrows cov ->
                        get2 corr i j
                        = (get2 cov i j / sqrt (Rabs (get2 cov i i * get2 cov j j)))%R)
        /\ (forall i j, i < j < nrows cov -> get2 corr j i = get2 corr i j)
        /\ (symmetric2 cov ->
            forall i j, i < nrows cov -> j < nrows cov -> i <> j ->
                        get2 corr i j
                        = (get2 cov i j / sqrt (Rabs (get2 cov i i * get2 cov j j)))%R))
  /\ (forall cov : array2 float,
         nrows cov <= ncols cov ->
         exists corr,
           cov_to_correlation cov = Ok corr
           /\ nrows corr = nrows cov /\ ncols corr = nrows cov
           /\ forall i, i < nrows cov -> get2 corr i i = 1%float)
  /\ (forall (T : Type) (HN : Num T) (cov : array2 T),
         2 <= nrows cov -> ncols cov < nrows cov ->
         cov_to_correlation cov = Raise IndexError).
Proof.
  split; [|split].
  - intros cov Hsq.
    destruct (cov_to_correlation_R cov) as (corr & E & Hn & Hm & Hdiag & Hoff);
      [lia|].
    exists corr. repeat split; try assumption.
    + intros i _. apply Hdiag.
    + intros i j Hij. apply (Hoff i j Hij).
    + intros i j Hij. destruct (Hoff i j Hij) as [-> ->]. reflexivity.
    + intros Hsym i j Hi Hj Hne.
      destruct (Nat.lt_ge_cases i j) as [Hlt|Hge].
      * apply (Hoff i j). lia.
      * destruct (Hoff j i) as [_ ->]; [lia|].
        rewrite (Hsym j i) by lia.
        rewrite (Rmult_comm (get2 cov j j)). reflexivity.
  - intros cov Hsq.
    destruct (cov_to_correlation_spec cov) as (corr & E & Hn & Hm & Hg); [lia|].
    exists corr. repeat split; try assumption.
    intros i _. rewrite Hg, Nat.eqb_refl. unfold corr_upper.
    rewrite Nat.ltb_irrefl, Nat.eqb_refl. reflexivity.
  - intros T HN cov. apply cov_to_correlation_IndexError.
Qed.

(** C7 as stated fails: the operation does signal an error on some inputs.
    A covariance array with three rows and two columns ends it with the
    [IndexError] of the first read outside the array. *)
Lemma tall_input_raises_IndexError :
  nrows (of_rows [[4; 2]; [2; 9]; [1; 3]]%float) = 3
  /\ ncols (of_rows [[4; 2]; [2; 9]; [1; 3]]%float) = 2
  /\ cov_to_correlation (of_rows [[4; 2]; [2; 9]; [1; 3]]%float)
     = Raise IndexError.
Proof. repeat split; vm_compute; reflexivity. Qed.

Lemma cov_to_correlation_formula_no_error_witness :
  exists corr,
    cov_to_correlation cov_neg_diag = Ok corr
    /\ nrows corr = 2 /\ ncols corr = 2
    /\ (forall i, i < 2 -> get2 corr i i = 1%R)
    /\ (forall i j, i < j < 2 ->
                    get2 corr i j
                    = (get2 cov_neg_diag i j
                       / sqrt (Rabs (get2 cov_neg_diag i i * get2 cov_neg_diag j j)))%R)
    /\ (forall i j, i < j < 2 -> get2 corr j i = get2 corr i j)
    /\ (symmetric2 cov_neg_diag ->
        forall i j, i < 2 -> j < 2 -> i <> j ->
                    get2 corr i j
                    = (get2 cov_neg_diag i j
                       / sqrt (Rabs (get2 cov_neg_diag i i * get2 cov_neg_diag j j)))%R).
Proof.
  apply (proj1 cov_to_correlation_formula_no_error cov_neg_diag).
  simpl. lia.
Defined.

(** C10.  Both converters read only the upper triangle of their matrix
    argument: [correlation_to_cov std] gives identical outputs on any two
    [corr] that agree strictly above the diagonal, and [cov_to_correlation]
    gives identical outputs on any two [cov] that agree on and above the
    diagonal.  This holds for every arithmetic, binary64 included. *)
Theorem converters_read_upper_triangle_only :
  forall (T : Type) (HN : Num T),
    (forall (std : array1 T) (c1 c2 : array2 T),
        nrows c1 = len1 std -> ncols c1 = len1 std ->
        nrows c2 = len1 std -> ncols c2 = len1 std ->
        agree_above (len1 std) c1 c2 ->
        exists rows,
          to_rows_result (correlation_to_cov std c1) = Ok rows
          /\ to_rows_result (correlation_to_cov std c2) = Ok rows)
    /\ (forall c1 c2 : array2 T,
           nrows c1 = ncols c1 -> nrows c2 = ncols c2 -> nrows c1 = nrows c2 ->
           agree_on_above (nrows c1) c1 c2 ->
           exists rows,
             to_rows_result (cov_to_correlation c1) = Ok rows
             /\ to_rows_result (cov_to_correlation c2) = Ok rows).
Proof.
  intros T HN. split.
  - intros std c1 c2 Hr1 Hc1 Hr2 Hc2 Hag.
    apply correlation_to_cov_reads_upper; try assumption; lia.
  - intros c1 c2 Hs1 Hs2 Hn Hag.
    apply cov_to_correlation_reads_upper; try assumption; lia.
Qed.


Lemma corr_f1_f2_agree_above : agree_above 3 corr_f1 corr_f2.
Proof.
  intros r k Hrk.
  destruct r as [|[|r]], k as [|[|[|k]]]; try lia; reflexivity.
Qed.

Lemma converters_read_upper_triangle_only_witness :
  exists rows,
    to_rows_result (correlation_to_cov std_f corr_f1) = Ok rows
    /\ to_rows_result (correlation_to_cov std_f corr_f2) = Ok rows.
Proof.
  apply (proj1 (converters_read_upper_triangle_only float float_Num)
               std_f corr_f1 corr_f2);
    try reflexivity.
  exact corr_f1_f2_agree_above.
Defined.

(** C9, as the code behaves.  [correlation_to_cov] does not compare the
    length of [std] with the shape of [corr].  When [corr] has at least
    [len(std)] rows and columns the call succeeds and returns what it returns
    on the leading [len(std)] x [len(std)] block: the surplus rows and
    columns are ignored without notice.  When [corr] is too small the call
    ends with the [IndexError] of the first element access out of range. *)
Theorem correlation_to_cov_shape_mismatch :
  forall (T : Type) (HN : Num T),
    (forall (std : array1 T) (corr : array2 T),
        len1 std <= nrows corr -> len1 std <= ncols corr ->
        exists rows,
          to_rows_result (correlation_to_cov std corr) = Ok rows
          /\ to_rows_result
               (correlation_to_cov std (leading_block (len1 std) corr)) = Ok rows)
    /\ (forall (std : array1 T) (corr : array2 T),
           2 <= len1 std ->
           ncols corr < len1 std \/ nrows corr + 1 < len1 std ->
           correlation_to_cov std corr = Raise IndexError).
Proof.
  intros T HN. split.
  - intros std corr Hr Hc.
    apply correlation_to_cov_reads_upper; simpl; try assumption; try lia.
    intros r k _. reflexivity.
  - intros std corr. apply correlation_to_cov_IndexError.
Qed.


Lemma correlation_to_cov_shape_mismatch_witness :
  exists rows,
    to_rows_result (correlation_to_cov std_two corr_three) = Ok rows
    /\ to_rows_result
         (correlation_to_cov std_two (leading_block (len1 std_two) corr_three))
       = Ok rows.
Proof.
  apply (proj1 (correlation_to_cov_shape_mismatch float float_Num)
               std_two corr_three);
    simpl; lia.
Defined.

(** C9 as stated fails: a length-2 [std] with a 3 x 3 [corr] is accepted, and
    the answer is the one for the leading 2 x 2 block. *)
Lemma shape_mismatch_is_not_rejected :
  len1 std_two = 2 /\ nrows corr_three = 3 /\ ncols corr_three = 3
  /\ to_rows_result (correlation_to_cov std_two corr_three)
     = Ok [[1; 1]; [1; 4]]%float.
Proof. repeat split; vm_compute; reflexivity. Qed.






(** ** The rank-matching step *)

Lemma for_loop_inv_partial {S} (I : nat -> S -> Prop) (body : nat -> S -> result S) :
  forall count lo s s',
    I lo s ->
    (forall i s0 s1, lo <= i < lo + count -> I i s0 -> body i s0 = Ok s1 ->
                     I (Datatypes.S i) s1) ->
    for_loop count lo body s = Ok s' ->
    I (lo + count) s'.
Proof.
  induction count as [|count IH]; intros lo s s' H0 Hstep E; simpl in E.
  - inversion E; subst. rewrite Nat.add_0_r. assumption.
  - destruct (body lo s) as [s1|e] eqn:E1; simpl in E; [|discriminate].
    replace (lo + Datatypes.S count) with (Datatypes.S lo + count) by lia.
    apply (IH (Datatypes.S lo) s1 s'); try assumption.
    + apply (Hstep lo s s1); [lia | assumption | assumption].
    + intros i s0 s2 Hi. apply Hstep. lia.
Qed.

Lemma for_range_inv_partial {S} (I : nat -> S -> Prop) (body : nat -> S -> result S)
      lo hi s s' :
  lo <= hi ->
  I lo s ->
  (forall i s0 s1, lo <= i < hi -> I i s0 -> body i s0 = Ok s1 ->
                   I (Datatypes.S i) s1) ->
  for_range lo hi body s = Ok s' ->
  I hi s'.
Proof.
  intros Hle H0 Hstep E. unfold for_range in E.
  replace hi with (lo + (hi - lo)) by lia.
  apply (for_loop_inv_partial I body (hi - lo) lo s s'); try assumption.
  intros i s0 s1 Hi. apply Hstep. lia.
Qed.

Lemma bind_Ok_inv {A B} (m : result A) (k : A -> result B) b :
  bind m k = Ok b -> exists a, m = Ok a /\ k a = Ok b.
Proof.
  destruct m as [a|e]; simpl; intros E; [|discriminate].
  exists a. auto.
Qed.

Lemma map_nth_seq {A} (l : list A) (d : A) :
  map (fun k => nth k l d) (seq 0 (length l)) = l.
Proof.
  induction l as [|x l IH]; simpl; [reflexivity|].
  f_equal. rewrite <- seq_shift, map_map. exact IH.
Qed.

Lemma insert_by_perm {A} (lt : A -> A -> bool) x l :
  Permutation (insert_by lt x l) (x :: l).
Proof.
  induction l as [|y l IH]; simpl; [reflexivity|].
  destruct (lt y x).
  - rewrite IH. apply perm_swap.
  - reflexivity.
Qed.

Lemma sort_by_perm {A} (lt : A -> A -> bool) l :
  Permutation (sort_by lt l) l.
Proof.
  induction l as [|x l IH]; simpl; [reflexivity|].
  rewrite insert_by_perm. constructor. exact IH.
Qed.

Lemma sort_by_length {A} (lt : A -> A -> bool) l :
  length (sort_by lt l) = length l.
Proof. apply Permutation_length, sort_by_perm. Qed.

Section RankMatching.
Context {T : Type} {num : Num T}.

Lemma to_list_of_list (l : list T) : to_list (of_list l) = l.
Proof. unfold to_list, of_list. simpl. apply map_nth_seq. Qed.

Lemma to_list_length (v : array1 T) : length (to_list v) = len1 v.
Proof. unfold to_list. rewrite length_map, length_seq. reflexivity. Qed.

Lemma np_sort_perm (v : array1 T) : Permutation (to_list (np_sort v)) (to_list v).
Proof. unfold np_sort. rewrite to_list_of_list. apply sort_by_perm. Qed.

Lemma np_sort_len (v : array1 T) : len1 (np_sort v) = len1 v.
Proof.
  unfold np_sort. simpl. rewrite sort_by_length. apply to_list_length.
Qed.

(** [np.argsort] returns a rearrangement of the positions. *)
Lemma np_argsort_perm (v : array1 T) :
  len1 (np_argsort v) = len1 v
  /\ Permutation (map (get1 (np_argsort v)) (seq 0 (len1 v))) (seq 0 (len1 v)).
Proof.
  unfold np_argsort. simpl.
  set (idx := sort_by _ _).
  assert (Hlen : length idx = len1 v).
  { unfold idx. rewrite sort_by_length, length_seq. reflexivity. }
  split; [exact Hlen|].
  rewrite <- Hlen at 1. rewrite map_nth_seq. apply sort_by_perm.
Qed.

Lemma perm_seq_bound (l : list nat) m x :
  Permutation l (seq 0 m) -> In x l -> x < m.
Proof.
  intros Hp Hin. apply (Permutation_in _ Hp) in Hin.
  apply in_seq in Hin. lia.
Qed.

Lemma perm_seq_inj (r : nat -> nat) m :
  Permutation (map r (seq 0 m)) (seq 0 m) ->
  (forall k, k < m -> r k < m)
  /\ (forall k k', k < m -> k' < m -> r k = r k' -> k = k').
Proof.
  intros Hp. split.
  - intros k Hk. apply (perm_seq_bound (map r (seq 0 m)) m); [assumption|].
    apply in_map, in_seq. lia.
  - assert (Hnd : NoDup (map r (seq 0 m))).
    { apply (Permutation_NoDup (Permutation_sym Hp)), seq_NoDup. }
    intros k k' Hk Hk' E.
    assert (Hinj : forall l, NoDup (map r l) ->
                             forall a b, In a l -> In b l -> r a = r b -> a = b).
    { induction l as [|x l IH]; simpl; intros Hn a b Ha Hb Eab; [contradiction|].
      inversion Hn as [|? ? Hx Hn']; subst.
      destruct Ha as [->|Ha], Hb as [->|Hb]; try reflexivity.
      - exfalso. apply Hx. rewrite Eab. apply in_map. assumption.
      - exfalso. apply Hx. rewrite <- Eab. apply in_map. assumption.
      - apply IH; assumption. }
    apply (Hinj (seq 0 m) Hnd); try assumption; apply in_seq; lia.
Qed.

(** [rank[r] = range(m)] inverts a rearrangement [r] of the positions. *)
Lemma scatter_range_spec (r : array1 nat) m :
  len1 r = m ->
  Permutation (map (get1 r) (seq 0 m)) (seq 0 m) ->
  exists rank,
    scatter_range r m = Ok rank
    /\ len1 rank = m
    /\ (forall k, k < m -> get1 rank (get1 r k) = k)
    /\ (forall i, i < m -> get1 rank i < m).
Proof.
  intros Hlen Hp. destruct (perm_seq_inj (get1 r) m Hp) as [Hb Hinj].
  unfold scatter_range. rewrite Hlen, Nat.eqb_refl.
  pose (I := fun (k : nat) (rank : array1 nat) =>
               len1 rank = m
               /\ (forall k', k' < k -> get1 rank (get1 r k') = k')
               /\ (forall i, i < m -> get1 rank i < m \/ (k = 0 /\ get1 rank i = 0))).
  destruct (for_range_inv I
              (fun k rank =>
                 if get1 r k <? len1 rank
                 then Ok (Arr1 (len1 rank)
                            (fun i => if i =? get1 r k then k else get1 rank i))
                 else Raise IndexError)
              0 m (Arr1 m (fun _ => 0))) as (rank & E & Hl & Hinv & Hbound).
  - lia.
  - unfold I. simpl. repeat split; lia.
  - intros k rank Hk (Hl & Hinv & Hbound).
    rewrite Hl. destruct (Nat.ltb_spec (get1 r k) m) as [_|Hge];
      [|specialize (Hb k ltac:(lia)); lia].
    eexists. split; [reflexivity|]. unfold I. simpl. split; [reflexivity|split].
    + intros k' Hk'.
      destruct (Nat.eqb_spec (get1 r k') (get1 r k)) as [Eq|Hne].
      * apply Hinj in Eq; lia.
      * assert (k' <> k) by (intros ->; apply Hne; reflexivity).
        apply Hinv. lia.
    + intros i Hi. left.
      destruct (Nat.eqb_spec i (get1 r k)); [lia|].
      destruct (Hbound i Hi) as [Hlt|[_ ->]]; lia.
  - exists rank. split; [exact E|]. repeat split; try assumption.
    intros i Hi. destruct (Hbound i Hi) as [Hlt|[-> _]]; [assumption | lia].
Qed.

Lemma scatter_range_Ok_len (r rank : array1 nat) m :
  scatter_range r m = Ok rank -> len1 r = m.
Proof.
  unfold scatter_range. destruct (Nat.eqb_spec (len1 r) m); [auto | discriminate].
Qed.

Lemma take_Ok (rs : array1 T) (rank : array1 nat) :
  (forall i, i < len1 rank -> get1 rank i < len1 rs) ->
  take rs rank = Ok (Arr1 (len1 rank) (fun i => get1 rs (get1 rank i))).
Proof.
  intros Hb. unfold take.
  replace (forallb _ _) with true; [reflexivity|].
  symmetry. apply forallb_forall. intros i Hi. apply in_seq in Hi.
  apply Nat.ltb_lt, Hb. lia.
Qed.

(** Reading a list through the inverse of a rearrangement of its positions
    rearranges the list. *)
Lemma take_inverse_perm (rs : array1 T) (r rank : array1 nat) m :
  len1 rs = m ->
  Permutation (map (get1 r) (seq 0 m)) (seq 0 m) ->
  (forall k, k < m -> get1 rank (get1 r k) = k) ->
  Permutation (map (fun i => get1 rs (get1 rank i)) (seq 0 m)) (to_list rs).
Proof.
  intros Hlen Hp Hinv.
  rewrite <- (Permutation_map (fun i => get1 rs (get1 rank i)) Hp).
  rewrite map_map. unfold to_list. rewrite Hlen.
  rewrite (map_ext_in _ (get1 rs)); [reflexivity|].
  intros k Hk. apply in_seq in Hk. rewrite Hinv by lia. reflexivity.
Qed.

End RankMatching.

Section RankMatch.
Context {T : Type} {num : Num T}.
Variables (num_samples : nat) (samples dependent_samples : array2 T).
Variables (mean_values std_dev : array1 T).


Lemma getcol_Ok_inv (a : array2 T) j v :
  getcol a j = Ok v -> j < ncols a /\ v = Arr1 (nrows a) (fun r => get2 a r j).
Proof.
  unfold getcol. destruct (Nat.ltb_spec j (ncols a)); intros E; [|discriminate].
  inversion E. auto.
Qed.

Lemma item1_Ok_inv (v : array1 T) i x :
  item1 v i = Ok x -> i < len1 v /\ x = get1 v i.
Proof.
  unfold item1. destruct (Nat.ltb_spec i (len1 v)); intros E; [|discriminate].
  inversion E. auto.
Qed.

Lemma setcol_Ok_inv (a : array2 T) j v a' :
  setcol a j v = Ok a' ->
  j < ncols a /\ len1 v = nrows a
  /\ a' = Arr2 (nrows a) (ncols a)
            (fun r c => if c =? j then get1 v r else get2 a r c).
Proof.
  unfold setcol. destruct (Nat.ltb_spec j (ncols a)); [|discriminate].
  destruct (Nat.eqb_spec (len1 v) (nrows a)); intros E; [|discriminate].
  inversion E. auto.
Qed.

Lemma take_Ok_inv (rs : array1 T) (rank : array1 nat) v :
  take rs rank = Ok v ->
  v = Arr1 (len1 rank) (fun i => get1 rs (get1 rank i)).
Proof.
  unfold take. destruct (forallb _ _); intros E; [|discriminate].
  inversion E. reflexivity.
Qed.

(** A column that is written holds a rearrangement of the corresponding
    column of [samples], scaled and shifted; the other columns are kept. *)
Lemma rank_match_column_spec j z z1 :
  nrows z = nrows samples ->
  (rank_match_column num_samples samples dependent_samples mean_values std_dev) j z = Ok z1 ->
  nrows z1 = nrows z /\ ncols z1 = ncols z
  /\ (forall r c, c <> j -> get2 z1 r c = get2 z r c)
  /\ Permutation (column z1 j) (map (scale_shift mean_values std_dev j) (column samples j)).
Proof.
  intros Hz E. unfold rank_match_column in E.
  apply bind_Ok_inv in E. destruct E as (dj & Edj & E).
  apply bind_Ok_inv in E. destruct E as (rank & Erank & E).
  apply bind_Ok_inv in E. destruct E as (sj & Esj & E).
  apply bind_Ok_inv in E. destruct E as (rsr & Ersr & E).
  apply bind_Ok_inv in E. destruct E as (sd & Esd & E).
  apply bind_Ok_inv in E. destruct E as (mu & Emu & E).
  apply getcol_Ok_inv in Edj. destruct Edj as [Hjd Edj].
  apply getcol_Ok_inv in Esj. destruct Esj as [Hjs Esj].
  apply item1_Ok_inv in Esd. destruct Esd as [_ ->].
  apply item1_Ok_inv in Emu. destruct Emu as [_ ->].
  apply take_Ok_inv in Ersr.
  apply setcol_Ok_inv in E. destruct E as (Hjz & Hlen & ->).
  simpl. repeat split.
  - intros r c Hc. destruct (Nat.eqb_spec c j); [contradiction | reflexivity].
  - pose proof (scatter_range_Ok_len _ _ _ Erank) as Hr.
    destruct (np_argsort_perm dj) as [Hal Hap].
    rewrite Hal in Hr.
    destruct (scatter_range_spec (np_argsort dj) num_samples) as (rank' & E' & Hl' & Hinv & _).
    { congruence. }
    { rewrite <- Hr. exact Hap. }
    rewrite E' in Erank. inversion Erank; subst rank'. clear Erank E'.
    subst rsr. simpl in Hlen. rewrite Hl' in Hlen.
    unfold column. simpl. rewrite Nat.eqb_refl.
    rewrite <- Hlen.
    rewrite (map_ext _ (fun i => scale_shift mean_values std_dev j
                                   (get1 (np_sort sj) (get1 rank i))))
      by (intros i; reflexivity).
    rewrite <- (map_map (fun i => get1 (np_sort sj) (get1 rank i)) (scale_shift mean_values std_dev j)).
    apply Permutation_map.
    rewrite (take_inverse_perm (np_sort sj) (np_argsort dj) rank num_samples).
    + rewrite np_sort_perm. subst sj. unfold to_list. simpl. reflexivity.
    + rewrite np_sort_len. subst sj. simpl. congruence.
    + rewrite <- Hr. exact Hap.
    + exact Hinv.
Qed.

(** With consistent shapes a column is always written. *)
Lemma rank_match_column_total j z :
  nrows dependent_samples = num_samples -> nrows samples = num_samples ->
  nrows z = num_samples ->
  j < ncols dependent_samples -> j < ncols samples -> j < ncols z ->
  j < len1 std_dev -> j < len1 mean_values ->
  exists z1, (rank_match_column num_samples samples dependent_samples mean_values std_dev) j z = Ok z1.
Proof.
  intros Hd Hs Hz Hjd Hjs Hjz Hsd Hmu. unfold rank_match_column.
  unfold getcol.
  destruct (Nat.ltb_spec j (ncols dependent_samples)); [|lia].
  destruct (Nat.ltb_spec j (ncols samples)); [|lia]. simpl.
  set (dj := Arr1 (nrows dependent_samples) (fun r => get2 dependent_samples r j)).
  set (sj := Arr1 (nrows samples) (fun r => get2 samples r j)).
  destruct (np_argsort_perm dj) as [Hal Hap].
  destruct (scatter_range_spec (np_argsort dj) num_samples)
    as (rank & E & Hl & Hinv & Hb).
  { rewrite Hal. exact Hd. }
  { replace num_samples with (len1 dj) by exact Hd. exact Hap. }
  rewrite E. simpl.
  rewrite take_Ok.
  2:{ intros i Hi. rewrite np_sort_len. simpl. rewrite Hs. apply Hb. lia. }
  simpl. rewrite !item1_Ok by assumption. simpl.
  unfold setcol. destruct (Nat.ltb_spec j (ncols z)); [|lia]. simpl.
  rewrite Hl, Hz, Nat.eqb_refl. eexists. reflexivity.
Qed.

Lemma rank_match_eq num_vars z :
  rank_match num_vars num_samples samples dependent_samples mean_values std_dev z
  = for_range 0 num_vars (rank_match_column num_samples samples dependent_samples mean_values std_dev) z.
Proof. reflexivity. Qed.

Lemma column_ext (a b : array2 T) j :
  nrows a = nrows b -> (forall r, get2 a r j = get2 b r j) ->
  column a j = column b j.
Proof.
  intros Hn Hg. unfold column. rewrite Hn. apply map_ext. exact Hg.
Qed.

(** Whenever the rank-matching loop returns, each of its columns is a
    rearrangement of the scaled and shifted column of [samples]. *)
Lemma rank_match_partial num_vars z0 z :
  nrows z0 = nrows samples ->
  rank_match num_vars num_samples samples dependent_samples mean_values std_dev z0
  = Ok z ->
  nrows z = nrows z0 /\ ncols z = ncols z0
  /\ forall j, j < num_vars ->
               Permutation (column z j) (map (scale_shift mean_values std_dev j) (column samples j)).
Proof.
  intros Hz0 E. rewrite rank_match_eq in E.
  pose (I := fun (j : nat) (z : array2 T) =>
               nrows z = nrows z0 /\ ncols z = ncols z0
               /\ forall j', j' < j ->
                    Permutation (column z j')
                                (map (scale_shift mean_values std_dev j') (column samples j'))).
  apply (for_range_inv_partial I (rank_match_column num_samples samples dependent_samples mean_values std_dev) 0 num_vars z0 z); try assumption.
  - lia.
  - unfold I. repeat split. intros j' Hj'. lia.
  - intros j z1 z2 Hj (Hr1 & Hc1 & Hp1) E1.
    destruct (rank_match_column_spec j z1 z2) as (Hr2 & Hc2 & Hkeep & Hperm);
      [congruence | assumption |].
    unfold I. repeat split; try congruence.
    intros j' Hj'. destruct (Nat.eq_dec j' j) as [->|Hne]; [exact Hperm|].
    rewrite (column_ext z2 z1 j'); [apply Hp1; lia | assumption |].
    intros r. apply Hkeep. assumption.
Qed.

(** With consistent shapes the rank-matching loop returns. *)
Lemma rank_match_total num_vars z0 :
  nrows dependent_samples = num_samples -> nrows samples = num_samples ->
  nrows z0 = num_samples ->
  num_vars <= ncols dependent_samples -> num_vars <= ncols samples ->
  num_vars <= ncols z0 ->
  num_vars <= len1 std_dev -> num_vars <= len1 mean_values ->
  exists z,
    rank_match num_vars num_samples samples dependent_samples mean_values std_dev z0
    = Ok z.
Proof.
  intros Hd Hs Hz Hvd Hvs Hvz Hsd Hmu. rewrite rank_match_eq.
  pose (I := fun (_ : nat) (z : array2 T) =>
               nrows z = nrows z0 /\ ncols z = ncols z0).
  destruct (for_range_inv I (rank_match_column num_samples samples dependent_samples mean_values std_dev) 0 num_vars z0) as (z & E & _).
  - lia.
  - unfold I. auto.
  - intros j z1 Hj [Hr1 Hc1].
    destruct (rank_match_column_total j z1) as (z2 & E2); try lia.
    exists z2. split; [exact E2|].
    destruct (rank_match_column_spec j z1 z2) as (Hr2 & Hc2 & _); try congruence.
    unfold I. split; congruence.
  - exists z. exact E.
Qed.

End RankMatch.

(** ** Claims about the stratified composition *)

Section Composer.
Context {T : Type} {num : Num T} {lib : Library T}.

(** The body of [lhs_normal_sample_corr] with its one-iteration loop
    unrolled. *)
Lemma lhs_normal_sample_corr_unrolled (mean_values std_dev : array1 T)
      (desired_corr : array2 T) (num_samples : nat) :
  lhs_normal_sample_corr mean_values std_dev desired_corr num_samples
  = (samples <- lhs_normal_sample num_samples (np_zeros1 (len1 mean_values))
                  (np_ones (len1 mean_values)) ;;
     dependent_samples <- dependent_samples_of samples desired_corr ;;
     '(z, ae) <- one_try (len1 mean_values) num_samples samples dependent_samples
                   mean_values std_dev desired_corr
                   (np_zeros2 (nrows samples) (ncols samples)) ;;
     if ltb ae lit_1_8e308
     then Ok z
     else Raise (Exception "Could not order samples"%string)).
Proof.
  unfold lhs_normal_sample_corr.
  destruct (lhs_normal_sample _ _ _) as [samples|e]; simpl; [|reflexivity].
  destruct (dependent_samples_of _ _) as [dep|e]; simpl; [|reflexivity].
  unfold retry_loop, for_range. simpl.
  destruct (one_try _ _ _ _ _ _ _ _) as [[z ae]|e]; simpl; [|reflexivity].
  unfold keep_or_raise. destruct (ltb ae lit_1_8e308); reflexivity.
Qed.

Lemma retry_loop_first_try ntry num_vars num_samples samples dependent_samples
      (mean_values std_dev : array1 T) desired_corr amin z0 z1 ae1 :
  one_try num_vars num_samples samples dependent_samples mean_values std_dev
          desired_corr z0 = Ok (z1, ae1) ->
  retry_loop (S ntry) num_vars num_samples samples dependent_samples
             mean_values std_dev desired_corr amin z0
  = (s <- keep_or_raise z1 ae1 amin ;;
     for_loop ntry 1
       (fun il '(z, zb, amin) =>
          '(z, ae) <- one_try num_vars num_samples samples dependent_samples
                        mean_values std_dev desired_corr z ;;
          keep_or_raise z ae amin) s).
Proof.
  intros E. unfold retry_loop, for_range. rewrite Nat.sub_0_r. simpl.
  rewrite E. reflexivity.
Qed.

End Composer.

(** In binary64 every score except infinity and NaN is below the initial
    bound [1.8e308]. *)
Lemma below_initial_bound (ae : float) :
  ltb ae lit_1_8e308 = true \/ ae = infinity \/ ae = nan.
Proof.
  simpl. rewrite ltb_spec.
  destruct (Prim2SF ae) as [s|s| |s m e] eqn:E.
  - left. destruct s; reflexivity.
  - destruct s.
    + left. reflexivity.
    + right. left. apply Prim2SF_inj. rewrite E. reflexivity.
  - right. right. apply Prim2SF_inj. rewrite E. reflexivity.
  - left. destruct s; reflexivity.
Qed.

(** C3.  Whenever [lhs_normal_sample_corr] returns, column [j] of its result
    holds exactly the values of column [j] of the stratified sample, each
    multiplied by [std_dev[j]] and shifted by [mean_values[j]], in some
    order; and with consistent shapes the rank-matching loop that builds the
    columns always returns.  No bound on the number of variables or samples
    is needed. *)
Theorem rank_matching_preserves_marginals :
  forall (T : Type) (HN : Num T) (L : Library T),
    (forall (mean_values std_dev : array1 T) (desired_corr : array2 T)
            (num_samples : nat) (zb : array2 T),
        lhs_normal_sample_corr mean_values std_dev desired_corr num_samples = Ok zb ->
        exists samples,
          lhs_normal_sample num_samples (np_zeros1 (len1 mean_values))
                            (np_ones (len1 mean_values)) = Ok samples
          /\ nrows zb = nrows samples /\ ncols zb = ncols samples
          /\ forall j, j < len1 mean_values ->
                       Permutation (column zb j)
                                   (map (scale_shift mean_values std_dev j)
                                        (column samples j)))
    /\ (forall (num_vars num_samples : nat) (samples dependent_samples : array2 T)
               (mean_values std_dev : array1 T) (z0 : array2 T),
           nrows dependent_samples = num_samples ->
           nrows samples = num_samples -> nrows z0 = num_samples ->
           num_vars <= ncols dependent_samples -> num_vars <= ncols samples ->
           num_vars <= ncols z0 ->
           num_vars <= len1 std_dev -> num_vars <= len1 mean_values ->
           exists z,
             rank_match num_vars num_samples samples dependent_samples
                        mean_values std_dev z0 = Ok z
             /\ forall j, j < num_vars ->
                          Permutation (column z j)
                                      (map (scale_shift mean_values std_dev j)
                                           (column samples j))).
Proof.
  intros T HN L. split.
  - intros mean_values std_dev desired_corr num_samples zb E.
    rewrite lhs_normal_sample_corr_unrolled in E.
    apply bind_Ok_inv in E. destruct E as (samples & Es & E).
    apply bind_Ok_inv in E. destruct E as (dep & Ed & E).
    apply bind_Ok_inv in E. destruct E as ([z ae] & Et & E).
    destruct (ltb ae lit_1_8e308); [|discriminate].
    inversion E; subst z. clear E.
    unfold one_try in Et.
    apply bind_Ok_inv in Et. destruct Et as (z & Ez & Et).
    apply bind_Ok_inv in Et. destruct Et as (c & _ & Et).
    apply bind_Ok_inv in Et. destruct Et as (ae' & _ & Et).
    inversion Et; subst z ae'. clear Et.
    exists samples. split; [exact Es|].
    destruct (rank_match_partial num_samples samples dep mean_values std_dev
                (len1 mean_values)
                (np_zeros2 (nrows samples) (ncols samples)) zb)
      as (Hr & Hc & Hp); [reflexivity | exact Ez |].
    repeat split; assumption.
  - intros num_vars num_samples samples dep mean_values std_dev z0
           Hd Hs Hz Hvd Hvs Hvz Hsd Hmu.
    destruct (rank_match_total num_samples samples dep mean_values std_dev
                num_vars z0) as (z & E); try assumption.
    exists z. split; [exact E|].
    apply (rank_match_partial num_samples samples dep mean_values std_dev
             num_vars z0 z); [congruence | exact E].
Qed.


Lemma run_result_rows :
  to_rows_result run_result
  = Ok [[18.355146373048527; 22.072866778987581];
        [18.963566610506209; 20.251322693710147];
        [19.325510249803919; 23.289707253902943];
        [19.614679533592433; 16.710292746097057];
        [19.874338653144925; 20.770640932815134];
        [20.125661346855075; 19.229359067184866];
        [20.385320466407567; 21.348979500392165];
        [20.674489750196081; 17.927133221012419];
        [21.036433389493791; 19.748677306289853];
        [21.644853626951473; 18.651020499607835]]%float.
Proof. vm_compute. reflexivity. Qed.

Lemma rank_matching_preserves_marginals_witness :
  exists zb samples,
    run_result = Ok zb
    /\ lhs_normal_sample (lib:=run_library) 10
         (np_zeros1 (len1 run_mean)) (np_ones (len1 run_mean)) = Ok samples
    /\ nrows zb = nrows samples /\ ncols zb = ncols samples
    /\ forall j, j < len1 run_mean ->
                 Permutation (column zb j)
                             (map (scale_shift run_mean run_std j) (column samples j)).
Proof.
  destruct run_result as [zb|e] eqn:E.
  - exists zb.
    destruct (proj1 (rank_matching_preserves_marginals float float_Num run_library)
                    run_mean run_std run_corr 10 zb E) as (samples & Hs).
    exists samples. split; [reflexivity | exact Hs].
  - exfalso. pose proof run_result_rows as R. rewrite E in R. discriminate R.
Defined.

(** C5, as the code behaves.  [lhs_normal_sample_corr] makes exactly one
    try.  Its score is compared once, with the initial bound [1.8e308]: the
    try is returned when the score is below the bound, which in binary64 is
    the case for every score other than infinity and NaN, and the exception
    is raised otherwise.  In the retry loop a try whose score is not below
    the best score so far ends the loop with the exception: the first try
    against the initial bound, and a second try against the score of the
    first. *)
Theorem single_try_then_keep_or_raise :
  (forall (T : Type) (HN : Num T) (L : Library T),
      (forall (mean_values std_dev : array1 T) (desired_corr : array2 T)
              (num_samples : nat),
          lhs_normal_sample_corr mean_values std_dev desired_corr num_samples
          = (samples <- lhs_normal_sample num_samples (np_zeros1 (len1 mean_values))
                          (np_ones (len1 mean_values)) ;;
             dependent_samples <- dependent_samples_of samples desired_corr ;;
             '(z, ae) <- one_try (len1 mean_values) num_samples samples
                           dependent_samples mean_values std_dev desired_corr
                           (np_zeros2 (nrows samples) (ncols samples)) ;;
             if ltb ae lit_1_8e308
             then Ok z
             else Raise (Exception "Could not order samples"%string)))
      /\ (forall ntry num_vars num_samples samples dependent_samples
                 (mean_values std_dev : array1 T) desired_corr amin z0 z1 ae1,
             one_try num_vars num_samples samples dependent_samples mean_values
                     std_dev desired_corr z0 = Ok (z1, ae1) ->
             ltb ae1 amin = false ->
             retry_loop (S ntry) num_vars num_samples samples dependent_samples
                        mean_values std_dev desired_corr amin z0
             = Raise (Exception "Could not order samples"%string))
      /\ (forall ntry num_vars num_samples samples dependent_samples
                 (mean_values std_dev : array1 T) desired_corr amin z0 z1 ae1 z2 ae2,
             one_try num_vars num_samples samples dependent_samples mean_values
                     std_dev desired_corr z0 = Ok (z1, ae1) ->
             ltb ae1 amin = true ->
             one_try num_vars num_samples samples dependent_samples mean_values
                     std_dev desired_corr z1 = Ok (z2, ae2) ->
             ltb ae2 ae1 = false ->
             retry_loop (S (S ntry)) num_vars num_samples samples dependent_samples
                        mean_values std_dev desired_corr amin z0
             = Raise (Exception "Could not order samples"%string)))
  /\ (forall ae : float, ltb ae lit_1_8e308 = true \/ ae = infinity \/ ae = nan).
Proof.
  split; [|exact below_initial_bound].
  intros T HN L. split; [|split].
  - apply lhs_normal_sample_corr_unrolled.
  - intros ntry num_vars num_samples samples dep mean_values std_dev desired_corr
           amin z0 z1 ae1 E1 Hlt.
    rewrite (retry_loop_first_try _ _ _ _ _ _ _ _ _ _ _ _ E1).
    unfold keep_or_raise. rewrite Hlt. reflexivity.
  - intros ntry num_vars num_samples samples dep mean_values std_dev desired_corr
           amin z0 z1 ae1 z2 ae2 E1 Hlt1 E2 Hlt2.
    rewrite (retry_loop_first_try _ _ _ _ _ _ _ _ _ _ _ _ E1).
    unfold keep_or_raise. rewrite Hlt1. simpl.
    rewrite E2. simpl. rewrite Hlt2. reflexivity.
Qed.


Lemma run_two_scores_value :
  run_two_scores
  = Ok (0.071060219265997926, 0.071060219265997926, false)%float.
Proof. vm_compute. reflexivity. Qed.

Lemma single_try_then_keep_or_raise_witness :
  retry_loop (lib:=run_library) 2 2 10 run_samples run_dependent run_mean run_std
             run_corr lit_1_8e308 (np_zeros2 10 2)
  = Raise (Exception "Could not order samples"%string).
Proof.
  pose proof run_two_scores_value as F. unfold run_two_scores in F.
  destruct (one_try (lib:=run_library) 2 10 run_samples run_dependent run_mean
                    run_std run_corr (np_zeros2 10 2)) as [[z1 ae1]|e1] eqn:E1;
    [|discriminate F].
  cbn [bind] in F.
  destruct (one_try (lib:=run_library) 2 10 run_samples run_dependent run_mean
                    run_std run_corr z1) as [[z2 ae2]|e2] eqn:E2;
    [|discriminate F].
  cbn [bind] in F. inversion F as [[Ha1 Ha2 Hlt]].
  apply (proj2 (proj2 (proj1 single_try_then_keep_or_raise float float_Num
                             run_library))
               0 2 10 run_samples run_dependent run_mean run_std run_corr
               lit_1_8e308 (np_zeros2 10 2) z1 ae1 z2 ae2 E1);
    [rewrite Ha1; reflexivity | exact E2 | rewrite Ha1, Ha2; reflexivity].
Defined.

(** C5 as stated fails: on the first comparison the exception is not raised.
    The run above scores about 0.07, which is below the initial bound, and
    the sample is returned. *)
Lemma first_comparison_does_not_raise :
  (exists z ae, run_try = Ok (z, ae) /\ ltb ae lit_1_8e308 = true)
  /\ exists zb, run_result = Ok zb.
Proof.
  split.
  - unfold run_try. vm_compute. eexists. eexists. split; reflexivity.
  - destruct run_result as [zb|e] eqn:E.
    + exists zb. reflexivity.
    + exfalso. pose proof run_result_rows as R. rewrite E in R. discriminate R.
Qed.

(** ** The modified Cholesky factorisation, loop by loop *)

Section GmwLoops.
Context {T : Type} {num : Num T}.
Variables (n : nat).


(** [gamma] and [xi]: any property that the two running maxima establish
    entry by entry holds of the result. *)
Lemma gamma_xi_inv (A : array2 T) (Q : nat -> T -> T -> Prop) :
  square n A ->
  Q 0 zero zero ->
  (forall i gamma xi xi',
      i < n -> Q i gamma xi ->
      xi' = fold_left (fun x j => pymax (absv (get2 A i j)) x)
                      (seq (i + 1) (n - (i + 1))) xi ->
      Q (S i) (pymax (absv (get2 A i i)) gamma) xi') ->
  exists gamma xi, gamma_xi A n = Ok (gamma, xi) /\ Q n gamma xi.
Proof.
  intros [Hr Hc] H0 Hstep. unfold gamma_xi.
  destruct (for_range_inv (fun i (s : T * T) => Q i (fst s) (snd s))
              (fun i '(gamma, xi) =>
                 aii <- item2 A i i ;;
                 let gamma := pymax (absv aii) gamma in
                 xi <- for_range (i + 1) n (fun j xi =>
                         aij <- item2 A i j ;;
                         Ok (pymax (absv aij) xi)) xi ;;
                 Ok (gamma, xi)) 0 n (zero, zero)) as ([g x] & E & HQ).
  - lia.
  - exact H0.
  - intros i [gamma xi] Hi HQ. simpl in HQ.
    rewrite item2_Ok by lia. simpl.
    assert (Hin : forall count lo x0,
               lo + count <= n ->
               for_loop count lo (fun j xi0 =>
                                    aij <- item2 A i j ;;
                                    Ok (pymax (absv aij) xi0)) x0
               = Ok (fold_left (fun x j => pymax (absv (get2 A i j)) x)
                               (seq lo count) x0)).
    { induction count as [|count IH]; intros lo x0 Hlo; simpl; [reflexivity|].
      rewrite item2_Ok by lia. simpl. apply IH. lia. }
    unfold for_range. rewrite Hin by lia. simpl.
    eexists. split; [reflexivity|]. simpl.
    apply (Hstep i gamma xi); [lia | assumption | reflexivity].
  - exists g, x. split; assumption.
Qed.

(** The pivot search: any property maintained by the comparison holds of the
    index found, which lies in [j, n). *)
Lemma find_pivot_inv (a : array2 T) (j : nat) (Q : nat -> nat -> Prop) :
  square n a -> j < n ->
  Q (j + 1) j ->
  (forall i q, j < i < n -> j <= q < i -> Q i q ->
               Q (S i) (if leb (absv (get2 a q q)) (absv (get2 a i i))
                        then i else q)) ->
  exists q, find_pivot a n j = Ok q /\ j <= q < n /\ Q n q.
Proof.
  intros [Hr Hc] Hj H0 Hstep. unfold find_pivot.
  destruct (for_range_inv (fun i q => j <= q < i /\ Q i q)
              (fun i q =>
                 aii <- item2 a i i ;;
                 aqq <- item2 a q q ;;
                 Ok (if leb (absv aqq) (absv aii) then i else q))
              (j + 1) n j) as (q & E & Hq & HQ).
  - lia.
  - split; [lia | exact H0].
  - intros i q Hi [Hq HQ].
    rewrite !item2_Ok by lia. simpl.
    eexists. split; [reflexivity|]. split.
    + destruct (leb _ _); lia.
    + apply Hstep; (lia || assumption).
  - exists q. repeat split; (lia || assumption).
Qed.

(** [theta_j]: the running maximum of row [j] to the right of the diagonal. *)
Lemma calc_theta_inv (a : array2 T) (j : nat) (Q : nat -> T -> Prop) :
  square n a -> j < n ->
  Q (j + 1) zero ->
  (forall i theta, j < i < n -> Q i theta ->
                   Q (S i) (pymax theta (absv (get2 a j i)))) ->
  exists theta, calc_theta a n j = Ok theta /\ Q n theta.
Proof.
  intros [Hr Hc] Hj H0 Hstep. unfold calc_theta.
  destruct (Nat.ltb_spec j (n - 1)) as [Hlt|Hge].
  - destruct (for_range_inv Q
                (fun i theta_j =>
                   aji <- item2 a j i ;;
                   Ok (pymax theta_j (absv aji)))
                (j + 1) n zero) as (theta & E & HQ).
    + lia.
    + exact H0.
    + intros i theta Hi HQ. rewrite item2_Ok by lia. simpl.
      eexists. split; [reflexivity|]. apply Hstep; (lia || assumption).
    + exists theta. split; assumption.
  - exists zero. split; [reflexivity|].
    replace n with (j + 1) by lia. exact H0.
Qed.


(** The interchange of rows and columns [j] and [q]. *)
Lemma interchange_spec (j q : nat) (a r P : array2 T) :
  square n a -> square n r -> square n P -> j < n -> q < n -> q <> j ->
  exists a' r' P',
    interchange n j q a r P = Ok (a', r', P')
    /\ square n a' /\ square n r' /\ square n P'
    /\ (forall x y, get2 a' x y
                    = sum_n n (fun k => mul (get2 (swap_eye n j q) x k)
                         (sum_n n (fun l => mul (get2 a k l)
                                                (get2 (swap_eye n j q) l y)))))
    /\ (forall x y, get2 r' x y
                    = sum_n n (fun k => mul (get2 r x k)
                                            (get2 (swap_eye n j q) k y)))
    /\ (forall x y, get2 P' x y
                    = if y =? j then mul one (get2 P x q)
                      else if y =? q then get2 P x j else get2 P x y).
Proof.
  intros [Hra Hca] [Hrr Hcr] [HrP HcP] Hj Hq Hne.
  unfold interchange.
  destruct (Nat.eqb_spec q j) as [|_]; [contradiction|]. simpl.
  unfold getcol. rewrite HcP.
  destruct (Nat.ltb_spec q n); [|lia]. simpl.
  destruct (Nat.ltb_spec j n); [|lia]. simpl.
  unfold setcol. simpl. rewrite HcP, HrP.
  destruct (Nat.ltb_spec q n); [|lia]. rewrite Nat.eqb_refl. simpl.
  destruct (Nat.ltb_spec j n); [|lia]. rewrite Nat.eqb_refl. simpl.
  unfold getrow. simpl.
  destruct (Nat.ltb_spec q n); [|lia]. simpl.
  destruct (Nat.ltb_spec j n); [|lia]. simpl.
  unfold setrow. simpl.
  destruct (Nat.ltb_spec q n); [|lia]. rewrite Nat.eqb_refl. simpl.
  destruct (Nat.ltb_spec j n); [|lia]. rewrite Nat.eqb_refl. simpl.
  unfold np_dot. simpl. rewrite Hca, Hcr, Nat.eqb_refl. simpl.
  rewrite Hra, Nat.eqb_refl. simpl.
  eexists. eexists. eexists. split; [reflexivity|].
  unfold square. simpl. repeat split; assumption.
Qed.

Lemma interchange_same (j : nat) (a r P : array2 T) :
  interchange n j j a r P = Ok (a, r, P).
Proof. unfold interchange. rewrite Nat.eqb_refl. reflexivity. Qed.

(** The innermost loop of the elimination: row and column [i] of [a]. *)
Lemma eliminate_inner_spec (j i : nat) (a r : array2 T) :
  square n a -> square n r -> j < i < n ->
  exists a',
    for_range (j + 1) (i + 1) (fun k a =>
      aki <- item2 a k i ;;
      rji <- item2 r j i ;;
      rjk <- item2 r j k ;;
      let v := sub aki (mul rji rjk) in
      a <- setitem2 a i k v ;;
      setitem2 a k i v) a = Ok a'
    /\ square n a'
    /\ forall x y, get2 a' x y
                   = if (x =? i) && ((j <? y) && (y <=? i))
                     then sub (get2 a y i) (mul (get2 r j i) (get2 r j y))
                     else if (y =? i) && ((j <? x) && (x <=? i))
                          then sub (get2 a x i) (mul (get2 r j i) (get2 r j x))
                          else get2 a x y.
Proof.
  intros [Hra Hca] [Hrr Hcr] Hji.
  pose (I := fun (k : nat) (a1 : array2 T) =>
               square n a1 /\
               forall x y, get2 a1 x y
                   = if (x =? i) && ((j <? y) && (y <? k))
                     then sub (get2 a y i) (mul (get2 r j i) (get2 r j y))
                     else if (y =? i) && ((j <? x) && (x <? k))
                          then sub (get2 a x i) (mul (get2 r j i) (get2 r j x))
                          else get2 a x y).
  destruct (for_range_inv I
              (fun k a =>
                 aki <- item2 a k i ;;
                 rji <- item2 r j i ;;
                 rjk <- item2 r j k ;;
                 let v := sub aki (mul rji rjk) in
                 a <- setitem2 a i k v ;;
                 setitem2 a k i v) (j + 1) (i + 1) a) as (a' & E & Hsq & Hg).
  - lia.
  - unfold I. split; [split; assumption|]. intros x y.
    destruct (Nat.ltb_spec j y), (Nat.ltb_spec y (j + 1)),
      (Nat.ltb_spec j x), (Nat.ltb_spec x (j + 1)); try lia;
      rewrite ?andb_false_r; reflexivity.
  - intros k a1 Hk ([Hr1 Hc1] & Hg1).
    rewrite !item2_Ok by lia. simpl.
    rewrite setitem2_Ok by lia. simpl.
    rewrite setitem2_Ok by (simpl; lia). simpl.
    eexists. split; [reflexivity|]. unfold I. simpl.
    split; [split; assumption|]. intros x y.
    assert (Hki : get2 a1 k i = get2 a k i).
    { rewrite Hg1.
      destruct (Nat.eqb_spec k i) as [->|Hne]; simpl.
      - destruct (Nat.ltb_spec i i); [lia|]. rewrite !andb_false_r. reflexivity.
      - destruct (Nat.eqb_spec i i); [|lia]. simpl.
        destruct (Nat.ltb_spec k k); [lia|]. rewrite !andb_false_r. reflexivity. }
    rewrite Hki, Hg1.
    destruct (Nat.eqb_spec x k), (Nat.eqb_spec y i), (Nat.eqb_spec x i),
      (Nat.eqb_spec y k); subst; simpl;
      repeat match goal with
             | |- context [?u <? ?v] => destruct (Nat.ltb_spec u v); simpl
             | |- context [?u =? ?v] => destruct (Nat.eqb_spec u v); simpl
             end; try lia; try reflexivity.
  - exists a'. split; [exact E|]. split; [exact Hsq|]. intros x y.
    rewrite Hg.
    destruct (Nat.leb_spec y i), (Nat.ltb_spec y (i + 1)); try lia;
      destruct (Nat.leb_spec x i), (Nat.ltb_spec x (i + 1)); try lia;
        reflexivity.
Qed.

(** Lines 144-147 in closed form. *)
Lemma eliminate_spec (j : nat) (a r : array2 T) :
  square n a -> square n r -> j < n ->
  exists a' r',
    eliminate n j a r = Ok (a', r')
    /\ square n a' /\ square n r'
    /\ (forall x y, get2 r' x y
                    = if (x =? j) && ((j <? y) && (y <? n))
                      then quotient a r j y else get2 r x y)
    /\ (forall x y, get2 a' x y
                    = if ((j <? x) && (x <? n)) && ((j <? y) && (y <? n))
                      then if x <=? y
                           then sub (get2 a x y)
                                    (mul (quotient a r j y) (quotient a r j x))
                           else sub (get2 a y x)
                                    (mul (quotient a r j x) (quotient a r j y))
                      else get2 a x y).
Proof.
  intros Hsa Hsr Hj. unfold eliminate.
  pose (I := fun (i : nat) (s : array2 T * array2 T) =>
               square n (fst s) /\ square n (snd s)
               /\ (forall x y, get2 (snd s) x y
                      = if (x =? j) && ((j <? y) && (y <? i))
                        then quotient a r j y else get2 r x y)
               /\ (forall x y, get2 (fst s) x y
                      = if ((j <? x) && (x <? i)) && ((j <? y) && (y <? i))
                        then if x <=? y
                             then sub (get2 a x y)
                                      (mul (quotient a r j y) (quotient a r j x))
                             else sub (get2 a y x)
                                      (mul (quotient a r j x) (quotient a r j y))
                        else get2 a x y)).
  destruct (for_range_inv I
              (fun i '(a, r) =>
                 aji <- item2 a j i ;;
                 rjj <- item2 r j j ;;
                 r <- setitem2 r j i (div aji rjj) ;;
                 a <- for_range (j + 1) (i + 1) (fun k a =>
                        aki <- item2 a k i ;;
                        rji <- item2 r j i ;;
                        rjk <- item2 r j k ;;
                        let v := sub aki (mul rji rjk) in
                        a <- setitem2 a i k v ;;
                        setitem2 a k i v) a ;;
                 Ok (a, r)) (j + 1) n (a, r))
    as ([a' r'] & E & Ha' & Hr' & Hgr & Hga).
  - lia.
  - unfold I. simpl. repeat split; try apply Hsa; try apply Hsr.
    + intros x y. nat_cases; try lia; reflexivity.
    + intros x y. nat_cases; try lia; reflexivity.
  - intros i [a1 r1] Hi (Ha1 & Hr1 & Hgr1 & Hga1). cbn [fst snd] in *.
    destruct Ha1 as [Hra1 Hca1]. destruct Hr1 as [Hrr1 Hcr1].
    rewrite !item2_Ok by lia. cbn [bind].
    rewrite setitem2_Ok by lia. cbn [bind].
    set (r2 := Arr2 (nrows r1) (ncols r1) _).
    destruct (eliminate_inner_spec j i a1 r2) as (a2 & E2 & Hsa2 & Hga2).
    { split; assumption. }
    { split; assumption. }
    { lia. }
    cbv zeta in E2. rewrite E2. cbn [bind]. eexists. split; [reflexivity|].
    assert (Haji : get2 a1 j i = get2 a j i).
    { rewrite Hga1. nat_cases; try lia; reflexivity. }
    assert (Hrjj : get2 r1 j j = get2 r j j).
    { rewrite Hgr1. nat_cases; try lia; reflexivity. }
    assert (Hr2 : forall x y, get2 r2 x y
                    = if (x =? j) && ((j <? y) && (y <? S i))
                      then quotient a r j y else get2 r x y).
    { intros x y. unfold r2. simpl. rewrite Haji, Hrjj, Hgr1.
      unfold quotient. nat_cases; try lia; subst; reflexivity. }
    unfold I. simpl. repeat split; try apply Hsa2; try assumption.
    intros x y. rewrite Hga2, !Hr2, !Hga1.
    nat_cases; try lia; subst; try reflexivity; try lia;
      try (assert (y = i) by lia; subst; reflexivity);
      try (assert (x = i) by lia; subst; reflexivity).
  - exists a', r'. split; [exact E|]. simpl in *. repeat split; try apply Ha'; try apply Hr'; assumption.
Qed.

(** One iteration of the main loop, in closed form. *)
Lemma gmw_step_spec (beta delta : T) (j : nat) (a r P : array2 T) (e : array1 T) :
  square n a -> square n r -> square n P -> len1 e = n -> j < n ->
  exists q a1 r1 P1 theta a2 r2 e2,
    gmw_step n beta delta j (a, r, e, P) = Ok (a2, r2, e2, P1)
    /\ find_pivot a n j = Ok q /\ j <= q < n
    /\ interchange n j q a r P = Ok (a1, r1, P1)
    /\ square n a1 /\ square n r1 /\ square n P1
    /\ calc_theta a1 n j = Ok theta
    /\ square n a2 /\ square n r2 /\ len1 e2 = n
    /\ let tb := div theta beta in
       let dj := pymax (pymax (absv (get2 a1 j j)) (mul tb tb)) delta in
       let rho := fun y => div (get2 a1 j y) (sqrt_ dj) in
       (forall k, get1 e2 k = if k =? j then sub dj (get2 a1 j j) else get1 e k)
       /\ (forall x y, get2 r2 x y
                       = if (x =? j) && ((j <? y) && (y <? n)) then rho y
                         else if (x =? j) && (y =? j) then sqrt_ dj
                              else get2 r1 x y)
       /\ (forall x y, get2 a2 x y
                       = if ((j <? x) && (x <? n)) && ((j <? y) && (y <? n))
                         then if x <=? y
                              then sub (get2 a1 x y) (mul (rho y) (rho x))
                              else sub (get2 a1 y x) (mul (rho x) (rho y))
                         else get2 a1 x y).
Proof.
  intros Hsa Hsr HsP Hle Hj.
  destruct (find_pivot_inv a j (fun _ _ => True) Hsa Hj I (fun _ _ _ _ _ => I))
    as (q & Eq & Hq & _).
  assert (Hint : exists a1 r1 P1,
             interchange n j q a r P = Ok (a1, r1, P1)
             /\ square n a1 /\ square n r1 /\ square n P1).
  { destruct (Nat.eq_dec q j) as [->|Hne].
    - exists a, r, P. rewrite interchange_same. auto.
    - destruct (interchange_spec j q a r P) as (a1 & r1 & P1 & E & H1 & H2 & H3 & _);
        try assumption; try lia.
      exists a1, r1, P1. auto. }
  destruct Hint as (a1 & r1 & P1 & Eint & Hsa1 & Hsr1 & HsP1).
  destruct (calc_theta_inv a1 j (fun _ _ => True) Hsa1 Hj I (fun _ _ _ _ => I))
    as (theta & Eth & _).
  set (tb := div theta beta).
  set (dj := pymax (pymax (absv (get2 a1 j j)) (mul tb tb)) delta).
  set (r1' := Arr2 (nrows r1) (ncols r1)
                (fun x y => if (x =? j) && (y =? j) then sqrt_ dj else get2 r1 x y)).
  assert (Hsr1' : square n r1') by (destruct Hsr1; split; assumption).
  destruct (eliminate_spec j a1 r1' Hsa1 Hsr1' Hj)
    as (a2 & r2 & Eel & Hsa2 & Hsr2 & Hgr2 & Hga2).
  assert (Hrho : forall y, quotient a1 r1' j y = div (get2 a1 j y) (sqrt_ dj)).
  { intros y. unfold quotient, r1'. simpl. rewrite !Nat.eqb_refl. reflexivity. }
  exists q, a1, r1, P1, theta, a2, r2,
    (Arr1 (len1 e) (fun k => if k =? j then sub dj (get2 a1 j j) else get1 e k)).
  split.
  - unfold gmw_step. rewrite Eq. cbn [bind]. rewrite Eint. cbn [bind].
    rewrite Eth. cbn [bind].
    destruct Hsa1 as [Hra1 Hca1]. destruct Hsr1 as [Hrr1 Hcr1].
    rewrite item2_Ok by lia. cbn [bind].
    rewrite setitem1_Ok by lia. cbn [bind].
    rewrite setitem2_Ok by lia. cbn [bind].
    fold tb. fold dj. fold r1'. rewrite Eel. reflexivity.
  - repeat split; try assumption; try apply Hq; try apply Hsa1; try apply Hsr1;
      try apply HsP1; try apply Hsa2; try apply Hsr2.
    + intros x y. rewrite Hgr2, Hrho. unfold r1'. simpl. reflexivity.
    + intros x y. rewrite Hga2, !Hrho. reflexivity.
Qed.

(** On a square array [gmw_cholesky] raises no exception, in any
    arithmetic. *)
Lemma gmw_cholesky_total (A : array2 T) :
  square n A ->
  exists P L e, gmw_cholesky A = Ok (P, L, e)
                /\ square n P /\ square n L /\ len1 e = n.
Proof.
  intros HsA. unfold gmw_cholesky.
  replace (nrows A) with n by (symmetry; apply HsA).
  destruct (gamma_xi_inv A (fun _ _ _ => True) HsA I (fun _ _ _ _ _ _ _ => I))
    as (gamma & xi & Eg & _).
  rewrite Eg. cbn [bind].
  set (delta := calc_delta gamma xi). set (beta := calc_beta n gamma xi).
  destruct (for_range_inv
              (fun (_ : nat) (s : array2 T * array2 T * array1 T * array2 T) =>
                 let '(a, r, e, P) := s in
                 square n a /\ square n r /\ square n P /\ len1 e = n)
              (gmw_step n beta delta) 0 n
              (np_scale one A, np_scale zero A, np_zeros1 n, np_eye n))
    as ([[[a r] e] P] & E & Ha & Hr & HP & He).
  - lia.
  - unfold square in *. simpl. repeat split; try apply HsA; reflexivity.
  - intros j [[[a r] e] P] Hj (Ha & Hr & HP & He).
    destruct (gmw_step_spec beta delta j a r P e Ha Hr HP He)
      as (q & a1 & r1 & P1 & theta & a2 & r2 & e2 & E & _ & _ & _ & _ & _ & HP1
          & _ & Ha2 & Hr2 & He2 & _); [lia|].
    exists (a2, r2, e2, P1). split; [exact E|]. repeat split;
      try apply Ha2; try apply Hr2; try apply HP1; assumption.
  - rewrite E. cbn [bind]. exists P, (transpose r), e. split; [reflexivity|].
    unfold square in *. simpl. repeat split; try apply HP; try apply Hr; assumption.
Qed.

End GmwLoops.

(** ** The modified Cholesky factorisation in exact arithmetic *)

Section SumsOverR.
Open Scope R_scope.

Lemma sum_from_acc (count lo : nat) (f : nat -> R) (acc : R) :
  sum_from count lo f acc = acc + sum_from count lo f 0.
Proof.
  revert lo acc. induction count as [|count IH]; intros lo acc; simpl.
  - ring.
  - rewrite (IH (S lo) (acc + f lo)), (IH (S lo) (0 + f lo)). ring.
Qed.

Lemma sum_from_last (count lo : nat) (f : nat -> R) (acc : R) :
  sum_from (S count) lo f acc = sum_from count lo f acc + f (lo + count)%nat.
Proof.
  revert lo acc. induction count as [|count IH]; intros lo acc.
  - simpl. rewrite Nat.add_0_r. reflexivity.
  - change (sum_from (S (S count)) lo f acc)
      with (sum_from (S count) (S lo) f (acc + f lo)).
    rewrite IH. simpl. do 2 f_equal. lia.
Qed.

Lemma sum_n_0 (f : nat -> R) : sum_n 0 f = 0.
Proof. reflexivity. Qed.

Lemma sum_n_S (k : nat) (f : nat -> R) : sum_n (S k) f = sum_n k f + f k.
Proof. unfold sum_n. rewrite sum_from_last. reflexivity. Qed.

Lemma sum_n_ext (k : nat) (f g : nat -> R) :
  (forall m, (m < k)%nat -> f m = g m) -> sum_n k f = sum_n k g.
Proof.
  induction k as [|k IH]; intros Hfg; [reflexivity|].
  rewrite !sum_n_S, IH, Hfg; auto.
Qed.

Lemma sum_n_zero (k : nat) (f : nat -> R) :
  (forall m, (m < k)%nat -> f m = 0) -> sum_n k f = 0.
Proof.
  induction k as [|k IH]; intros Hf; [reflexivity|].
  rewrite sum_n_S, IH, Hf; auto. ring.
Qed.

(** A sum whose terms vanish from [k] on. *)
Lemma sum_n_truncate (k n : nat) (f : nat -> R) :
  (k <= n)%nat -> (forall m, (k <= m < n)%nat -> f m = 0) ->
  sum_n n f = sum_n k f.
Proof.
  intros Hkn. induction n as [|n IH]; intros Hf.
  - replace k with 0%nat by lia. reflexivity.
  - destruct (Nat.eq_dec k (S n)) as [->|Hne]; [reflexivity|].
    rewrite sum_n_S, IH, Hf; try lia; [ring|].
    intros m Hm. apply Hf. lia.
Qed.

(** A sum with a single non-zero term. *)
Lemma sum_n_single (n c : nat) (f : nat -> R) :
  (c < n)%nat -> (forall m, (m < n)%nat -> m <> c -> f m = 0) ->
  sum_n n f = f c.
Proof.
  intros Hc Hf.
  rewrite (sum_n_truncate (S c) n) by (try lia; intros m Hm; apply Hf; lia).
  rewrite sum_n_S, sum_n_zero; [ring|].
  intros m Hm. apply Hf; lia.
Qed.

Lemma sum_n_nonneg (k : nat) (f : nat -> R) :
  (forall m, (m < k)%nat -> 0 <= f m) -> 0 <= sum_n k f.
Proof.
  induction k as [|k IH]; intros Hf.
  - rewrite sum_n_0. lra.
  - rewrite sum_n_S. specialize (IH (fun m Hm => Hf m (Nat.lt_lt_succ_r _ _ Hm))).
    specialize (Hf k (Nat.lt_succ_diag_r k)). lra.
Qed.

Lemma pymax_R (x y : R) : pymax x y = Rmax x y.
Proof.
  unfold pymax, Rmax. simpl.
  destruct (Rlt_dec x y), (Rle_dec x y); try reflexivity; lra.
Qed.

Lemma eps_pos : 0 < R_eps.
Proof. unfold R_eps. apply Rinv_0_lt_compat, pow_lt. lra. Qed.

Lemma calc_delta_pos (gamma xi : R) : 0 < calc_delta gamma xi.
Proof.
  unfold calc_delta, _EPS. rewrite pymax_R. simpl.
  apply Rmult_lt_0_compat; [apply eps_pos|].
  pose proof (Rmax_r (gamma + xi) 1). lra.
Qed.

Lemma calc_beta_pos (n : nat) (gamma xi : R) : 0 < calc_beta n gamma xi.
Proof.
  unfold calc_beta, _EPS. rewrite !pymax_R. simpl.
  pose proof eps_pos.
  destruct (n =? 1)%nat; apply sqrt_lt_R0.
  - pose proof (Rmax_r gamma R_eps). lra.
  - pose proof (Rmax_r (Rmax gamma (xi / sqrt (INR (n * n) - 1))) R_eps). lra.
Qed.

End SumsOverR.

Section InterchangeOverR.
Open Scope R_scope.
Variable n : nat.

Lemma tau_involutive j q x : tau j q (tau j q x) = x.
Proof.
  unfold tau.
  destruct (Nat.eqb_spec x j) as [->|Hj].
  - rewrite Nat.eqb_refl. destruct (Nat.eqb_spec q j); congruence.
  - destruct (Nat.eqb_spec x q) as [->|Hq].
    + rewrite Nat.eqb_refl. reflexivity.
    + destruct (Nat.eqb_spec x j); [contradiction|].
      destruct (Nat.eqb_spec x q); [contradiction | reflexivity].
Qed.

Lemma tau_bound j q x : (j < n)%nat -> (q < n)%nat -> (x < n)%nat -> (tau j q x < n)%nat.
Proof. unfold tau. intros. nat_cases; lia. Qed.

Lemma tau_same j x : tau j j x = x.
Proof. unfold tau. nat_cases; subst; reflexivity. Qed.

Lemma tau_fix j q x : (x <> j)%nat -> (x <> q)%nat -> tau j q x = x.
Proof. unfold tau. intros. nat_cases; try lia; reflexivity. Qed.

Lemma tau_low j q x : (x < j)%nat -> (j <= q)%nat -> tau j q x = x.
Proof. intros. apply tau_fix; lia. Qed.

Lemma tau_high j q x : (j <= x)%nat -> (j <= q)%nat -> (j <= tau j q x)%nat.
Proof. unfold tau. intros. nat_cases; lia. Qed.

Lemma swap_eye_R j q x k :
  get2 (swap_eye n j q) x k = if (k =? tau j q x)%nat then 1 else 0.
Proof.
  unfold swap_eye, tau. simpl. nat_cases; subst; try lia; try ring.
Qed.

Lemma sum_swap_left j q x (f : nat -> R) :
  (j < n)%nat -> (q < n)%nat -> (x < n)%nat ->
  sum_n n (fun k => get2 (swap_eye n j q) x k * f k) = f (tau j q x).
Proof.
  intros Hj Hq Hx.
  rewrite (sum_n_single n (tau j q x)).
  - rewrite swap_eye_R, Nat.eqb_refl. ring.
  - apply tau_bound; assumption.
  - intros m Hm Hne. rewrite swap_eye_R.
    destruct (Nat.eqb_spec m (tau j q x)); [contradiction | ring].
Qed.

Lemma sum_swap_right j q y (f : nat -> R) :
  (j < n)%nat -> (q < n)%nat -> (y < n)%nat ->
  sum_n n (fun l => f l * get2 (swap_eye n j q) l y) = f (tau j q y).
Proof.
  intros Hj Hq Hy.
  rewrite (sum_n_single n (tau j q y)).
  - rewrite swap_eye_R, tau_involutive, Nat.eqb_refl. ring.
  - apply tau_bound; assumption.
  - intros m Hm Hne. rewrite swap_eye_R.
    destruct (Nat.eqb_spec y (tau j q m)) as [->|]; [|ring].
    rewrite tau_involutive in Hne. contradiction.
Qed.

(** In exact arithmetic the interchange permutes rows and columns. *)
Lemma interchange_R (j q : nat) (a r P : array2 R) :
  square n a -> square n r -> square n P -> (j < n)%nat -> (q < n)%nat ->
  exists a1 r1 P1,
    interchange n j q a r P = Ok (a1, r1, P1)
    /\ square n a1 /\ square n r1 /\ square n P1
    /\ (forall x y, (x < n)%nat -> (y < n)%nat ->
                    get2 a1 x y = get2 a (tau j q x) (tau j q y))
    /\ (forall x y, (y < n)%nat -> get2 r1 x y = get2 r x (tau j q y))
    /\ (forall x y, get2 P1 x y = get2 P x (tau j q y)).
Proof.
  intros Ha Hr HP Hj Hq.
  destruct (Nat.eq_dec q j) as [->|Hne].
  - exists a, r, P. rewrite interchange_same.
    repeat split; try apply Ha; try apply Hr; try apply HP;
      intros; rewrite ?tau_same; reflexivity.
  - destruct (interchange_spec n j q a r P Ha Hr HP Hj Hq Hne)
      as (a1 & r1 & P1 & E & Ha1 & Hr1 & HP1 & Hga & Hgr & HgP).
    exists a1, r1, P1. split; [exact E|].
    repeat split; try apply Ha1; try apply Hr1; try apply HP1.
    + intros x y Hx Hy. rewrite Hga. simpl.
      rewrite (sum_n_ext n _ (fun k => get2 (swap_eye n j q) x k
                                       * get2 a k (tau j q y))).
      * apply (sum_swap_left j q x (fun k => get2 a k (tau j q y))); assumption.
      * intros k Hk. f_equal.
        apply (sum_swap_right j q y (fun l => get2 a k l)); assumption.
    + intros x y Hy. rewrite Hgr. simpl.
      apply (sum_swap_right j q y (fun l => get2 r x l)); assumption.
    + intros x y. rewrite HgP. unfold tau. simpl.
      nat_cases; subst; try lia; try ring.
Qed.

End InterchangeOverR.

Section MainLoopOverR.
Open Scope R_scope.
Variables (n : nat) (A : array2 R).
Hypothesis A_square : square n A.
Hypothesis A_symmetric : symmetric2 A.

Lemma pymax_ge_l (x y : R) : x <= pymax x y.
Proof. rewrite pymax_R. apply Rmax_l. Qed.

Lemma pymax_ge_r (x y : R) : y <= pymax x y.
Proof. rewrite pymax_R. apply Rmax_r. Qed.

Lemma gmw_inv_init :
  gmw_inv n A 0 (np_scale one A) (np_scale zero A) (np_zeros1 n) (np_eye n)
          (fun y => y).
Proof.
  destruct A_square as [Hr Hc].
  constructor; simpl; auto; try lia.
  - intros x y Hx Hy. rewrite (A_symmetric x y) by lia. reflexivity.
  - intros. ring.
  - intros. rewrite sum_n_0. ring.
Qed.

(** One iteration of the main loop preserves the invariant. *)
Lemma gmw_step_inv (beta delta : R) (j : nat) (a r P : array2 R) (e : array1 R)
      (sigma : nat -> nat) :
  0 < delta -> (j < n)%nat ->
  gmw_inv n A j a r e P sigma ->
  exists a2 r2 e2 P2 sigma2,
    gmw_step n beta delta j (a, r, e, P) = Ok (a2, r2, e2, P2)
    /\ gmw_inv n A (S j) a2 r2 e2 P2 sigma2.
Proof.
  intros Hdelta Hj Inv.
  destruct (gmw_step_spec n beta delta j a r P e
              (inv_a_shape Inv) (inv_r_shape Inv) (inv_P_shape Inv)
              (inv_e_shape Inv) Hj)
    as (q & a1 & r1 & P1 & theta & a2 & r2 & e2 & E & _ & Hq & Eint
        & _ & _ & _ & _ & Ha2 & Hr2 & He2 & Hge & Hgr & Hga).
  destruct (interchange_R n j q a r P
              (inv_a_shape Inv) (inv_r_shape Inv) (inv_P_shape Inv))
    as (a1' & r1' & P1' & Eint' & Ha1 & Hr1 & HP1 & Hga1 & Hgr1 & HgP1);
    [lia | lia |].
  rewrite Eint in Eint'. inversion Eint'; subst a1' r1' P1'. clear Eint'.
  set (tb := div theta beta) in *.
  set (dj := pymax (pymax (absv (get2 a1 j j)) (mul tb tb)) delta) in *.
  cbv zeta in Hge, Hgr, Hga.
  set (s := sqrt_ dj) in *.
  assert (Hdj : 0 < dj /\ Rabs (get2 a1 j j) <= dj).
  { unfold dj. split.
    - pose proof (pymax_ge_r (pymax (absv (get2 a1 j j)) (mul tb tb)) delta). lra.
    - pose proof (pymax_ge_l (pymax (absv (get2 a1 j j)) (mul tb tb)) delta).
      pose proof (pymax_ge_l (absv (get2 a1 j j)) (mul tb tb)).
      simpl in *. lra. }
  destruct Hdj as [Hdpos Hdabs].
  assert (Hs : 0 < s /\ s * s = dj).
  { unfold s. simpl. split; [apply sqrt_lt_R0; assumption|].
    apply sqrt_sqrt. lra. }
  destruct Hs as [Hspos Hss].
  pose (t := tau j q).
  assert (Ht_bound : forall x, (x < n)%nat -> (t x < n)%nat).
  { intros x Hx. apply tau_bound; lia. }
  assert (Ht_low : forall x, (x < j)%nat -> t x = x).
  { intros x Hx. apply tau_low; lia. }
  assert (Ht_high : forall x, (j <= x)%nat -> (j <= t x)%nat).
  { intros x Hx. apply tau_high; lia. }
  (* the permuted matrix, its trailing block and its rows before the update *)
  assert (Hschur1 : forall x y, (j <= x < n)%nat -> (j <= y < n)%nat ->
             get2 a1 x y
             = get2 A (sigma (t x)) (sigma (t y))
               - sum_n j (fun m => get2 r1 m x * get2 r1 m y)).
  { intros x y Hx Hy. rewrite Hga1 by lia.
    rewrite (inv_schur Inv) by (split; [apply Ht_high | apply Ht_bound]; lia).
    f_equal. apply sum_n_ext. intros m Hm. rewrite !Hgr1 by lia. reflexivity. }
  assert (Hsym1 : forall x y, (x < n)%nat -> (y < n)%nat ->
                              get2 a1 x y = get2 a1 y x).
  { intros x y Hx Hy. rewrite !Hga1 by lia.
    apply (inv_a_sym Inv); apply Ht_bound; assumption. }
  assert (Hr2_old : forall m x, (m <> j)%nat -> get2 r2 m x = get2 r1 m x).
  { intros m x Hm. rewrite Hgr. nat_cases; try lia; reflexivity. }
  assert (Hr2_jj : get2 r2 j j = s).
  { rewrite Hgr. nat_cases; try lia; reflexivity. }
  assert (Hr2_j : forall y, (j < y < n)%nat -> get2 r2 j y = get2 a1 j y / s).
  { intros y Hy. rewrite Hgr. nat_cases; try lia; reflexivity. }
  assert (Ha2_new : forall x y, (j < x < n)%nat -> (j < y < n)%nat ->
             get2 a2 x y = get2 a1 x y - get2 r2 j x * get2 r2 j y).
  { intros x y Hx Hy. rewrite Hga, !Hr2_j by lia.
    destruct (Nat.ltb_spec j x); [|lia]. destruct (Nat.ltb_spec x n); [|lia].
    destruct (Nat.ltb_spec j y); [|lia]. destruct (Nat.ltb_spec y n); [|lia].
    simpl. destruct (Nat.leb_spec x y); simpl.
    - ring.
    - rewrite (Hsym1 y x) by lia. ring. }
  assert (Ha2_old : forall x y, (x <= j)%nat \/ (y <= j)%nat ->
                                get2 a2 x y = get2 a1 x y).
  { intros x y Hxy. rewrite Hga. nat_cases; try lia; reflexivity. }
  exists a2, r2, e2, P1, (fun y => sigma (t y)).
  split; [exact E|].
  constructor.
  - exact Ha2.
  - exact Hr2.
  - exact HP1.
  - exact He2.
  - intros y Hy. apply (inv_sigma_bound Inv), Ht_bound, Hy.
  - intros y y' Hy Hy' Heq.
    apply (inv_sigma_inj Inv) in Heq; try (apply Ht_bound; assumption).
    unfold t in Heq. rewrite <- (tau_involutive j q y), Heq.
    apply tau_involutive.
  - intros x y Hx Hy. rewrite HgP1. apply (inv_P Inv); [assumption|].
    apply Ht_bound, Hy.
  - intros x y Hx Hy.
    destruct (Nat.le_gt_cases x j) as [Hxj|Hxj];
      [|destruct (Nat.le_gt_cases y j) as [Hyj|Hyj]].
    + rewrite !Ha2_old by lia. apply Hsym1; assumption.
    + rewrite !Ha2_old by lia. apply Hsym1; assumption.
    + rewrite !Ha2_new by lia. rewrite (Hsym1 x y) by lia. ring.
  - intros x y Hx Hy Hcase.
    destruct (Nat.eq_dec x j) as [->|Hxj].
    + assert (y < j)%nat as Hyj by lia.
      rewrite Hgr. nat_cases; try lia.
      rewrite Hgr1 by lia. fold t. rewrite Ht_low by lia.
      apply (inv_r_zero Inv); lia.
    + rewrite Hr2_old by assumption. rewrite Hgr1 by lia.
      apply (inv_r_zero Inv); try assumption; [apply Ht_bound, Hy|].
      destruct (Nat.le_gt_cases j x); [right; lia|].
      left. fold t. rewrite Ht_low by lia. lia.
  - intros x y Hx Hy.
    rewrite Ha2_new, Hschur1 by lia. rewrite sum_n_S.
    rewrite (sum_n_ext j (fun m => get2 r2 m x * get2 r2 m y)
                       (fun m => get2 r1 m x * get2 r1 m y)).
    + ring.
    + intros m Hm. rewrite !Hr2_old by lia. reflexivity.
  - intros x y Hx Hy.
    destruct (Nat.eq_dec x j) as [->|Hxj].
    + (* the row just computed *)
      rewrite sum_n_S, Hr2_jj.
      rewrite (sum_n_ext j (fun m => get2 r2 m j * get2 r2 m y)
                         (fun m => get2 r1 m j * get2 r1 m y))
        by (intros m Hm; rewrite !Hr2_old by lia; reflexivity).
      pose proof (Hschur1 j y ltac:(lia) ltac:(lia)) as Hs1.
      destruct (Nat.eqb_spec j y) as [<-|Hne].
      * rewrite Hr2_jj, Hge, Nat.eqb_refl. simpl. lra.
      * rewrite Hr2_j by lia. field_simplify; [lra | lra].
    + (* the rows computed before *)
      assert (x < j)%nat as Hxlt by lia.
      rewrite (Ht_low x) by assumption.
      assert (Hty : (x <= t y < n)%nat /\ ((x =? t y)%nat = (x =? y)%nat)).
      { destruct (Nat.lt_ge_cases y j) as [Hyj|Hyj].
        - rewrite Ht_low by assumption. split; [lia | reflexivity].
        - pose proof (Ht_high y Hyj). pose proof (Ht_bound y ltac:(lia)).
          split; [lia|].
          destruct (Nat.eqb_spec x (t y)), (Nat.eqb_spec x y); try lia; reflexivity. }
      destruct Hty as [Hty Heqb].
      rewrite (inv_done Inv x (t y)) by (assumption || lia).
      rewrite Heqb, Hge.
      destruct (Nat.eqb_spec x j); [lia|].
      f_equal. apply sum_n_ext. intros m Hm.
      rewrite !Hr2_old by lia. rewrite !Hgr1 by lia. fold t.
      rewrite (Ht_low x) by assumption. reflexivity.
  - intros m Hm. destruct (Nat.eq_dec m j) as [->|Hne].
    + rewrite Hr2_jj. exact Hspos.
    + rewrite Hr2_old by assumption. rewrite Hgr1 by lia. fold t.
      rewrite Ht_low by lia. apply (inv_diag_pos Inv). lia.
  - intros m Hm. rewrite Hge. destruct (Nat.eqb_spec m j) as [->|Hne].
    + simpl. pose proof (Rle_abs (get2 a1 j j)). lra.
    + apply (inv_e_nonneg Inv). lia.
Qed.

End MainLoopOverR.

Section FactorisationOverR.
Open Scope R_scope.
Variables (n : nat) (A : array2 R).
Hypothesis A_square : square n A.
Hypothesis A_symmetric : symmetric2 A.

(** The whole of [gmw_cholesky]: it returns, and the invariant holds of the
    final state, together with any further property [X] of the states that
    the iterations preserve. *)
Lemma gmw_cholesky_inv
      (X : R -> R -> nat -> array2 R * array2 R * array1 R * array2 R -> Prop) :
  (forall gamma xi,
      gamma_xi A n = Ok (gamma, xi) ->
      X gamma xi 0%nat (np_scale one A, np_scale zero A, np_zeros1 n, np_eye n)) ->
  (forall gamma xi j a r e P sigma s',
      gamma_xi A n = Ok (gamma, xi) -> (j < n)%nat ->
      gmw_inv n A j a r e P sigma -> X gamma xi j (a, r, e, P) ->
      gmw_step n (calc_beta n gamma xi) (calc_delta gamma xi) j (a, r, e, P)
      = Ok s' ->
      X gamma xi (S j) s') ->
  exists P r e sigma a gamma xi,
    gamma_xi A n = Ok (gamma, xi)
    /\ gmw_cholesky A = Ok (P, transpose r, e)
    /\ gmw_inv n A n a r e P sigma
    /\ X gamma xi n (a, r, e, P).
Proof.
  intros HX0 HXstep. unfold gmw_cholesky.
  replace (nrows A) with n by (symmetry; apply A_square).
  destruct (gamma_xi_inv n A (fun _ _ _ => True) A_square I
              (fun _ _ _ _ _ _ _ => I)) as (gamma & xi & Eg & _).
  rewrite Eg. cbn [bind].
  set (delta := calc_delta gamma xi). set (beta := calc_beta n gamma xi).
  destruct (for_range_inv
              (fun (j : nat) (s : array2 R * array2 R * array1 R * array2 R) =>
                 (let '(a, r, e, P) := s in
                  exists sigma, gmw_inv n A j a r e P sigma)
                 /\ X gamma xi j s)
              (gmw_step n beta delta) 0%nat n
              (np_scale one A, np_scale zero A, np_zeros1 n, np_eye n))
    as ([[[a r] e] P] & E & (sigma & Inv) & HX).
  - lia.
  - split; [|apply HX0; exact Eg].
    exists (fun y => y). apply gmw_inv_init; assumption.
  - intros j [[[a r] e] P] Hj ((sigma & Inv) & HX).
    destruct (gmw_step_inv n A beta delta j a r P e sigma)
      as (a2 & r2 & e2 & P2 & sigma2 & E2 & Inv2);
      [apply calc_delta_pos | lia | exact Inv |].
    exists (a2, r2, e2, P2). split; [exact E2|]. split.
    + exists sigma2. exact Inv2.
    + apply (HXstep gamma xi j a r e P sigma); try assumption. lia.
  - rewrite E. cbn [bind]. exists P, r, e, sigma, a, gamma, xi.
    split; [reflexivity|]. split; [reflexivity|]. split; assumption.
Qed.

(** [P.T @ A @ P] is [A] with rows and columns rearranged by [sigma]. *)
Lemma permuted_R (P : array2 R) (sigma : nat -> nat) :
  square n P ->
  (forall y, (y < n)%nat -> (sigma y < n)%nat) ->
  (forall x y, (x < n)%nat -> (y < n)%nat ->
               get2 P x y = if (x =? sigma y)%nat then 1 else 0) ->
  exists B, permuted A P = Ok B
            /\ square n B
            /\ forall x y, (x < n)%nat -> (y < n)%nat ->
                           get2 B x y = get2 A (sigma x) (sigma y).
Proof.
  intros [HrP HcP] Hb HP. destruct A_square as [HrA HcA].
  unfold permuted, np_dot. rewrite HcA, HrP, Nat.eqb_refl. cbn [bind].
  simpl. rewrite HrP, HrA, HcP, Nat.eqb_refl.
  eexists. split; [reflexivity|]. split; [split; reflexivity|].
  intros x y Hx Hy. simpl.
  rewrite (sum_n_ext n _ (fun k => get2 P k x * get2 A k (sigma y))).
  - rewrite (sum_n_single n (sigma x)).
    + rewrite HP by auto. rewrite Nat.eqb_refl. ring.
    + auto.
    + intros m Hm Hne. rewrite HP by auto.
      destruct (Nat.eqb_spec m (sigma x)); [contradiction | ring].
  - intros k Hk. f_equal.
    rewrite (sum_n_single n (sigma y)).
    + rewrite HP by auto. rewrite Nat.eqb_refl. ring.
    + auto.
    + intros m Hm Hne. rewrite HP by auto.
      destruct (Nat.eqb_spec m (sigma y)); [contradiction | ring].
Qed.

(** [L @ L.T - np.diag(e)] for [L = r.T], entry by entry. *)
Lemma recomposed_R (r : array2 R) (e : array1 R) :
  square n r -> len1 e = n ->
  exists C, recomposed (transpose r) e = Ok C
            /\ square n C
            /\ forall x y, get2 C x y
                           = sum_n n (fun m => get2 r m x * get2 r m y)
                             - (if (x =? y)%nat then get1 e x else 0).
Proof.
  intros [Hr Hc] He. unfold recomposed, np_dot. simpl.
  rewrite Nat.eqb_refl. cbn [bind]. unfold np_sub, same_shape. simpl.
  rewrite Hc, He, Nat.eqb_refl. simpl.
  eexists. split; [reflexivity|]. split; [split; reflexivity|].
  intros x y. simpl. rewrite Hr. reflexivity.
Qed.

(** The factorisation identity, from the final invariant. *)
Lemma factorisation_identity (a r : array2 R) (e : array1 R) (P : array2 R)
      (sigma : nat -> nat) :
  gmw_inv n A n a r e P sigma ->
  forall x y, (x < n)%nat -> (y < n)%nat ->
    get2 A (sigma x) (sigma y)
    = sum_n n (fun m => get2 r m x * get2 r m y)
      - (if (x =? y)%nat then get1 e x else 0).
Proof.
  intros Inv.
  assert (Hle : forall x y, (x <= y)%nat -> (y < n)%nat ->
            get2 A (sigma x) (sigma y)
            = sum_n n (fun m => get2 r m x * get2 r m y)
              - (if (x =? y)%nat then get1 e x else 0)).
  { intros x y Hxy Hy.
    rewrite (inv_done Inv x y) by lia. f_equal.
    symmetry. apply sum_n_truncate; [lia|].
    intros m Hm. rewrite (inv_r_zero Inv m x) by lia. ring. }
  intros x y Hx Hy. destruct (Nat.le_gt_cases x y) as [Hxy|Hxy].
  - apply Hle; assumption.
  - destruct A_square as [HrA HcA].
    rewrite (A_symmetric (sigma x) (sigma y))
      by (rewrite ?HrA, ?HcA; apply (inv_sigma_bound Inv); assumption).
    rewrite (Hle y x) by lia.
    destruct (Nat.eqb_spec y x), (Nat.eqb_spec x y); try lia.
    f_equal. apply sum_n_ext. intros m Hm. ring.
Qed.

End FactorisationOverR.

(** ** Claims about the modified Cholesky factorisation *)

(** C1, as the code behaves.  In exact arithmetic, for every symmetric
    [n] x [n] matrix [A], [gmw_cholesky A] returns [(P, L, e)] where [P] is
    a permutation matrix, [L] is lower triangular with a strictly positive
    diagonal, every entry of [e] is non-negative, and
    [P.T @ A @ P = L @ L.T - diag(e)] holds exactly. *)
Theorem gmw_cholesky_factorisation :
  forall (n : nat) (A : array2 R),
    nrows A = n -> ncols A = n -> symmetric2 A ->
    exists P L e B C,
      gmw_cholesky A = Ok (P, L, e)
      /\ permutation_matrix n P
      /\ lower_triangular_positive n L
      /\ len1 e = n
      /\ (forall i, i < n -> (0 <= get1 e i)%R)
      /\ permuted A P = Ok B
      /\ recomposed L e = Ok C
      /\ (nrows B = n /\ ncols B = n) /\ (nrows C = n /\ ncols C = n)
      /\ forall x y, x < n -> y < n -> get2 B x y = get2 C x y.
Proof.
  intros n A Hr Hc Hsym.
  assert (Hsq : square n A) by (split; assumption).
  destruct (gmw_cholesky_inv n A Hsq Hsym (fun _ _ _ _ => True))
    as (P & r & e & sigma & a & gamma & xi & _ & E & Inv & _); auto.
  destruct (permuted_R n A Hsq P sigma (inv_P_shape Inv) (inv_sigma_bound Inv)
              (inv_P Inv)) as (B & EB & HsB & HB).
  destruct (recomposed_R n r e (inv_r_shape Inv) (inv_e_shape Inv))
    as (C & EC & HsC & HC).
  exists P, (transpose r), e, B, C.
  split; [exact E|].
  split.
  { destruct (inv_P_shape Inv) as [HrP HcP].
    split; [exact HrP|]. split; [exact HcP|].
    exists sigma. split; [apply (inv_sigma_bound Inv)|].
    split; [apply (inv_sigma_inj Inv) | apply (inv_P Inv)]. }
  split.
  { destruct (inv_r_shape Inv) as [Hrr Hcr].
    split; [exact Hcr|]. split; [exact Hrr|]. split.
    - intros x y Hxy. simpl. apply (inv_r_zero Inv); lia.
    - intros x Hx. simpl. apply (inv_diag_pos Inv). exact Hx. }
  split; [apply (inv_e_shape Inv)|].
  split; [apply (inv_e_nonneg Inv)|].
  split; [exact EB|]. split; [exact EC|].
  split; [exact HsB|]. split; [exact HsC|].
  intros x y Hx Hy. rewrite HB, HC by assumption.
  apply (factorisation_identity n A Hsq Hsym a r e P sigma Inv); assumption.
Qed.


Lemma test_matrix_R_symmetric : symmetric2 test_matrix_R.
Proof.
  intros x y Hx Hy. simpl in Hx, Hy.
  destruct x as [|[|[|x]]], y as [|[|[|y]]]; try lia; reflexivity.
Qed.

Lemma gmw_cholesky_factorisation_witness :
  exists P L e B C,
    gmw_cholesky test_matrix_R = Ok (P, L, e)
    /\ permutation_matrix 3 P
    /\ lower_triangular_positive 3 L
    /\ len1 e = 3
    /\ (forall i, i < 3 -> (0 <= get1 e i)%R)
    /\ permuted test_matrix_R P = Ok B
    /\ recomposed L e = Ok C
    /\ (nrows B = 3 /\ ncols B = 3) /\ (nrows C = 3 /\ ncols C = 3)
    /\ forall x y, x < 3 -> y < 3 -> get2 B x y = get2 C x y.
Proof.
  apply (gmw_cholesky_factorisation 3 test_matrix_R);
    [reflexivity | reflexivity | exact test_matrix_R_symmetric].
Defined.


(** C1 as stated fails in binary64: for the 1 x 1 matrix [[2e9]] the factor
    is [sqrt 2e9], whose square is 2000000000.0000002, and the two sides of
    the identity differ by more than 2e-7. *)
Lemma tolerance_1e_8_exceeded :
  to_rows_result (match gmw_cholesky (of_rows [[2e9]]%float) with
                  | Ok (P, L, e) => Ok L
                  | Raise x => Raise x
                  end)
  = Ok [[44721.359549995796]]%float
  /\ residual_00 (of_rows [[2e9]]%float) = Ok 2.384185791015625e-07%float
  /\ PrimFloat.ltb 1e-8 2.384185791015625e-07 = true.
Proof. repeat split; vm_compute; reflexivity. Qed.

Section Thresholds.
Open Scope R_scope.
Variables (n : nat) (A : array2 R).
Hypothesis A_square : square n A.
Hypothesis A_symmetric : symmetric2 A.

(** The running maximum of line 88 over the rest of a row. *)
Lemma xi_row (i : nat) :
  forall (l : list nat) (x : R),
    (forall j, In j l -> (i < j < n)%nat) ->
    (forall i' j, (i' < j < n)%nat -> (i' < i)%nat -> Rabs (get2 A i' j) <= x) ->
    (x = 0 \/ exists i' j, (i' < j < n)%nat /\ x = Rabs (get2 A i' j)) ->
    let x' := fold_left (fun x j => pymax (absv (get2 A i j)) x) l x in
    x <= x'
    /\ (forall j, In j l -> Rabs (get2 A i j) <= x')
    /\ (x' = 0 \/ exists i' j, (i' < j < n)%nat /\ x' = Rabs (get2 A i' j)).
Proof.
  induction l as [|j l IH]; intros x Hl Hle Hat; cbn [fold_left].
  - split; [lra|]. split; [intros j []|exact Hat].
  - assert (Hp1 : x <= pymax (absv (get2 A i j)) x) by apply pymax_ge_r.
    assert (Hp2 : Rabs (get2 A i j) <= pymax (absv (get2 A i j)) x)
      by exact (pymax_ge_l (absv (get2 A i j)) x).
    destruct (IH (pymax (absv (get2 A i j)) x)) as (H1 & H2 & H3).
    + intros k Hk. apply Hl. right. exact Hk.
    + intros i' k Hik Hi'. specialize (Hle i' k Hik Hi'). lra.
    + rewrite pymax_R. simpl. unfold Rmax.
      destruct (Rle_dec (Rabs (get2 A i j)) x); [exact Hat|].
      right. exists i, j. split; [apply Hl; left; reflexivity | reflexivity].
    + cbv zeta in H1, H2, H3. split; [lra|]. split; [|exact H3].
      intros k [<-|Hk]; [lra | apply H2, Hk].
Qed.

(** [gamma] and [xi] are the largest absolute values on and above the
    diagonal. *)
Lemma gamma_xi_R :
  exists gamma xi,
    gamma_xi A n = Ok (gamma, xi)
    /\ largest_diagonal n A gamma /\ largest_off_diagonal n A xi.
Proof.
  destruct (gamma_xi_inv n A
              (fun i g x =>
                 ((forall k, (k < i)%nat -> Rabs (get2 A k k) <= g)
                  /\ (g = 0 \/ exists k, (k < n)%nat /\ g = Rabs (get2 A k k)))
                 /\ (forall i' j, (i' < j < n)%nat -> (i' < i)%nat ->
                                  Rabs (get2 A i' j) <= x)
                 /\ (x = 0 \/ exists i' j, (i' < j < n)%nat
                                           /\ x = Rabs (get2 A i' j)))
              A_square) as (gamma & xi & E & (Hg1 & Hg2) & Hx1 & Hx2).
  - simpl. repeat split; try (intros; lia); left; reflexivity.
  - intros i g x x' Hi ((Hg1 & Hg2) & Hx1 & Hx2) Ex'.
    split; [split|].
    + intros k Hk. rewrite pymax_R. simpl.
      destruct (Nat.eq_dec k i) as [->|Hne]; [apply Rmax_l|].
      specialize (Hg1 k ltac:(lia)).
      pose proof (Rmax_r (Rabs (get2 A i i)) g). lra.
    + rewrite pymax_R. simpl. unfold Rmax.
      destruct (Rle_dec (Rabs (get2 A i i)) g); [exact Hg2|].
      right. exists i. split; [exact Hi | reflexivity].
    + destruct (xi_row i (seq (i + 1) (n - (i + 1))) x) as (H1 & H2 & H3);
        [| exact Hx1 | exact Hx2 |].
      { intros j Hj. apply in_seq in Hj. lia. }
      cbv zeta in H1, H2, H3. rewrite <- Ex' in H1, H2, H3.
      split; [|exact H3].
      intros i' j Hij Hi'. destruct (Nat.eq_dec i' i) as [->|Hne].
      * apply H2, in_seq. lia.
      * specialize (Hx1 i' j Hij ltac:(lia)). lra.
  - exists gamma, xi. split; [exact E|]. split.
    + split; [exact Hg1 | exact Hg2].
    + split; [|exact Hx2]. intros i j Hij. apply (Hx1 i j Hij). lia.
Qed.

(** An iteration of the main loop writes a row that obeys the pivot rule,
    and the interchange keeps the rule for the rows written before. *)
Lemma pivot_step (beta delta : R) (j : nat) (a r P : array2 R) (e : array1 R)
      (sigma : nat -> nat) (s' : array2 R * array2 R * array1 R * array2 R) :
  0 < delta -> (j < n)%nat ->
  gmw_inv n A j a r e P sigma ->
  pivots_ruled n beta delta j r e ->
  gmw_step n beta delta j (a, r, e, P) = Ok s' ->
  let '(a2, r2, e2, P2) := s' in pivots_ruled n beta delta (S j) r2 e2.
Proof.
  intros Hdelta Hj Inv Hb E.
  destruct (gmw_step_spec n beta delta j a r P e
              (inv_a_shape Inv) (inv_r_shape Inv) (inv_P_shape Inv)
              (inv_e_shape Inv) Hj)
    as (q & a1 & r1 & P1 & theta & a2 & r2 & e2 & E' & Eq & Hq & Eint
        & Ha1 & _ & _ & Eth & _ & _ & _ & Hge & Hgr & Hga).
  rewrite E' in E. inversion E; subst s'; clear E.
  destruct (interchange_R n j q a r P
              (inv_a_shape Inv) (inv_r_shape Inv) (inv_P_shape Inv))
    as (a1' & r1' & P1' & Eint' & _ & _ & _ & _ & Hgr1 & _); [lia | lia |].
  rewrite Eint in Eint'. inversion Eint'; subst a1' r1' P1'. clear Eint'.
  (* theta_j is the largest entry of row j of the trailing block *)
  destruct (calc_theta_inv n a1 j
              (fun i th =>
                 (forall y, (j < y < i)%nat -> Rabs (get2 a1 j y) <= th)
                 /\ (th = 0 \/ exists y, (j < y < n)%nat
                                         /\ th = Rabs (get2 a1 j y)))
              Ha1 Hj) as (theta' & Eth' & Hth & Hat).
  { split; [intros y Hy; lia | left; reflexivity]. }
  { intros i th Hi [Hy Hat]. rewrite pymax_R. simpl. split.
    - intros y Hyi. destruct (Nat.eq_dec y i) as [->|Hne].
      + apply Rmax_r.
      + specialize (Hy y ltac:(lia)).
        pose proof (Rmax_l th (Rabs (get2 a1 j i))). lra.
    - unfold Rmax. destruct (Rle_dec th (Rabs (get2 a1 j i))).
      + right. exists i. split; [lia | reflexivity].
      + exact Hat. }
  rewrite Eth in Eth'. inversion Eth'; subst theta'. clear Eth'.
  set (tb := div theta beta) in *.
  set (dj := pymax (pymax (absv (get2 a1 j j)) (mul tb tb)) delta) in *.
  cbv zeta in Hgr, Hge.
  assert (Edj : dj = Rmax (Rmax (Rabs (get2 a1 j j))
                                (theta / beta * (theta / beta))) delta).
  { unfold dj, tb. rewrite !pymax_R. reflexivity. }
  assert (Hd1 : delta <= dj) by (rewrite Edj; apply Rmax_r).
  assert (Hs : 0 < sqrt dj) by (apply sqrt_lt_R0; lra).
  assert (Hsq : sqrt dj * sqrt dj = dj) by (apply sqrt_sqrt; lra).
  assert (Hrow : forall y, (j < y < n)%nat ->
                           Rabs (get2 r2 j y) * get2 r2 j j
                           = Rabs (get2 a1 j y)).
  { intros y Hy. rewrite !Hgr. nat_cases; try lia.
    unfold Rdiv. rewrite Rabs_mult, Rabs_inv, (Rabs_pos_eq (sqrt dj)) by lra.
    field. lra. }
  intros m Hm. destruct (Nat.eq_dec m j) as [->|Hne].
  - (* the row just written *)
    exists theta. split; [|split].
    + intros y Hy. rewrite Hrow by exact Hy. apply Hth. lia.
    + destruct Hat as [->|(y & Hy & ->)]; [left; reflexivity|].
      right. exists y. split; [exact Hy|]. symmetry. apply Hrow, Hy.
    + assert (Ejj : get2 r2 j j = sqrt dj).
      { rewrite Hgr. nat_cases; try lia; reflexivity. }
      rewrite Ejj, Hsq, Hge, Nat.eqb_refl. simpl.
      replace (dj - (dj - get2 a1 j j)) with (get2 a1 j j) by ring.
      exact Edj.
  - (* the rows written before *)
    assert (Hmj : (m < j)%nat) by lia.
    destruct (Hb m Hmj) as (th & Hle & Hatt & Hrule).
    assert (Hold : forall y, (y < n)%nat -> get2 r2 m y = get2 r m (tau j q y)).
    { intros y Hy. rewrite Hgr. nat_cases; try lia; apply Hgr1, Hy. }
    assert (Hmm : get2 r2 m m = get2 r m m).
    { rewrite Hold by lia. rewrite tau_low by lia. reflexivity. }
    assert (Hrange : forall y, (m < y < n)%nat -> (m < tau j q y < n)%nat).
    { intros y Hy. destruct (Nat.lt_ge_cases y j) as [Hyj|Hyj].
      - rewrite tau_low by lia. lia.
      - pose proof (tau_high j q y Hyj ltac:(lia)).
        pose proof (tau_bound n j q y ltac:(lia) ltac:(lia) ltac:(lia)). lia. }
    exists th. split; [|split].
    + intros y Hy. rewrite Hmm, Hold by lia. apply Hle, Hrange, Hy.
    + destruct Hatt as [->|(y & Hy & ->)]; [left; reflexivity|].
      right. exists (tau j q y). split; [apply Hrange, Hy|].
      rewrite Hmm, Hold by (apply Hrange, Hy). rewrite tau_involutive.
      reflexivity.
    + rewrite Hmm, Hge. destruct (Nat.eqb_spec m j); [lia|]. exact Hrule.
Qed.

(** The whole factorisation obeys the pivot rule, with the thresholds
    computed from [gamma] and [xi]. *)
Lemma gmw_cholesky_pivots :
  exists gamma xi P r e sigma a,
    gamma_xi A n = Ok (gamma, xi)
    /\ gmw_cholesky A = Ok (P, transpose r, e)
    /\ gmw_inv n A n a r e P sigma
    /\ pivots_ruled n (calc_beta n gamma xi) (calc_delta gamma xi) n r e.
Proof.
  destruct (gmw_cholesky_inv n A A_square A_symmetric
              (fun gamma xi j s =>
                 let '(a, r, e, P) := s in
                 pivots_ruled n (calc_beta n gamma xi) (calc_delta gamma xi)
                              j r e))
    as (P & r & e & sigma & a & gamma & xi & Eg & E & Inv & Hb).
  - intros gamma xi _ m Hm. lia.
  - intros gamma xi j a r e P sigma s' _ Hj Inv HX Es.
    apply (pivot_step (calc_beta n gamma xi) (calc_delta gamma xi)
                      j a r P e sigma s'); try assumption.
    apply calc_delta_pos.
  - exists gamma, xi, P, r, e, sigma, a. auto.
Qed.

End Thresholds.

(** The thresholds in closed form. *)
Lemma calc_delta_R (gamma xi : R) :
  calc_delta gamma xi = (R_eps * Rmax (gamma + xi) 1)%R.
Proof. unfold calc_delta, _EPS. rewrite pymax_R. reflexivity. Qed.

Lemma calc_beta_R (n : nat) (gamma xi : R) :
  calc_beta n gamma xi
  = if n =? 1
    then sqrt (Rmax gamma R_eps)
    else sqrt (Rmax (Rmax gamma (xi / sqrt (INR n ^ 2 - 1))) R_eps).
Proof.
  assert (Hsq : (INR (n * n) = INR n ^ 2)%R) by (rewrite mult_INR; ring).
  unfold calc_beta, _EPS. destruct (n =? 1).
  - rewrite pymax_R. reflexivity.
  - rewrite !pymax_R. simpl sub. simpl div. simpl of_nat. simpl sqrt_.
    simpl one. simpl finfo_eps. rewrite Hsq. reflexivity.
Qed.

(** C8.  [gmw_cholesky] raises no exception on any square array, whatever
    the arithmetic and whatever the size, size one included.  In exact
    arithmetic, on every symmetric [A], the factor it returns is the one
    the thresholds [delta = eps * max(gamma + xi, 1)] and
    [beta = sqrt (max(gamma, xi / sqrt(n^2 - 1), eps))] (for [n = 1]:
    [beta = sqrt (max(gamma, eps))]) determine, [gamma] and [xi] being the
    largest absolute values on and above the diagonal of [A]: every pivot
    [L[j,j]^2] is [max(|a_jj|, (theta_j / beta)^2, delta)]; and the three
    divisors of the algorithm, [sqrt(n^2 - 1)] for [n > 1], [beta] and
    [L[j,j]], are positive.  For a 1 x 1 input, in every arithmetic, the
    result is built from [beta = sqrt (max(gamma, eps))]: no quotient by
    [sqrt(n^2 - 1)] enters it. *)
Theorem gmw_cholesky_thresholds_and_totality :
  (forall (T : Type) (num : Num T) (n : nat) (A : array2 T),
      nrows A = n -> ncols A = n ->
      exists P L e, gmw_cholesky A = Ok (P, L, e))
  /\ (forall (n : nat) (A : array2 R),
         nrows A = n -> ncols A = n -> symmetric2 A ->
         exists gamma xi P L e,
           gmw_cholesky A = Ok (P, L, e)
           /\ largest_diagonal n A gamma
           /\ largest_off_diagonal n A xi
           /\ let delta := (R_eps * Rmax (gamma + xi) 1)%R in
              let beta :=
                if n =? 1
                then sqrt (Rmax gamma R_eps)
                else sqrt (Rmax (Rmax gamma (xi / sqrt (INR n ^ 2 - 1))) R_eps) in
              (forall j, j < n -> pivot_rule n beta delta L e j)
              /\ (1 < n -> (0 < sqrt (INR n ^ 2 - 1))%R)
              /\ (0 < beta)%R /\ (0 < delta)%R
              /\ (forall j, j < n -> (0 < get2 L j j)%R))
  /\ (forall (T : Type) (num : Num T) (A : array2 T),
         nrows A = 1 -> ncols A = 1 ->
         let x := get2 A 0 0 in
         let a := mul one x in
         let gamma := pymax (absv x) zero in
         let delta := mul finfo_eps (pymax (add gamma zero) one) in
         let beta := sqrt_ (pymax gamma finfo_eps) in
         let tb := div zero beta in
         let d := pymax (pymax (absv a) (mul tb tb)) delta in
         gmw_cholesky_rows A = Ok ([[one]], [[sqrt_ d]], [sub d a])).
Proof.
  split; [|split].
  - intros T num n A Hr Hc.
    destruct (gmw_cholesky_total n A (conj Hr Hc)) as (P & L & e & E & _).
    exists P, L, e. exact E.
  - intros n A Hr Hc Hsym.
    assert (Hsq : square n A) by (split; assumption).
    destruct (gmw_cholesky_pivots n A Hsq Hsym)
      as (gamma & xi & P & r & e & sigma & a & Eg & E & Inv & Hp).
    destruct (gamma_xi_R n A Hsq) as (gamma' & xi' & Eg' & Hgam & Hxi).
    rewrite Eg in Eg'. inversion Eg'; subst gamma' xi'. clear Eg'.
    exists gamma, xi, P, (transpose r), e.
    split; [exact E|]. split; [exact Hgam|]. split; [exact Hxi|].
    cbv zeta. rewrite <- calc_delta_R, <- calc_beta_R.
    split; [|split; [|split; [|split]]].
    + intros j Hj. apply (Hp j Hj).
    + intros Hn. apply sqrt_lt_R0.
      assert (2 <= INR n)%R.
      { change 2%R with (INR 2). apply le_INR. lia. }
      nra.
    + apply calc_beta_pos.
    + apply calc_delta_pos.
    + intros j Hj. simpl. apply (inv_diag_pos Inv). exact Hj.
  - intros T num [nr nc g] Hr Hc. simpl in Hr, Hc. subst nr nc.
    unfold gmw_cholesky_rows, gmw_cholesky, gamma_xi, for_range.
    cbn [nrows Nat.sub for_loop].
    unfold item2. cbn [nrows ncols get2 Nat.ltb Nat.leb andb bind].
    unfold for_range. cbn [Nat.add Nat.sub for_loop bind].
    unfold gmw_step, find_pivot, for_range.
    cbn [Nat.add Nat.sub for_loop bind].
    rewrite interchange_same. cbn [bind].
    unfold calc_theta. cbn [Nat.sub Nat.ltb Nat.leb bind].
    unfold item2, np_scale. cbn [nrows ncols get2 Nat.ltb Nat.leb andb bind].
    unfold setitem1, np_zeros1. cbn [len1 get1 Nat.ltb Nat.leb bind].
    unfold setitem2. cbn [nrows ncols get2 Nat.ltb Nat.leb andb bind].
    unfold eliminate, for_range. cbn [Nat.add Nat.sub for_loop bind].
    unfold to_rows, to_list, calc_delta, calc_beta, _EPS.
    cbn [nrows ncols len1 get1 get2 transpose np_eye seq map Nat.eqb andb].
    reflexivity.
Qed.

Lemma gmw_cholesky_thresholds_and_totality_witness :
  (exists P L e, gmw_cholesky (of_rows [[2e9]]%float) = Ok (P, L, e))
  /\ (exists gamma xi P L e,
         gmw_cholesky test_matrix_R = Ok (P, L, e)
         /\ largest_diagonal 3 test_matrix_R gamma
         /\ largest_off_diagonal 3 test_matrix_R xi
         /\ (forall j, j < 3 ->
               pivot_rule 3
                 (sqrt (Rmax (Rmax gamma (xi / sqrt (INR 3 ^ 2 - 1))) R_eps))
                 (R_eps * Rmax (gamma + xi) 1)%R L e j))
  /\ gmw_cholesky_rows (of_rows [[2e9]]%float)
     = Ok ([[1]], [[44721.359549995796]], [0])%float.
Proof.
  split; [|split].
  - apply (proj1 gmw_cholesky_thresholds_and_totality float float_Num 1);
      reflexivity.
  - destruct (proj1 (proj2 gmw_cholesky_thresholds_and_totality)
                3 test_matrix_R eq_refl eq_refl test_matrix_R_symmetric)
      as (gamma & xi & P & L & e & E & Hg & Hx & Hp & _).
    exists gamma, xi, P, L, e. auto.
  - rewrite (proj2 (proj2 gmw_cholesky_thresholds_and_totality)
               float float_Num (of_rows [[2e9]]%float) eq_refl eq_refl).
    vm_compute. reflexivity.
Defined.

(** ** Positive definite input *)

Section QuadraticForms.
Open Scope R_scope.

Lemma sum_n_plus (k : nat) (f g : nat -> R) :
  sum_n k (fun m => f m + g m) = sum_n k f + sum_n k g.
Proof.
  induction k as [|k IH]; [rewrite !sum_n_0; ring|].
  rewrite !sum_n_S, IH. ring.
Qed.

Lemma sum_n_scal (k : nat) (c : R) (f : nat -> R) :
  sum_n k (fun m => c * f m) = c * sum_n k f.
Proof.
  induction k as [|k IH]; [rewrite !sum_n_0; ring|].
  rewrite !sum_n_S, IH. ring.
Qed.

Lemma sum_n_le (k : nat) (f g : nat -> R) :
  (forall m, (m < k)%nat -> f m <= g m) -> sum_n k f <= sum_n k g.
Proof.
  induction k as [|k IH]; intros Hfg; [rewrite !sum_n_0; lra|].
  rewrite !sum_n_S.
  specialize (IH (fun m Hm => Hfg m (Nat.lt_lt_succ_r _ _ Hm))).
  specialize (Hfg k (Nat.lt_succ_diag_r k)). lra.
Qed.

(** Exchanging the order of a double sum. *)
Lemma sum_n_exchange (k l : nat) (g : nat -> nat -> R) :
  sum_n k (fun x => sum_n l (fun m => g x m))
  = sum_n l (fun m => sum_n k (fun x => g x m)).
Proof.
  induction k as [|k IH].
  - rewrite sum_n_0. symmetry. apply sum_n_zero. intros. apply sum_n_0.
  - rewrite sum_n_S, IH, <- sum_n_plus.
    apply sum_n_ext. intros m _. rewrite sum_n_S. reflexivity.
Qed.

(** A sum is unchanged when two of its indices are exchanged. *)
Lemma sum_n_tau (n j q : nat) (f : nat -> R) :
  (j < n)%nat -> (q < n)%nat ->
  sum_n n (fun x => f (tau j q x)) = sum_n n f.
Proof.
  intros Hj Hq.
  rewrite (sum_n_ext n _
             (fun x => sum_n n (fun m => (if (m =? tau j q x)%nat then 1 else 0)
                                         * f m))).
  - rewrite sum_n_exchange. apply sum_n_ext. intros m Hm.
    rewrite (sum_n_single n (tau j q m)).
    + rewrite tau_involutive, Nat.eqb_refl. ring.
    + apply tau_bound; assumption.
    + intros x Hx Hne.
      destruct (Nat.eqb_spec m (tau j q x)) as [->|]; [|ring].
      rewrite tau_involutive in Hne. contradiction.
  - intros x Hx. symmetry.
    rewrite (sum_n_single n (tau j q x)).
    + rewrite Nat.eqb_refl. ring.
    + apply tau_bound; assumption.
    + intros m Hm Hne.
      destruct (Nat.eqb_spec m (tau j q x)); [contradiction | ring].
Qed.

Lemma sum_n_ind_l (n c : nat) (f : nat -> R) :
  (c < n)%nat -> sum_n n (fun x => ind c x * f x) = f c.
Proof.
  intros Hc. rewrite (sum_n_single n c); try assumption.
  - unfold ind. rewrite Nat.eqb_refl. ring.
  - intros m Hm Hne. unfold ind.
    destruct (Nat.eqb_spec m c); [contradiction | ring].
Qed.

Lemma sum_n_ind_r (n c : nat) (f : nat -> R) :
  (c < n)%nat -> sum_n n (fun x => f x * ind c x) = f c.
Proof.
  intros Hc. rewrite <- (sum_n_ind_l n c f Hc).
  apply sum_n_ext. intros. ring.
Qed.

Lemma sq_norm_nonneg n y : 0 <= sq_norm n y.
Proof.
  unfold sq_norm. apply sum_n_nonneg. intros m _. nra.
Qed.

(** The quadratic form of [y + t * ind c] when [a] is symmetric. *)
Lemma quad_form_shift (n c : nat) (a : array2 R) (y : nat -> R) (t : R) :
  (c < n)%nat ->
  (forall x k, (x < n)%nat -> (k < n)%nat -> get2 a x k = get2 a k x) ->
  quad_form n a (fun x => y x + t * ind c x)
  = quad_form n a y
    + 2 * t * sum_n n (fun k => get2 a c k * y k)
    + t * t * get2 a c c.
Proof.
  intros Hc Hsym. unfold quad_form.
  rewrite (sum_n_ext n _
             (fun x => (y x * sum_n n (fun k => get2 a x k * y k)
                        + t * (y x * get2 a x c))
                       + (t * (ind c x * sum_n n (fun k => get2 a x k * y k))
                          + t * t * (ind c x * get2 a x c)))).
  - rewrite !sum_n_plus, !sum_n_scal.
    rewrite !(sum_n_ind_l n c) by assumption.
    rewrite (sum_n_ext n (fun x => y x * get2 a x c)
                       (fun k => get2 a c k * y k)).
    + ring.
    + intros x Hx. rewrite (Hsym x c) by assumption. ring.
  - intros x Hx.
    rewrite (sum_n_ext n (fun k => get2 a x k * (y k + t * ind c k))
               (fun k => get2 a x k * y k + t * (get2 a x k * ind c k)))
      by (intros; ring).
    rewrite sum_n_plus, sum_n_scal, (sum_n_ind_r n c) by assumption.
    ring.
Qed.

Lemma sq_norm_shift (n c : nat) (y : nat -> R) (t : R) :
  (c < n)%nat -> y c = 0 ->
  sq_norm n (fun x => y x + t * ind c x) = sq_norm n y + t * t.
Proof.
  intros Hc Hy. unfold sq_norm.
  rewrite (sum_n_ext n _
             (fun x => y x * y x
                       + (2 * t * (ind c x * y x) + t * t * (ind c x * ind c x)))).
  - rewrite !sum_n_plus, !sum_n_scal, !(sum_n_ind_l n c) by assumption.
    rewrite Hy. unfold ind. rewrite Nat.eqb_refl. ring.
  - intros x Hx. ring.
Qed.

(** The quadratic form is unchanged when the matrix and the vector are
    permuted together. *)
Lemma quad_form_tau (n j q : nat) (a a1 : array2 R) (y : nat -> R) :
  (j < n)%nat -> (q < n)%nat ->
  (forall x k, (x < n)%nat -> (k < n)%nat ->
               get2 a1 x k = get2 a (tau j q x) (tau j q k)) ->
  quad_form n a1 y = quad_form n a (fun x => y (tau j q x)).
Proof.
  intros Hj Hq Ha1. unfold quad_form.
  rewrite <- (sum_n_tau n j q
                (fun x => y (tau j q x)
                          * sum_n n (fun k => get2 a x k * y (tau j q k))))
    by assumption.
  apply sum_n_ext. intros x Hx. rewrite tau_involutive. f_equal.
  rewrite <- (sum_n_tau n j q
                (fun k => get2 a (tau j q x) k * y (tau j q k)))
    by assumption.
  apply sum_n_ext. intros k Hk. rewrite tau_involutive, Ha1 by assumption.
  reflexivity.
Qed.

Lemma sq_norm_tau (n j q : nat) (y : nat -> R) :
  (j < n)%nat -> (q < n)%nat ->
  sq_norm n (fun x => y (tau j q x)) = sq_norm n y.
Proof.
  intros Hj Hq. unfold sq_norm.
  apply (sum_n_tau n j q (fun x => y x * y x)); assumption.
Qed.

Lemma quad_form_ind (n c : nat) (a : array2 R) :
  (c < n)%nat -> quad_form n a (ind c) = get2 a c c.
Proof.
  intros Hc. unfold quad_form.
  rewrite (sum_n_ind_l n c) by assumption.
  apply (sum_n_ind_r n c (fun k => get2 a c k)). assumption.
Qed.

Lemma sq_norm_ind (n c : nat) : (c < n)%nat -> sq_norm n (ind c) = 1.
Proof.
  intros Hc. unfold sq_norm. rewrite (sum_n_ind_l n c) by assumption.
  unfold ind. rewrite Nat.eqb_refl. reflexivity.
Qed.

Lemma quad_form_zero (n : nat) (a : array2 R) : quad_form n a (fun _ => 0) = 0.
Proof.
  unfold quad_form. apply sum_n_zero. intros. ring.
Qed.

(** A positive semi-definite symmetric matrix satisfies the Cauchy-Schwarz
    inequality entry by entry. *)
Lemma psd_minor (n i j : nat) (a : array2 R) :
  (i < n)%nat -> (j < n)%nat -> i <> j ->
  (forall x k, (x < n)%nat -> (k < n)%nat -> get2 a x k = get2 a k x) ->
  (forall t u, 0 <= quad_form n a (fun x => (0 + u * ind i x) + t * ind j x)) ->
  0 < get2 a j j ->
  get2 a j i * get2 a j i <= get2 a j j * get2 a i i.
Proof.
  intros Hi Hj Hne Hsym Hpsd Hjj.
  assert (Hq : forall t u,
             quad_form n a (fun x => (0 + u * ind i x) + t * ind j x)
             = u * u * get2 a i i + 2 * t * u * get2 a j i + t * t * get2 a j j).
  { intros t u.
    rewrite (quad_form_shift n j a (fun x => 0 + u * ind i x) t Hj Hsym).
    rewrite (quad_form_shift n i a (fun _ => 0) u Hi Hsym).
    rewrite quad_form_zero.
    rewrite (sum_n_ext n (fun k => get2 a i k * 0) (fun _ => 0)) by (intros; ring).
    rewrite (sum_n_zero n (fun _ => 0)) by reflexivity.
    rewrite (sum_n_ext n (fun k => get2 a j k * (0 + u * ind i k))
                       (fun k => u * (get2 a j k * ind i k))) by (intros; ring).
    rewrite sum_n_scal, (sum_n_ind_r n i (fun k => get2 a j k)) by assumption.
    ring. }
  specialize (Hpsd (- get2 a j i) (get2 a j j)). rewrite Hq in Hpsd.
  assert (0 <= get2 a j j * (get2 a j j * get2 a i i - get2 a j i * get2 a j i))
    by lra.
  nra.
Qed.

End QuadraticForms.

Section PositiveDefinite.
Open Scope R_scope.
Variables (n : nat) (A : array2 R).
Hypothesis A_square : square n A.
Hypothesis A_symmetric : symmetric2 A.

Lemma calc_beta_sq (gamma xi : R) :
  gamma <= calc_beta n gamma xi * calc_beta n gamma xi.
Proof.
  unfold calc_beta, _EPS. rewrite !pymax_R. simpl.
  pose proof eps_pos.
  destruct (n =? 1)%nat.
  - pose proof (Rmax_l gamma R_eps). pose proof (Rmax_r gamma R_eps).
    rewrite sqrt_sqrt by lra. assumption.
  - set (m := Rmax gamma (xi / sqrt (INR (n * n) - 1))).
    pose proof (Rmax_l gamma (xi / sqrt (INR (n * n) - 1))).
    pose proof (Rmax_l m R_eps). pose proof (Rmax_r m R_eps).
    rewrite sqrt_sqrt by lra. fold m in H0. lra.
Qed.

Lemma Rabs_sqr (x : R) : Rabs x * Rabs x = x * x.
Proof. rewrite <- Rabs_mult. apply Rabs_pos_eq. nra. Qed.

(** On a trailing block that is positive definite with margin [delta], and
    whose diagonal is at most [gamma <= beta^2], an iteration records no
    shift and leaves a trailing block with the same properties. *)
Lemma pd_step (beta delta gamma : R) (j : nat) (a r P : array2 R) (e : array1 R)
      (sigma : nat -> nat) (s' : array2 R * array2 R * array1 R * array2 R) :
  0 < delta -> 0 < beta -> gamma <= beta * beta -> (j < n)%nat ->
  gmw_inv n A j a r e P sigma ->
  pd_state n gamma delta j a e ->
  gmw_step n beta delta j (a, r, e, P) = Ok s' ->
  let '(a2, r2, e2, P2) := s' in pd_state n gamma delta (S j) a2 e2.
Proof.
  intros Hdelta Hbeta Hgb Hj Inv (He0 & Hpd & Hdiag) E.
  destruct (gmw_step_spec n beta delta j a r P e
              (inv_a_shape Inv) (inv_r_shape Inv) (inv_P_shape Inv)
              (inv_e_shape Inv) Hj)
    as (q & a1 & r1 & P1 & theta & a2 & r2 & e2 & E' & Eq & Hq & Eint
        & _ & _ & _ & Eth & _ & _ & _ & Hge & Hgr & Hga).
  rewrite E' in E. inversion E; subst s'; clear E.
  (* the pivot has the largest diagonal entry of the trailing block *)
  destruct (find_pivot_inv n a j
              (fun i q0 => forall x, (j <= x < i)%nat ->
                                     Rabs (get2 a x x) <= Rabs (get2 a q0 q0))
              (inv_a_shape Inv) Hj) as (q' & Eq' & _ & Hmax).
  { intros x Hx. replace x with j by lia. lra. }
  { intros i q0 Hi Hq0 HQ x Hx. simpl.
    destruct (Rle_dec (Rabs (get2 a q0 q0)) (Rabs (get2 a i i))) as [Hle|Hgt].
    - destruct (Nat.eq_dec x i) as [->|Hne]; [lra|].
      specialize (HQ x ltac:(lia)). lra.
    - destruct (Nat.eq_dec x i) as [->|Hne]; [lra|].
      apply HQ. lia. }
  rewrite Eq in Eq'. inversion Eq'; subst q'. clear Eq'.
  destruct (interchange_R n j q a r P
              (inv_a_shape Inv) (inv_r_shape Inv) (inv_P_shape Inv))
    as (a1' & r1' & P1' & Eint' & Ha1 & _ & _ & Hga1 & _ & _); [lia | lia |].
  rewrite Eint in Eint'. inversion Eint'; subst a1' r1' P1'. clear Eint'.
  set (t := tau j q).
  assert (Ht_bound : forall x, (x < n)%nat -> (t x < n)%nat).
  { intros x Hx. apply tau_bound; lia. }
  assert (Ht_high : forall x, (j <= x)%nat -> (j <= t x)%nat).
  { intros x Hx. apply tau_high; lia. }
  assert (Htj : t j = q).
  { unfold t, tau. rewrite Nat.eqb_refl. reflexivity. }
  assert (Hsym1 : forall x y, (x < n)%nat -> (y < n)%nat ->
                              get2 a1 x y = get2 a1 y x).
  { intros x y Hx Hy. rewrite !Hga1 by lia.
    apply (inv_a_sym Inv); apply Ht_bound; assumption. }
  assert (Hpd1 : forall y : nat -> R,
             (forall x, (x < j)%nat -> y x = 0) ->
             delta * sq_norm n y <= quad_form n a1 y).
  { intros y Hy.
    rewrite (quad_form_tau n j q a a1 y) by (lia || exact Hga1).
    rewrite <- (sq_norm_tau n j q y) by lia.
    apply Hpd. intros x Hx. rewrite tau_low by lia. apply Hy, Hx. }
  assert (Hlo : forall x, (j <= x < n)%nat -> delta <= get2 a1 x x).
  { intros x Hx. specialize (Hpd1 (ind x)).
    rewrite quad_form_ind, sq_norm_ind in Hpd1 by lia.
    rewrite Rmult_1_r in Hpd1. apply Hpd1.
    intros x0 Hx0. unfold ind. destruct (Nat.eqb_spec x0 x); [lia | reflexivity]. }
  set (ajj := get2 a1 j j) in *.
  assert (Hajj : delta <= ajj) by (apply Hlo; lia).
  assert (Ha1_diag : forall x, (x < n)%nat -> get2 a1 x x = get2 a (t x) (t x)).
  { intros x Hx. apply Hga1; assumption. }
  assert (Hajj_eq : ajj = get2 a q q).
  { unfold ajj. rewrite Ha1_diag, Htj by lia. reflexivity. }
  assert (Hpiv : forall x, (j <= x < n)%nat -> get2 a1 x x <= ajj).
  { intros x Hx. pose proof (Hlo x Hx) as Hx0.
    specialize (Hmax (t x) ltac:(split; [apply Ht_high | apply Ht_bound]; lia)).
    rewrite <- Ha1_diag, <- Hajj_eq in Hmax by lia.
    rewrite !Rabs_pos_eq in Hmax by lra. exact Hmax. }
  assert (Hhi : ajj <= gamma).
  { rewrite Hajj_eq. apply Hdiag. lia. }
  assert (Hminor : forall i, (j < i < n)%nat ->
                             get2 a1 j i * get2 a1 j i <= ajj * get2 a1 i i).
  { intros i Hi. apply (psd_minor n i j a1); try lia; try assumption; [|fold ajj; lra].
    intros t0 u.
    pose proof (sq_norm_nonneg n (fun x => 0 + u * ind i x + t0 * ind j x)) as Hn0.
    assert (delta * sq_norm n (fun x => 0 + u * ind i x + t0 * ind j x)
            <= quad_form n a1 (fun x => 0 + u * ind i x + t0 * ind j x)) as Hq0.
    { apply Hpd1. intros x Hx. unfold ind.
      destruct (Nat.eqb_spec x i); [lia|]. destruct (Nat.eqb_spec x j); [lia|]. ring. }
    nra. }
  (* theta_j is at most the pivot *)
  destruct (calc_theta_inv n a1 j
              (fun _ th => 0 <= th /\ th * th <= ajj * ajj) Ha1 Hj)
    as (theta' & Eth' & Hth0 & Hth).
  { simpl. split; [lra | nra]. }
  { intros i th Hi [Hth0 Hth]. rewrite pymax_R. simpl.
    pose proof (Hminor i Hi) as Hm. pose proof (Hpiv i ltac:(lia)) as Hp.
    pose proof (Hlo i ltac:(lia)) as Hl. pose proof (Rabs_sqr (get2 a1 j i)) as Hs.
    pose proof (Rabs_pos (get2 a1 j i)) as Hp0.
    unfold Rmax. destruct (Rle_dec th (Rabs (get2 a1 j i))); split; try lra; nra. }
  rewrite Eth in Eth'. inversion Eth'; subst theta'. clear Eth'.
  cbv zeta in Hge, Hgr, Hga.
  set (tb := div theta beta) in *.
  set (dj := pymax (pymax (absv ajj) (mul tb tb)) delta) in *.
  assert (Htb : tb * tb <= ajj).
  { assert (tb * tb * (beta * beta) = theta * theta) as Htb2
        by (unfold tb; simpl; field; lra).
    apply Rmult_le_reg_r with (beta * beta); nra. }
  assert (Hdj : dj = ajj).
  { unfold dj. rewrite !pymax_R. simpl. rewrite Rabs_pos_eq by lra.
    rewrite (Rmax_left ajj (tb * tb)) by lra. apply Rmax_left. lra. }
  set (s := sqrt_ dj) in *.
  assert (Hs : 0 < s /\ s * s = ajj).
  { unfold s. rewrite Hdj. simpl. split; [apply sqrt_lt_R0; lra|].
    apply sqrt_sqrt. lra. }
  destruct Hs as [Hspos Hss].
  assert (Ha2_new : forall x y, (j < x < n)%nat -> (j < y < n)%nat ->
             get2 a2 x y = get2 a1 x y - get2 a1 j x * get2 a1 j y / ajj).
  { intros x y Hx Hy. rewrite Hga.
    destruct (Nat.ltb_spec j x); [|lia]. destruct (Nat.ltb_spec x n); [|lia].
    destruct (Nat.ltb_spec j y); [|lia]. destruct (Nat.ltb_spec y n); [|lia].
    simpl. rewrite <- Hss. destruct (Nat.leb_spec x y); simpl.
    - field. lra.
    - rewrite (Hsym1 y x) by lia. field. lra. }
  split; [|split].
  - intros m Hm. rewrite Hge. destruct (Nat.eqb_spec m j) as [->|Hne].
    + rewrite Hdj. simpl. ring.
    + apply He0. lia.
  - intros y Hy.
    set (c0 := sum_n n (fun k => get2 a1 j k * y k)).
    set (t0 := - c0 / ajj).
    pose proof (Hpd1 (fun x => y x + t0 * ind j x)) as Hshift.
    rewrite (quad_form_shift n j a1 y t0 Hj Hsym1) in Hshift.
    rewrite (sq_norm_shift n j y t0 Hj (Hy j (Nat.lt_succ_diag_r j))) in Hshift.
    fold c0 in Hshift.
    assert (Hsupp : forall x, (x < j)%nat -> y x + t0 * ind j x = 0).
    { intros x Hx. rewrite (Hy x) by lia. unfold ind.
      destruct (Nat.eqb_spec x j); [lia | ring]. }
    specialize (Hshift Hsupp).
    assert (Hq2 : quad_form n a2 y = quad_form n a1 y - c0 * c0 / ajj).
    { unfold quad_form.
      rewrite (sum_n_ext n _
                 (fun x => y x * sum_n n (fun k => get2 a1 x k * y k)
                           + - (c0 / ajj) * (get2 a1 j x * y x))).
      - rewrite sum_n_plus, sum_n_scal. fold c0. field. lra.
      - intros x Hx. destruct (Nat.le_gt_cases x j) as [Hxj|Hxj].
        + rewrite (Hy x) by lia. ring.
        + rewrite (sum_n_ext n (fun k => get2 a2 x k * y k)
                     (fun k => get2 a1 x k * y k
                               + - (get2 a1 j x / ajj) * (get2 a1 j k * y k))).
          * rewrite sum_n_plus, sum_n_scal. fold c0. field. lra.
          * intros k Hk. destruct (Nat.le_gt_cases k j) as [Hkj|Hkj].
            -- rewrite (Hy k) by lia. ring.
            -- rewrite Ha2_new by lia. field. lra. }
    rewrite Hq2. fold ajj in Hshift.
    assert (0 <= t0 * t0) by nra.
    assert (2 * t0 * c0 + t0 * t0 * ajj = - (c0 * c0 / ajj)) as Hfield
        by (unfold t0; field; lra).
    nra.
  - intros x Hx. rewrite Ha2_new by lia.
    pose proof (Hpiv x ltac:(lia)).
    assert (0 <= get2 a1 j x * get2 a1 j x / ajj).
    { apply Rmult_le_pos; [nra|]. apply Rlt_le, Rinv_0_lt_compat. lra. }
    lra.
Qed.

End PositiveDefinite.

Section PassThrough.
Open Scope R_scope.
Variables (n : nat) (A : array2 R).
Hypothesis A_square : square n A.
Hypothesis A_symmetric : symmetric2 A.

(** [gamma] bounds the diagonal of [A]. *)
Lemma gamma_bounds_diagonal (gamma xi : R) :
  gamma_xi A n = Ok (gamma, xi) ->
  forall x, (x < n)%nat -> Rabs (get2 A x x) <= gamma.
Proof.
  intros Eg.
  destruct (gamma_xi_inv n A
              (fun i g _ => forall x, (x < i)%nat -> Rabs (get2 A x x) <= g)
              A_square) as (g & x0 & Eg' & Hg).
  - intros x Hx. lia.
  - intros i g x1 x1' Hi HQ _ x Hx. rewrite pymax_R. simpl.
    destruct (Nat.eq_dec x i) as [->|Hne].
    + apply Rmax_l.
    + specialize (HQ x ltac:(lia)).
      pose proof (Rmax_r (Rabs (get2 A i i)) g). lra.
  - rewrite Eg in Eg'. inversion Eg'; subst g x0. exact Hg.
Qed.

(** A positive definite input with margin [delta] is factored without any
    shift. *)
Lemma gmw_cholesky_pd :
  (forall gamma xi, gamma_xi A n = Ok (gamma, xi) ->
                    positive_definite_margin n A (calc_delta gamma xi)) ->
  exists P r e sigma a,
    gmw_cholesky A = Ok (P, transpose r, e)
    /\ gmw_inv n A n a r e P sigma
    /\ forall m, (m < n)%nat -> get1 e m = 0.
Proof.
  intros Hpd.
  destruct (gmw_cholesky_inv n A A_square A_symmetric
              (fun gamma xi j s =>
                 let '(a, r, e, P) := s in
                 pd_state n gamma (calc_delta gamma xi) j a e))
    as (P & r & e & sigma & a & gamma & xi & Eg & E & Inv & (He & _)).
  - intros gamma xi Eg. split; [|split].
    + intros m Hm. lia.
    + intros y _. specialize (Hpd gamma xi Eg y).
      unfold quad_form in *. simpl.
      rewrite (sum_n_ext n _ (fun x => y x * sum_n n (fun k => get2 A x k * y k)));
        [exact Hpd|].
      intros x Hx. f_equal. apply sum_n_ext. intros k Hk. ring.
    + intros x Hx. simpl.
      pose proof (gamma_bounds_diagonal gamma xi Eg x ltac:(lia)).
      pose proof (Rle_abs (get2 A x x)). lra.
  - intros gamma xi j a r e P sigma s' Eg Hj Inv HX Es.
    apply (pd_step n A (calc_beta n gamma xi) (calc_delta gamma xi) gamma
                   j a r P e sigma s'); try assumption.
    + apply calc_delta_pos.
    + apply calc_beta_pos.
    + apply calc_beta_sq.
  - exists P, r, e, sigma, a. split; [exact E|]. split; [exact Inv | exact He].
Qed.

End PassThrough.

(** C2, as the code behaves.  In exact arithmetic, when the symmetric matrix
    [A] is positive definite with margin [delta = eps * max(gamma + xi, 1)]
    (that is, [y.T A y >= delta * y.T y] for every [y]), [gmw_cholesky A]
    returns a shift vector [e] that is zero everywhere and a lower
    triangular [L] with positive diagonal such that [L @ L.T = P.T @ A @ P]:
    [L] is the ordinary Cholesky factor of the permuted [A].  For the
    indefinite test matrix the binary64 result has [e = [0, 0, 3.008...]],
    with a strictly positive entry, and the two sides of the factorisation
    identity differ by less than 1e-6 at every entry. *)
Theorem positive_definite_pass_through :
  (forall (n : nat) (A : array2 R),
      nrows A = n -> ncols A = n -> symmetric2 A ->
      (forall gamma xi, gamma_xi A n = Ok (gamma, xi) ->
                        positive_definite_margin n A (calc_delta gamma xi)) ->
      exists P L e B LLt,
        gmw_cholesky A = Ok (P, L, e)
        /\ len1 e = n
        /\ (forall i, i < n -> get1 e i = 0%R)
        /\ permutation_matrix n P
        /\ lower_triangular_positive n L
        /\ permuted A P = Ok B
        /\ np_dot L (transpose L) = Ok LLt
        /\ (nrows B = n /\ ncols B = n) /\ (nrows LLt = n /\ ncols LLt = n)
        /\ forall x y, x < n -> y < n -> get2 LLt x y = get2 B x y)
  /\ shift_of test_matrix = Ok [0; 0; 3.0080000000000005]%float
  /\ PrimFloat.ltb 0 3.0080000000000005 = true
  /\ max_residual test_matrix = Ok 8.8817841970012523e-16%float
  /\ PrimFloat.ltb 8.8817841970012523e-16 1e-6 = true.
Proof.
  split; [|repeat split; vm_compute; reflexivity].
  intros n A Hr Hc Hsym Hpd.
  assert (Hsq : square n A) by (split; assumption).
  destruct (gmw_cholesky_pd n A Hsq Hsym Hpd)
    as (P & r & e & sigma & a & E & Inv & He).
  destruct (permuted_R n A Hsq P sigma (inv_P_shape Inv) (inv_sigma_bound Inv)
              (inv_P Inv)) as (B & EB & HsB & HB).
  destruct (inv_r_shape Inv) as [Hrr Hcr].
  exists P, (transpose r), e, B,
    (Arr2 n n (fun x y => sum_n n (fun m => get2 r m x * get2 r m y)%R)).
  split; [exact E|].
  split; [apply (inv_e_shape Inv)|].
  split; [exact He|].
  split.
  { destruct (inv_P_shape Inv) as [HrP HcP].
    split; [exact HrP|]. split; [exact HcP|].
    exists sigma. split; [apply (inv_sigma_bound Inv)|].
    split; [apply (inv_sigma_inj Inv) | apply (inv_P Inv)]. }
  split.
  { split; [exact Hcr|]. split; [exact Hrr|]. split.
    - intros x y Hxy. simpl. apply (inv_r_zero Inv); lia.
    - intros x Hx. simpl. apply (inv_diag_pos Inv). exact Hx. }
  split; [exact EB|].
  split.
  { unfold np_dot. simpl. rewrite Nat.eqb_refl, Hrr, Hcr. reflexivity. }
  split; [exact HsB|]. split; [split; reflexivity|].
  intros x y Hx Hy. simpl. rewrite HB by assumption.
  rewrite (factorisation_identity n A Hsq Hsym a r e P sigma Inv x y Hx Hy).
  rewrite He by assumption.
  destruct (x =? y)%nat; ring.
Qed.

(** C2 as stated fails for a positive definite matrix with an eigenvalue
    below [delta]: on [[1e16, 0], [0, 0.1]] the second entry of the shift
    vector is 2.12, and [L[1, 1]] is 1.49 where the ordinary Cholesky factor
    has [sqrt 0.1 = 0.316]. *)
Lemma small_eigenvalue_is_shifted :
  shift_of ill_conditioned_pd = Ok [0; 2.120446049250313]%float
  /\ factor_of ill_conditioned_pd = Ok [[100000000; 0]; [0; 1.4901161193847656]]%float
  /\ to_rows_result (cholesky_model ill_conditioned_pd)
     = Ok [[100000000; 0]; [0; 0.31622776601683794]]%float
  /\ PrimFloat.ltb 1 2.120446049250313 = true.
Proof. repeat split; vm_compute; reflexivity. Qed.

Lemma pd_matrix_R_symmetric : symmetric2 pd_matrix_R.
Proof.
  intros x y Hx Hy. simpl in Hx, Hy.
  destruct x as [|[|x]], y as [|[|y]]; try lia; reflexivity.
Qed.

Lemma pd_matrix_R_gamma_xi : gamma_xi pd_matrix_R 2 = Ok (2%R, 1%R).
Proof.
  unfold gamma_xi, for_range. cbn -[pymax absv].
  rewrite !pymax_R. simpl.
  rewrite !Rabs_pos_eq by lra.
  rewrite (Rmax_left 2 0), (Rmax_left 2 2), (Rmax_left 1 0) by lra.
  reflexivity.
Qed.

Lemma eps_small : (R_eps <= / 4)%R.
Proof.
  unfold R_eps. apply Rinv_le_contravar; [lra|].
  replace (2 ^ 52)%R with (2 ^ 2 * 2 ^ 50)%R by (rewrite <- pow_add; reflexivity).
  pose proof (pow_R1_Rle 2 50 ltac:(lra)). simpl (2 ^ 2)%R. lra.
Qed.

Lemma pd_matrix_R_margin :
  forall gamma xi,
    gamma_xi pd_matrix_R 2 = Ok (gamma, xi) ->
    positive_definite_margin 2 pd_matrix_R (calc_delta gamma xi).
Proof.
  intros gamma xi E. rewrite pd_matrix_R_gamma_xi in E.
  inversion E; subst gamma xi. clear E.
  intros y. unfold calc_delta, _EPS, sq_norm, quad_form, sum_n.
  rewrite pymax_R. simpl.
  rewrite (Rmax_left (2 + 1) 1) by lra.
  pose proof eps_pos. pose proof eps_small.
  generalize (y 0%nat), (y 1%nat). intros y0 y1.
  pose proof (Rle_0_sqr y0) as S0. pose proof (Rle_0_sqr y1) as S1.
  pose proof (Rle_0_sqr (y0 + y1)) as S2. unfold Rsqr in S0, S1, S2.
  assert (R_eps * (2 + 1) * (y0 * y0 + y1 * y1) <= y0 * y0 + y1 * y1)%R.
  { rewrite <- (Rmult_1_l (y0 * y0 + y1 * y1)) at 2.
    apply Rmult_le_compat_r; lra. }
  lra.
Qed.

Lemma positive_definite_pass_through_witness :
  exists P L e B LLt,
    gmw_cholesky pd_matrix_R = Ok (P, L, e)
    /\ len1 e = 2
    /\ (forall i, i < 2 -> get1 e i = 0%R)
    /\ permutation_matrix 2 P
    /\ lower_triangular_positive 2 L
    /\ permuted pd_matrix_R P = Ok B
    /\ np_dot L (transpose L) = Ok LLt
    /\ (nrows B = 2 /\ ncols B = 2) /\ (nrows LLt = 2 /\ ncols LLt = 2)
    /\ forall x y, x < 2 -> y < 2 -> get2 LLt x y = get2 B x y.
Proof.
  apply (proj1 positive_definite_pass_through 2 pd_matrix_R);
    [reflexivity | reflexivity | exact pd_matrix_R_symmetric
     | exact pd_matrix_R_margin].
Defined.

(** * Further properties of the code *)

(** ** The converters *)

Section ConverterAlgebra.
Open Scope R_scope.

Lemma sqrt_abs_product (x y : R) :
  0 < x -> 0 < y -> sqrt (Rabs (x * y)) = sqrt x * sqrt y.
Proof.
  intros Hx Hy. rewrite Rabs_pos_eq by nra. apply sqrt_mult; lra.
Qed.

Lemma np_sqrt_diag_R (cov : array2 R) :
  nrows cov = ncols cov ->
  len1 (np_sqrt_diag cov) = nrows cov
  /\ forall i, get1 (np_sqrt_diag cov) i = sqrt (get2 cov i i).
Proof.
  intros Hsq. unfold np_sqrt_diag. simpl. rewrite <- Hsq, Nat.min_id.
  split; reflexivity.
Qed.

(** Every entry of [correlation_to_cov std corr], when [corr] is symmetric
    with a unit diagonal. *)
Lemma correlation_to_cov_entries (std : array1 R) (corr : array2 R) :
  nrows corr = len1 std -> ncols corr = len1 std ->
  symmetric2 corr ->
  (forall i, (i < len1 std)%nat -> get2 corr i i = 1) ->
  exists cov,
    correlation_to_cov std corr = Ok cov
    /\ nrows cov = len1 std /\ ncols cov = len1 std
    /\ forall i j, (i < len1 std)%nat -> (j < len1 std)%nat ->
                   get2 cov i j = get2 corr i j * get1 std i * get1 std j.
Proof.
  intros Hr Hc Hsym Hdiag.
  destruct (correlation_to_cov_R std corr) as (cov & E & Hrc & Hcc & Hd & Hu);
    try lia.
  exists cov. split; [exact E|]. split; [exact Hrc|]. split; [exact Hcc|].
  intros i j Hi Hj.
  destruct (Nat.lt_trichotomy i j) as [Hlt|[->|Hgt]].
  - apply Hu. lia.
  - rewrite Hd, Hdiag by assumption. ring.
  - destruct (Hu j i ltac:(lia)) as [_ ->].
    rewrite (Hsym i j) by lia. ring.
Qed.

(** A symmetric positive semi-definite matrix with a positive diagonal has
    [|a[i,j]| <= sqrt (a[i,i] * a[j,j])]. *)
Lemma psd_entry_bound (n i j : nat) (a : array2 R) :
  (i < n)%nat -> (j < n)%nat -> i <> j ->
  (forall x k, (x < n)%nat -> (k < n)%nat -> get2 a x k = get2 a k x) ->
  positive_semidefinite n a ->
  0 < get2 a i i -> 0 < get2 a j j ->
  Rabs (get2 a i j) <= sqrt (Rabs (get2 a i i * get2 a j j)).
Proof.
  intros Hi Hj Hne Hsym Hpsd Hii Hjj.
  pose proof (psd_minor n i j a Hi Hj Hne Hsym (fun t u => Hpsd _) Hjj) as Hm.
  rewrite (Hsym j i) in Hm by assumption.
  rewrite (Rabs_pos_eq (get2 a i i * get2 a j j)) by nra.
  rewrite <- (sqrt_Rsqr_abs (get2 a i j)).
  apply sqrt_le_1_alt. unfold Rsqr. lra.
Qed.

End ConverterAlgebra.

(** X1.  In exact arithmetic the converters are inverse to each other in the
    second order as well: for a symmetric covariance matrix with a positive
    diagonal, [correlation_to_cov(np.sqrt(np.diag(cov)),
    cov_to_correlation(cov))] is [cov] again. *)
Theorem covariance_round_trip :
  forall cov : array2 R,
    nrows cov = ncols cov ->
    symmetric2 cov ->
    (forall i, i < nrows cov -> (0 < get2 cov i i)%R) ->
    exists corr cov',
      cov_to_correlation cov = Ok corr
      /\ correlation_to_cov (np_sqrt_diag cov) corr = Ok cov'
      /\ nrows cov' = nrows cov /\ ncols cov' = nrows cov
      /\ forall i j, i < nrows cov -> j < nrows cov ->
                     get2 cov' i j = get2 cov i j.
Proof.
  intros cov Hsq Hsym Hpos.
  destruct (np_sqrt_diag_R cov Hsq) as [Hlen Hstd].
  destruct (cov_to_correlation_R cov) as (corr & E & Hrc & Hcc & Hd & Hu);
    [lia|].
  destruct (correlation_to_cov_R (np_sqrt_diag cov) corr)
    as (cov' & E' & Hrc' & Hcc' & Hd' & Hu'); try lia.
  exists corr, cov'. split; [exact E|]. split; [exact E'|].
  split; [congruence|]. split; [congruence|].
  assert (Hup : forall i j, i < j < nrows cov ->
             (get2 corr i j * sqrt (get2 cov i i) * sqrt (get2 cov j j)
              = get2 cov i j)%R).
  { intros i j Hij. destruct (Hu i j Hij) as [-> _].
    pose proof (Hpos i ltac:(lia)) as Hi. pose proof (Hpos j ltac:(lia)) as Hj.
    rewrite sqrt_abs_product by assumption.
    pose proof (sqrt_lt_R0 _ Hi). pose proof (sqrt_lt_R0 _ Hj).
    field. split; lra. }
  intros i j Hi Hj.
  destruct (Nat.lt_trichotomy i j) as [Hlt|[->|Hgt]].
  - destruct (Hu' i j) as [-> _]; [lia|]. rewrite !Hstd. apply Hup. lia.
  - rewrite Hd', Hstd. apply sqrt_sqrt. specialize (Hpos j Hj). lra.
  - destruct (Hu' j i) as [_ ->]; [lia|]. rewrite !Hstd.
    rewrite Hup by lia. symmetry. apply Hsym; lia.
Qed.

Lemma covariance_round_trip_witness :
  exists corr cov',
    cov_to_correlation (of_rows [[1; 1]; [1; 4]]%R) = Ok corr
    /\ correlation_to_cov (np_sqrt_diag (of_rows [[1; 1]; [1; 4]]%R)) corr = Ok cov'
    /\ nrows cov' = 2 /\ ncols cov' = 2
    /\ forall i j, i < 2 -> j < 2 ->
                   get2 cov' i j = get2 (of_rows [[1; 1]; [1; 4]]%R) i j.
Proof.
  apply (covariance_round_trip (of_rows [[1; 1]; [1; 4]]%R)).
  - reflexivity.
  - intros r k Hr Hk. simpl in Hr, Hk.
    destruct r as [|[|r]]; destruct k as [|[|k]]; try lia; reflexivity.
  - intros i Hi. simpl in Hi. destruct i as [|[|i]]; try lia; simpl; lra.
Defined.

(** X2.  In exact arithmetic, the correlation matrix of a symmetric positive
    semi-definite covariance matrix with a positive diagonal has all its
    entries in [[-1, 1]]. *)
Theorem correlation_entries_bounded :
  forall (n : nat) (cov : array2 R),
    nrows cov = n -> ncols cov = n ->
    symmetric2 cov ->
    positive_semidefinite n cov ->
    (forall i, i < n -> (0 < get2 cov i i)%R) ->
    exists corr,
      cov_to_correlation cov = Ok corr
      /\ forall i j, i < n -> j < n -> (-1 <= get2 corr i j <= 1)%R.
Proof.
  intros n cov Hr Hc Hsym Hpsd Hpos.
  destruct (cov_to_correlation_R cov) as (corr & E & Hrc & Hcc & Hd & Hu);
    [lia|].
  exists corr. split; [exact E|].
  assert (Hsym' : forall x k, x < n -> k < n -> get2 cov x k = get2 cov k x).
  { intros x k Hx Hk. apply Hsym; lia. }
  assert (Hq : forall i j, i < n -> j < n -> i <> j ->
             (-1 <= get2 cov i j / sqrt (Rabs (get2 cov i i * get2 cov j j))
              <= 1)%R).
  { intros i j Hi Hj Hne.
    pose proof (psd_entry_bound n i j cov Hi Hj Hne Hsym' Hpsd
                  (Hpos i Hi) (Hpos j Hj)) as Hb.
    set (s := sqrt (Rabs (get2 cov i i * get2 cov j j))) in *.
    assert (Hs : (0 < s)%R).
    { unfold s. apply sqrt_lt_R0. rewrite Rabs_pos_eq.
      - apply Rmult_lt_0_compat; [apply Hpos, Hi | apply Hpos, Hj].
      - apply Rlt_le, Rmult_lt_0_compat; [apply Hpos, Hi | apply Hpos, Hj]. }
    assert (Habs : (Rabs (get2 cov i j / s) <= 1)%R).
    { unfold Rdiv. rewrite Rabs_mult, Rabs_inv.
      rewrite (Rabs_pos_eq s) by lra.
      apply (Rmult_le_reg_r s); [exact Hs|].
      rewrite Rmult_assoc, Rinv_l by lra. lra. }
    pose proof (Rle_abs (get2 cov i j / s)) as H1.
    pose proof (Rle_abs (- (get2 cov i j / s))) as H2.
    rewrite Rabs_Ropp in H2. lra. }
  intros i j Hi Hj.
  destruct (Nat.lt_trichotomy i j) as [Hlt|[->|Hgt]].
  - destruct (Hu i j) as [-> _]; [lia|]. apply Hq; lia.
  - rewrite Hd. lra.
  - destruct (Hu j i) as [_ ->]; [lia|]. apply Hq; lia.
Qed.

Lemma quad_form_2 (a : array2 R) (y : nat -> R) :
  quad_form 2 a y
  = (y 0%nat * (get2 a 0 0 * y 0%nat + get2 a 0 1 * y 1%nat)
     + y 1%nat * (get2 a 1 0 * y 0%nat + get2 a 1 1 * y 1%nat))%R.
Proof. unfold quad_form, sum_n. simpl. ring. Qed.

Lemma correlation_entries_bounded_witness :
  exists corr,
    cov_to_correlation (of_rows [[1; 1]; [1; 4]]%R) = Ok corr
    /\ forall i j, i < 2 -> j < 2 -> (-1 <= get2 corr i j <= 1)%R.
Proof.
  apply (correlation_entries_bounded 2 (of_rows [[1; 1]; [1; 4]]%R)).
  - reflexivity.
  - reflexivity.
  - intros r k Hr Hk. simpl in Hr, Hk.
    destruct r as [|[|r]]; destruct k as [|[|k]]; try lia; reflexivity.
  - intros y. rewrite quad_form_2. simpl.
    pose proof (Rle_0_sqr (y 0%nat + y 1%nat)) as H1.
    pose proof (Rle_0_sqr (y 1%nat)) as H2. unfold Rsqr in *. lra.
  - intros i Hi. destruct i as [|[|i]]; try lia; simpl; lra.
Defined.

(** X3.  In exact arithmetic [cov_to_correlation] does not depend on the
    units of the variables: multiplying entry [(i, j)] of [cov] by
    [d[i] * d[j]], with every [d[i]] positive, leaves the result unchanged
    (the diagonal of [cov] being non-zero). *)
Theorem cov_to_correlation_scale_invariant :
  forall (cov : array2 R) (d : array1 R),
    nrows cov = ncols cov ->
    (forall i, i < nrows cov -> (0 < get1 d i)%R) ->
    (forall i, i < nrows cov -> get2 cov i i <> 0%R) ->
    exists rows,
      to_rows_result (cov_to_correlation (rescaled d cov)) = Ok rows
      /\ to_rows_result (cov_to_correlation cov) = Ok rows.
Proof.
  intros cov d Hsq Hd Hnz.
  destruct (cov_to_correlation_R cov) as (c1 & E1 & Hr1 & Hc1 & Hd1 & Hu1);
    [lia|].
  destruct (cov_to_correlation_R (rescaled d cov))
    as (c2 & E2 & Hr2 & Hc2 & Hd2 & Hu2); [simpl; lia|].
  simpl in Hr2, Hc2, Hu2.
  exists (to_rows c1). rewrite E1, E2. simpl. split; [|reflexivity].
  f_equal. apply to_rows_ext; try congruence.
  intros i j Hi Hj. rewrite Hr2 in Hi. rewrite Hc2 in Hj.
  assert (Hq : forall i j, i < nrows cov -> j < nrows cov ->
            (get1 d i * get1 d j * get2 cov i j
             / sqrt (Rabs (get1 d i * get1 d i * get2 cov i i
                           * (get1 d j * get1 d j * get2 cov j j)))
             = get2 cov i j / sqrt (Rabs (get2 cov i i * get2 cov j j)))%R).
  { intros x y Hx Hy.
    pose proof (Hd x Hx) as Hdx. pose proof (Hd y Hy) as Hdy.
    replace (get1 d x * get1 d x * get2 cov x x
             * (get1 d y * get1 d y * get2 cov y y))%R
      with ((get1 d x * get1 d y) * (get1 d x * get1 d y)
            * (get2 cov x x * get2 cov y y))%R by ring.
    rewrite Rabs_mult.
    rewrite (Rabs_pos_eq (get1 d x * get1 d y * (get1 d x * get1 d y)))
      by (apply Rle_0_sqr).
    rewrite sqrt_mult; [|apply Rle_0_sqr | apply Rabs_pos].
    rewrite sqrt_square by (apply Rlt_le, Rmult_lt_0_compat; assumption).
    assert (Hs : (0 < sqrt (Rabs (get2 cov x x * get2 cov y y)))%R).
    { apply sqrt_lt_R0, Rabs_pos_lt, Rmult_integral_contrapositive_currified;
        apply Hnz; assumption. }
    field. repeat split; lra. }
  destruct (Nat.lt_trichotomy i j) as [Hlt|[->|Hgt]].
  - destruct (Hu2 i j) as [-> _]; [lia|]. destruct (Hu1 i j) as [-> _]; [lia|].
    apply Hq; lia.
  - rewrite Hd1, Hd2. reflexivity.
  - destruct (Hu2 j i) as [_ ->]; [lia|]. destruct (Hu1 j i) as [_ ->]; [lia|].
    apply Hq; lia.
Qed.

Lemma cov_to_correlation_scale_invariant_witness :
  exists rows,
    to_rows_result (cov_to_correlation
                      (rescaled (of_list [2; 3]%R) (of_rows [[1; 1]; [1; 4]]%R)))
    = Ok rows
    /\ to_rows_result (cov_to_correlation (of_rows [[1; 1]; [1; 4]]%R)) = Ok rows.
Proof.
  apply (cov_to_correlation_scale_invariant (of_rows [[1; 1]; [1; 4]]%R)
           (of_list [2; 3]%R)).
  - reflexivity.
  - intros i Hi. simpl in Hi. destruct i as [|[|i]]; try lia; simpl; lra.
  - intros i Hi. simpl in Hi. destruct i as [|[|i]]; try lia; simpl; lra.
Defined.

(** X4.  In exact arithmetic [correlation_to_cov] turns a valid correlation
    matrix into a valid covariance matrix: when [corr] is symmetric with a
    unit diagonal and positive semi-definite, so is the result, whatever the
    standard deviations. *)
Theorem correlation_to_cov_positive_semidefinite :
  forall (std : array1 R) (corr : array2 R),
    nrows corr = len1 std -> ncols corr = len1 std ->
    symmetric2 corr ->
    (forall i, i < len1 std -> get2 corr i i = 1%R) ->
    positive_semidefinite (len1 std) corr ->
    exists cov,
      correlation_to_cov std corr = Ok cov
      /\ positive_semidefinite (len1 std) cov.
Proof.
  intros std corr Hr Hc Hsym Hdiag Hpsd.
  destruct (correlation_to_cov_entries std corr Hr Hc Hsym Hdiag)
    as (cov & E & _ & _ & Hg).
  exists cov. split; [exact E|].
  intros y. specialize (Hpsd (fun i => get1 std i * y i)%R).
  unfold quad_form in *.
  rewrite (sum_n_ext _ _
             (fun x => (get1 std x * y x
                        * sum_n (len1 std)
                            (fun k => get2 corr x k * (get1 std k * y k)))%R));
    [exact Hpsd|].
  intros x Hx.
  rewrite (sum_n_ext _ (fun k => (get2 cov x k * y k)%R)
             (fun k => (get1 std x
                        * (get2 corr x k * (get1 std k * y k)))%R)).
  - rewrite sum_n_scal. ring.
  - intros k Hk. rewrite Hg by assumption. ring.
Qed.

Lemma correlation_to_cov_positive_semidefinite_witness :
  exists cov,
    correlation_to_cov std_1_2 corr_half = Ok cov
    /\ positive_semidefinite 2 cov.
Proof.
  apply (correlation_to_cov_positive_semidefinite std_1_2 corr_half).
  - reflexivity.
  - reflexivity.
  - intros r k Hr Hk. simpl in Hr, Hk.
    destruct r as [|[|r]]; destruct k as [|[|k]]; try lia; reflexivity.
  - intros i Hi. simpl in Hi. destruct i as [|[|i]]; try lia; reflexivity.
  - intros y. rewrite quad_form_2. simpl.
    pose proof (Rle_0_sqr (y 0%nat + y 1%nat)) as H1.
    pose proof (Rle_0_sqr (y 0%nat)) as H2.
    pose proof (Rle_0_sqr (y 1%nat)) as H3. unfold Rsqr in *. lra.
Defined.

(** X5.  [cov_to_correlation] does not check that [cov] is square.  With at
    least as many columns as rows it returns what it returns on the leading
    square block, and the surplus columns are ignored; with fewer columns
    than rows (and at least two rows) it ends with the [IndexError] of the
    first element access out of range.  This holds for every arithmetic. *)
Theorem cov_to_correlation_shape_mismatch :
  forall (T : Type) (HN : Num T),
    (forall cov : array2 T,
        nrows cov <= ncols cov ->
        exists rows,
          to_rows_result (cov_to_correlation cov) = Ok rows
          /\ to_rows_result
               (cov_to_correlation (leading_block (nrows cov) cov)) = Ok rows)
    /\ (forall cov : array2 T,
           2 <= nrows cov -> ncols cov < nrows cov ->
           cov_to_correlation cov = Raise IndexError).
Proof.
  intros T HN. split.
  - intros cov Hle.
    apply cov_to_correlation_reads_upper; simpl; try lia.
    intros r k _. reflexivity.
  - intros cov. apply cov_to_correlation_IndexError.
Qed.

Lemma cov_to_correlation_shape_mismatch_witness :
  (exists rows,
      to_rows_result (cov_to_correlation corr_three) = Ok rows
      /\ to_rows_result
           (cov_to_correlation (leading_block (nrows corr_three) corr_three))
         = Ok rows)
  /\ cov_to_correlation (of_rows [[1; 0.5]; [0.5; 1]; [0.25; 0.125]]%float)
     = Raise IndexError.
Proof.
  split.
  - apply (proj1 (cov_to_correlation_shape_mismatch float float_Num)).
    simpl. lia.
  - apply (proj2 (cov_to_correlation_shape_mismatch float float_Num));
      simpl; lia.
Defined.

(** X6.  In exact arithmetic [cov_to_correlation] is idempotent: applied to
    its own result it returns it unchanged, whatever the matrix it started
    from. *)
Theorem cov_to_correlation_idempotent :
  forall cov : array2 R,
    nrows cov <= ncols cov ->
    exists corr corr',
      cov_to_correlation cov = Ok corr
      /\ cov_to_correlation corr = Ok corr'
      /\ to_rows corr' = to_rows corr.
Proof.
  intros cov Hle.
  destruct (cov_to_correlation_R cov Hle) as (corr & E & Hr & Hc & Hd & Hu).
  destruct (cov_to_correlation_R corr) as (corr' & E' & Hr' & Hc' & Hd' & Hu');
    [lia|].
  exists corr, corr'. split; [exact E|]. split; [exact E'|].
  apply to_rows_ext; try congruence.
  intros i j Hi Hj. rewrite Hr', Hr in Hi. rewrite Hc', Hr in Hj.
  assert (Hone : forall x : R, (x / sqrt (Rabs (1 * 1)) = x)%R).
  { intros x. rewrite Rmult_1_r, Rabs_R1, sqrt_1. field. }
  destruct (Nat.lt_trichotomy i j) as [Hlt|[->|Hgt]].
  - destruct (Hu' i j) as [-> _]; [lia|]. rewrite !Hd. apply Hone.
  - rewrite Hd, Hd'. reflexivity.
  - destruct (Hu' j i) as [_ ->]; [lia|]. rewrite !Hd, Hone.
    destruct (Hu j i) as [-> ->]; [lia|]. reflexivity.
Qed.

Lemma cov_to_correlation_idempotent_witness :
  exists corr corr',
    cov_to_correlation cov_neg_diag = Ok corr
    /\ cov_to_correlation corr = Ok corr'
    /\ to_rows corr' = to_rows corr.
Proof.
  apply (cov_to_correlation_idempotent cov_neg_diag). simpl. lia.
Defined.

(** X7.  The result of [cov_to_correlation] is exactly symmetric, in exact
    arithmetic and in binary64 alike, whether or not [cov] is: the entries
    below the diagonal are copies of those above it. *)
Theorem cov_to_correlation_result_symmetric :
  (forall cov : array2 R,
      nrows cov <= ncols cov ->
      exists corr, cov_to_correlation cov = Ok corr /\ symmetric2 corr)
  /\ (forall cov : array2 float,
         nrows cov <= ncols cov ->
         exists corr, cov_to_correlation cov = Ok corr /\ symmetric2 corr).
Proof.
  split.
  - intros cov Hle.
    destruct (cov_to_correlation_R cov Hle) as (corr & E & Hr & Hc & Hd & Hu).
    exists corr. split; [exact E|].
    intros r k Hrn Hkn. rewrite Hr in Hrn. rewrite Hc in Hkn.
    destruct (Nat.lt_trichotomy r k) as [Hlt|[->|Hgt]].
    + destruct (Hu r k) as [-> ->]; [lia | reflexivity].
    + reflexivity.
    + destruct (Hu k r) as [-> ->]; [lia | reflexivity].
  - intros cov Hle.
    destruct (cov_to_correlation_spec cov Hle) as (corr & E & Hr & Hc & Hg).
    exists corr. split; [exact E|].
    intros r k _ _.
    destruct (Nat.eq_dec r k) as [->|Hne]; [reflexivity|].
    rewrite !Hg.
    destruct (Nat.eqb_spec r k); [congruence|].
    destruct (Nat.eqb_spec k r); [congruence|].
    simpl. f_equal. apply float_add_comm.
Qed.

Lemma cov_to_correlation_result_symmetric_witness :
  exists corr,
    cov_to_correlation (of_rows [[4; 1]; [7; 9]]%float) = Ok corr
    /\ symmetric2 corr.
Proof.
  apply (proj2 cov_to_correlation_result_symmetric). simpl. lia.
Defined.

(** ** The modified Cholesky factorisation *)

Section FactorBounds.
Open Scope R_scope.
Variables (n : nat) (A : array2 R).
Hypothesis A_square : square n A.
Hypothesis A_symmetric : symmetric2 A.

(** An iteration of the main loop writes a row that obeys the bounds, and
    the interchange keeps the rows written before within them. *)
Lemma bounds_step (beta delta : R) (j : nat) (a r P : array2 R) (e : array1 R)
      (sigma : nat -> nat) (s' : array2 R * array2 R * array1 R * array2 R) :
  0 < delta -> 0 < beta -> (j < n)%nat ->
  gmw_inv n A j a r e P sigma ->
  rows_bounded n beta delta j r ->
  gmw_step n beta delta j (a, r, e, P) = Ok s' ->
  let '(a2, r2, e2, P2) := s' in rows_bounded n beta delta (S j) r2.
Proof.
  intros Hdelta Hbeta Hj Inv Hb E.
  destruct (gmw_step_spec n beta delta j a r P e
              (inv_a_shape Inv) (inv_r_shape Inv) (inv_P_shape Inv)
              (inv_e_shape Inv) Hj)
    as (q & a1 & r1 & P1 & theta & a2 & r2 & e2 & E' & Eq & Hq & Eint
        & Ha1 & _ & _ & Eth & _ & _ & _ & Hge & Hgr & Hga).
  rewrite E' in E. inversion E; subst s'; clear E.
  destruct (interchange_R n j q a r P
              (inv_a_shape Inv) (inv_r_shape Inv) (inv_P_shape Inv))
    as (a1' & r1' & P1' & Eint' & _ & _ & _ & _ & Hgr1 & _); [lia | lia |].
  rewrite Eint in Eint'. inversion Eint'; subst a1' r1' P1'. clear Eint'.
  (* theta_j bounds row j of the trailing block *)
  destruct (calc_theta_inv n a1 j
              (fun i th => 0 <= th
                           /\ forall y, (j < y < i)%nat -> Rabs (get2 a1 j y) <= th)
              Ha1 Hj) as (theta' & Eth' & Hth0 & Hth).
  { split; [simpl; lra|]. intros y Hy. lia. }
  { intros i th Hi [H0 Hy]. rewrite pymax_R. simpl. split.
    - pose proof (Rmax_l th (Rabs (get2 a1 j i))). lra.
    - intros y Hyi. destruct (Nat.eq_dec y i) as [->|Hne].
      + apply Rmax_r.
      + specialize (Hy y ltac:(lia)).
        pose proof (Rmax_l th (Rabs (get2 a1 j i))). lra. }
  rewrite Eth in Eth'. inversion Eth'; subst theta'. clear Eth'.
  set (tb := div theta beta) in *.
  set (dj := pymax (pymax (absv (get2 a1 j j)) (mul tb tb)) delta) in *.
  cbv zeta in Hgr.
  assert (Hdj : delta <= dj /\ tb * tb <= dj).
  { unfold dj. split.
    - apply pymax_ge_r.
    - pose proof (pymax_ge_l (pymax (absv (get2 a1 j j)) (mul tb tb)) delta).
      pose proof (pymax_ge_r (absv (get2 a1 j j)) (mul tb tb)).
      simpl in *. lra. }
  destruct Hdj as [Hd1 Hd2].
  assert (Htb : 0 <= tb).
  { unfold tb. simpl. apply Rmult_le_pos; [exact Hth0|].
    apply Rlt_le, Rinv_0_lt_compat, Hbeta. }
  assert (Hs : 0 < sqrt dj) by (apply sqrt_lt_R0; lra).
  assert (Hts : tb <= sqrt dj).
  { rewrite <- (sqrt_square tb) by exact Htb. apply sqrt_le_1_alt, Hd2. }
  assert (Htheta : theta <= beta * sqrt dj).
  { replace theta with (tb * beta).
    - rewrite (Rmult_comm beta). apply Rmult_le_compat_r; lra.
    - unfold tb. simpl. field. lra. }
  intros m Hm. destruct (Nat.eq_dec m j) as [->|Hne].
  - (* the row just written *)
    split.
    + rewrite Hgr. nat_cases; try lia. apply sqrt_le_1_alt, Hd1.
    + intros y Hy. rewrite Hgr. nat_cases; try lia.
      unfold Rdiv. rewrite Rabs_mult, Rabs_inv, (Rabs_pos_eq (sqrt dj)) by lra.
      apply (Rmult_le_reg_r (sqrt dj)); [exact Hs|].
      rewrite Rmult_assoc, Rinv_l, Rmult_1_r by lra.
      specialize (Hth y ltac:(lia)). lra.
  - (* the rows written before *)
    assert (Hmj : (m < j)%nat) by lia.
    destruct (Hb m Hmj) as [Hdiag Hoff].
    assert (Hold : forall y, (y < n)%nat -> get2 r2 m y = get2 r m (tau j q y)).
    { intros y Hy. rewrite Hgr. nat_cases; try lia; apply Hgr1, Hy. }
    split.
    + rewrite Hold by lia. rewrite tau_low by lia. exact Hdiag.
    + intros y Hy. rewrite Hold by lia. apply Hoff.
      destruct (Nat.lt_ge_cases y j) as [Hyj|Hyj].
      * rewrite tau_low by lia. lia.
      * pose proof (tau_high j q y Hyj ltac:(lia)).
        pose proof (tau_bound n j q y ltac:(lia) ltac:(lia) ltac:(lia)). lia.
Qed.

Lemma gmw_cholesky_bounds :
  exists gamma xi P r e sigma a,
    gamma_xi A n = Ok (gamma, xi)
    /\ gmw_cholesky A = Ok (P, transpose r, e)
    /\ gmw_inv n A n a r e P sigma
    /\ rows_bounded n (calc_beta n gamma xi) (calc_delta gamma xi) n r.
Proof.
  destruct (gmw_cholesky_inv n A A_square A_symmetric
              (fun gamma xi j s =>
                 let '(a, r, e, P) := s in
                 rows_bounded n (calc_beta n gamma xi) (calc_delta gamma xi) j r))
    as (P & r & e & sigma & a & gamma & xi & Eg & E & Inv & Hb).
  - intros gamma xi _ m Hm. lia.
  - intros gamma xi j a r e P sigma s' _ Hj Inv HX Es.
    apply (bounds_step (calc_beta n gamma xi) (calc_delta gamma xi)
                       j a r P e sigma s'); try assumption.
    + apply calc_delta_pos.
    + apply calc_beta_pos.
  - exists gamma, xi, P, r, e, sigma, a. auto.
Qed.

(** The quadratic form of a matrix of inner products [S = r.T @ r] is a sum
    of squares. *)
Lemma gram_quad_form (S r : array2 R) (y : nat -> R) :
  (forall x k, (x < n)%nat -> (k < n)%nat ->
               get2 S x k = sum_n n (fun m => get2 r m x * get2 r m k)) ->
  quad_form n S y
  = sum_n n (fun m => sum_n n (fun x => get2 r m x * y x)
                      * sum_n n (fun x => get2 r m x * y x)).
Proof.
  intros HS. unfold quad_form.
  set (w := fun m => sum_n n (fun k => get2 r m k * y k)).
  rewrite (sum_n_ext n _ (fun x => sum_n n (fun m => w m * (get2 r m x * y x)))).
  - rewrite sum_n_exchange. apply sum_n_ext. intros m Hm.
    rewrite sum_n_scal. reflexivity.
  - intros x Hx.
    rewrite (sum_n_ext n (fun k => get2 S x k * y k)
               (fun k => sum_n n (fun m => get2 r m x * (get2 r m k * y k)))).
    + rewrite sum_n_exchange, <- sum_n_scal. apply sum_n_ext. intros m Hm.
      unfold w. rewrite sum_n_scal. ring.
    + intros k Hk. rewrite HS by assumption.
      rewrite Rmult_comm, <- sum_n_scal.
      apply sum_n_ext. intros m Hm. ring.
Qed.

(** A sum of squares that is not positive has all its terms zero. *)
Lemma sum_squares_zero (k : nat) (w : nat -> R) :
  sum_n k (fun m => w m * w m) <= 0 -> forall m, (m < k)%nat -> w m = 0.
Proof.
  induction k as [|k IH]; intros Hs m Hm; [lia|].
  rewrite sum_n_S in Hs.
  assert (H0 : 0 <= sum_n k (fun m => w m * w m)).
  { apply sum_n_nonneg. intros i _. apply Rle_0_sqr. }
  pose proof (Rle_0_sqr (w k)) as Hk. unfold Rsqr in Hk.
  destruct (Nat.eq_dec m k) as [->|Hne].
  - apply Rsqr_eq_0. unfold Rsqr. lra.
  - apply IH; [lra | lia].
Qed.

(** An upper triangular [r] with a non-zero diagonal sends only the zero
    vector to zero. *)
Lemma triangular_kernel (r : array2 R) (y : nat -> R) :
  (forall x k, (x < n)%nat -> (k < n)%nat -> (k < x)%nat -> get2 r x k = 0) ->
  (forall m, (m < n)%nat -> 0 < get2 r m m) ->
  (forall m, (m < n)%nat -> sum_n n (fun x => get2 r m x * y x) = 0) ->
  forall x, (x < n)%nat -> y x = 0.
Proof.
  intros Hlow Hdiag Hw.
  assert (H : forall k x, (n - k <= x < n)%nat -> y x = 0).
  { induction k as [|k IH]; intros x Hx; [lia|].
    destruct (Nat.eq_dec x (n - S k)) as [Ex|Hne]; [|apply IH; lia].
    specialize (Hw x ltac:(lia)).
    rewrite (sum_n_single n x) in Hw.
    - pose proof (Hdiag x ltac:(lia)).
      apply Rmult_integral in Hw. destruct Hw; [lra | assumption].
    - lia.
    - intros m Hm Hmx. destruct (Nat.lt_ge_cases m x) as [Hlt|Hge].
      + rewrite Hlow by lia. ring.
      + rewrite (IH m) by lia. ring. }
  intros x Hx. apply (H n). lia.
Qed.

End FactorBounds.

(** X8.  In exact arithmetic the factor returned for a symmetric matrix is
    bounded as Gill, Murray and Wright designed it: every diagonal entry of
    [L] is at least [sqrt delta] and every entry below the diagonal is at
    most [beta] in absolute value, where [delta] and [beta] are the
    thresholds computed from [gamma] and [xi]. *)
Theorem gmw_cholesky_factor_bounds :
  forall (n : nat) (A : array2 R),
    nrows A = n -> ncols A = n -> symmetric2 A ->
    exists gamma xi P L e,
      gamma_xi A n = Ok (gamma, xi)
      /\ gmw_cholesky A = Ok (P, L, e)
      /\ (forall x, x < n -> (sqrt (calc_delta gamma xi) <= get2 L x x)%R)
      /\ (forall x y, y < x < n ->
                      (Rabs (get2 L x y) <= calc_beta n gamma xi)%R).
Proof.
  intros n A Hr Hc Hsym.
  destruct (gmw_cholesky_bounds n A (conj Hr Hc) Hsym)
    as (gamma & xi & P & r & e & sigma & a & Eg & E & _ & Hb).
  exists gamma, xi, P, (transpose r), e.
  split; [exact Eg|]. split; [exact E|]. simpl. split.
  - intros x Hx. apply (Hb x Hx).
  - intros x y Hxy. apply (Hb y); lia.
Qed.

Lemma gmw_cholesky_factor_bounds_witness :
  exists gamma xi P L e,
    gamma_xi test_matrix_R 3 = Ok (gamma, xi)
    /\ gmw_cholesky test_matrix_R = Ok (P, L, e)
    /\ (forall x, x < 3 -> (sqrt (calc_delta gamma xi) <= get2 L x x)%R)
    /\ (forall x y, y < x < 3 ->
                    (Rabs (get2 L x y) <= calc_beta 3 gamma xi)%R).
Proof.
  apply (gmw_cholesky_factor_bounds 3 test_matrix_R).
  - reflexivity.
  - reflexivity.
  - exact test_matrix_R_symmetric.
Defined.

(** X9.  In exact arithmetic the matrix that [gmw_cholesky] factors,
    [P.T @ A @ P + np.diag(e)], is positive definite for every symmetric
    [A]: its quadratic form is strictly positive at every non-zero vector. *)
Theorem gmw_cholesky_shifted_matrix_positive_definite :
  forall (n : nat) (A : array2 R),
    nrows A = n -> ncols A = n -> symmetric2 A ->
    exists P L e B S,
      gmw_cholesky A = Ok (P, L, e)
      /\ permuted A P = Ok B
      /\ np_add B (np_diag e) = Ok S
      /\ forall y : nat -> R,
           (exists x, x < n /\ y x <> 0%R) -> (0 < quad_form n S y)%R.
Proof.
  intros n A Hr Hc Hsym.
  assert (Hsq : square n A) by (split; assumption).
  destruct (gmw_cholesky_inv n A Hsq Hsym (fun _ _ _ _ => True))
    as (P & r & e & sigma & a & gamma & xi & _ & E & Inv & _); auto.
  destruct (permuted_R n A Hsq P sigma (inv_P_shape Inv) (inv_sigma_bound Inv)
              (inv_P Inv)) as (B & EB & [HrB HcB] & HB).
  pose proof (factorisation_identity n A Hsq Hsym a r e P sigma Inv) as Hid.
  exists P, (transpose r), e, B.
  unfold np_add, same_shape. simpl.
  rewrite HrB, HcB, (inv_e_shape Inv), Nat.eqb_refl. simpl.
  eexists. split; [exact E|]. split; [exact EB|]. split; [reflexivity|].
  intros y (x0 & Hx0 & Hy0).
  set (S := Arr2 n n _).
  assert (HS : forall x k, x < n -> k < n ->
             get2 S x k = sum_n n (fun m => (get2 r m x * get2 r m k)%R)).
  { intros x k Hx Hk. unfold S. simpl. rewrite HB, Hid by assumption.
    destruct (Nat.eqb_spec x k); ring. }
  rewrite (gram_quad_form n S r y HS).
  destruct (Rlt_le_dec 0 (sum_n n (fun m =>
              (sum_n n (fun x => get2 r m x * y x)
               * sum_n n (fun x => get2 r m x * y x))%R))) as [Hpos|Hle];
    [exact Hpos|].
  exfalso. apply Hy0.
  apply (triangular_kernel n r y); try assumption.
  - intros x k Hx Hk Hkx. apply (inv_r_zero Inv); auto.
  - intros m Hm. apply (inv_diag_pos Inv), Hm.
  - intros m Hm.
    apply (sum_squares_zero n (fun m => sum_n n (fun x => (get2 r m x * y x)%R))
             Hle m Hm).
Qed.

Lemma gmw_cholesky_shifted_matrix_positive_definite_witness :
  exists P L e B S,
    gmw_cholesky test_matrix_R = Ok (P, L, e)
    /\ permuted test_matrix_R P = Ok B
    /\ np_add B (np_diag e) = Ok S
    /\ forall y : nat -> R,
         (exists x, x < 3 /\ y x <> 0%R) -> (0 < quad_form 3 S y)%R.
Proof.
  apply (gmw_cholesky_shifted_matrix_positive_definite 3 test_matrix_R).
  - reflexivity.
  - reflexivity.
  - exact test_matrix_R_symmetric.
Defined.

Section PermutationInAnyArithmetic.
Context {T : Type} {num : Num T}.
Hypothesis mul_one_zero : mul one zero = zero.
Hypothesis mul_one_one : mul one one = one.
Variable n : nat.

(** The interchange keeps [P] a permutation matrix: multiplying a column of
    zeros and ones by [1.0] does not change it. *)
Lemma interchange_permutation (j q : nat) (a r P a1 r1 P1 : array2 T) :
  square n a -> square n r -> j < n -> q < n ->
  permutation_matrix_of n P ->
  interchange n j q a r P = Ok (a1, r1, P1) ->
  permutation_matrix_of n P1.
Proof.
  intros Ha Hr Hj Hq (HrP & HcP & sigma & Hb & Hinj & HP) E.
  destruct (Nat.eq_dec q j) as [->|Hne].
  - rewrite interchange_same in E. inversion E; subst a1 r1 P1.
    split; [exact HrP|]. split; [exact HcP|]. exists sigma. auto.
  - destruct (interchange_spec n j q a r P Ha Hr (conj HrP HcP) Hj Hq Hne)
      as (a1' & r1' & P1' & E' & _ & _ & [HrP1 HcP1] & _ & _ & HgP).
    rewrite E in E'. inversion E'; subst a1' r1' P1'. clear E'.
    split; [exact HrP1|]. split; [exact HcP1|].
    exists (fun y => sigma (tau j q y)). split; [|split].
    + intros y Hy. apply Hb, tau_bound; assumption.
    + intros y y' Hy Hy' Heq.
      apply Hinj in Heq; try (apply tau_bound; assumption).
      rewrite <- (tau_involutive j q y), Heq. apply tau_involutive.
    + intros x y Hx Hy. rewrite HgP. unfold tau.
      destruct (Nat.eqb_spec y j) as [->|Hyj].
      * rewrite HP by assumption.
        destruct (x =? sigma q); assumption.
      * destruct (Nat.eqb_spec y q) as [->|Hyq]; apply HP; assumption.
Qed.

Lemma gmw_cholesky_permutation (A : array2 T) :
  square n A ->
  exists P L e, gmw_cholesky A = Ok (P, L, e) /\ permutation_matrix_of n P.
Proof.
  intros HsA. unfold gmw_cholesky.
  replace (nrows A) with n by (symmetry; apply HsA).
  destruct (gamma_xi_inv n A (fun _ _ _ => True) HsA I (fun _ _ _ _ _ _ _ => I))
    as (gamma & xi & Eg & _).
  rewrite Eg. cbn [bind].
  set (delta := calc_delta gamma xi). set (beta := calc_beta n gamma xi).
  destruct (for_range_inv (fun _ s => permutation_state n s)
              (gmw_step n beta delta) 0 n
              (np_scale one A, np_scale zero A, np_zeros1 n, np_eye n))
    as ([[[a r] e] P] & E & _ & _ & _ & HP).
  - lia.
  - unfold permutation_state, square in *. simpl.
    repeat split; try apply HsA; try reflexivity.
    exists (fun y => y). repeat split; auto.
  - intros j [[[a r] e] P] Hj (Ha & Hr & He & HP).
    destruct (gmw_step_spec n beta delta j a r P e Ha Hr)
      as (q & a1 & r1 & P1 & theta & a2 & r2 & e2 & E & _ & Hq & Eint & _ & _
          & _ & _ & Ha2 & Hr2 & He2 & _); try assumption; try lia.
    { destruct HP as (H1 & H2 & _). split; assumption. }
    exists (a2, r2, e2, P1). split; [exact E|].
    unfold permutation_state. repeat split; try apply Ha2; try apply Hr2;
      try exact He2.
    + apply (interchange_permutation j q a r P a1 r1 P1); try assumption; lia.
    + apply (interchange_permutation j q a r P a1 r1 P1); try assumption; lia.
    + apply (interchange_permutation j q a r P a1 r1 P1); try assumption; lia.
  - rewrite E. cbn [bind]. exists P, (transpose r), e.
    split; [reflexivity | exact HP].
Qed.

End PermutationInAnyArithmetic.

(** X10.  The matrix [P] returned by [gmw_cholesky] is exactly a permutation
    matrix, for every square input and in every arithmetic in which
    [1.0 * 0.0 = 0.0] and [1.0 * 1.0 = 1.0] (binary64 is one): [P] is only
    ever changed by exchanging two of its columns, whatever the comparisons
    of the pivot search decide. *)
Theorem gmw_cholesky_permutation_exact :
  forall (T : Type) (num : Num T),
    mul one zero = zero -> mul one one = one ->
    forall (n : nat) (A : array2 T),
      nrows A = n -> ncols A = n ->
      exists P L e,
        gmw_cholesky A = Ok (P, L, e) /\ permutation_matrix_of n P.
Proof.
  intros T num H0 H1 n A Hr Hc.
  apply gmw_cholesky_permutation; try assumption. split; assumption.
Qed.

Lemma gmw_cholesky_permutation_exact_witness :
  exists P L e,
    gmw_cholesky test_matrix = Ok (P, L, e) /\ permutation_matrix_of 3 P.
Proof.
  apply (gmw_cholesky_permutation_exact float float_Num); reflexivity.
Defined.

(** X11.  [gmw_cholesky] does not check that its argument is square: with
    fewer columns than rows it ends with the [IndexError] of the first
    element access out of range, while [gamma] and [xi] are computed.  This
    holds for every arithmetic. *)
Theorem gmw_cholesky_too_few_columns :
  forall (T : Type) (num : Num T) (A : array2 T),
    ncols A < nrows A -> gmw_cholesky A = Raise IndexError.
Proof.
  intros T num A Hlt. unfold gmw_cholesky.
  replace (gamma_xi A (nrows A)) with (@Raise (T * T) IndexError); [reflexivity|].
  symmetry. unfold gamma_xi.
  apply for_range_raise_first; [lia|].
  destruct (Nat.eq_dec (ncols A) 0) as [E0|Hne].
  - rewrite item2_IndexError by lia. reflexivity.
  - rewrite item2_Ok by lia. cbn [bind].
    erewrite (for_range_raise (fun _ _ => True) _ IndexError (0 + 1) (nrows A)
                _ (ncols A)); [reflexivity | lia | exact I | |].
    + intros j xi Hj _. rewrite item2_Ok by lia. cbn [bind].
      eexists. split; [reflexivity | exact I].
    + intros xi _. rewrite item2_IndexError by lia. reflexivity.
Qed.

Lemma gmw_cholesky_too_few_columns_witness :
  gmw_cholesky (of_rows [[4; 2]; [2; 6]; [1; 3]]%float) = Raise IndexError.
Proof.
  apply (gmw_cholesky_too_few_columns float float_Num). simpl. lia.
Defined.

(** X12.  For a 1 x 1 input [[x]], in exact arithmetic, [gmw_cholesky]
    returns [P = [[1]]], [L = [[sqrt d]]] and [e = [d - x]] with
    [d = max(|x|, eps * max(|x|, 1))]: a negative [x] is replaced by its
    absolute value, not by the threshold. *)
Theorem gmw_cholesky_scalar :
  forall A : array2 R,
    nrows A = 1 -> ncols A = 1 ->
    exists P L e,
      gmw_cholesky A = Ok (P, L, e)
      /\ to_rows P = [[1%R]]
      /\ to_rows L
         = [[sqrt (Rmax (Rabs (get2 A 0 0))
                        (R_eps * Rmax (Rabs (get2 A 0 0)) 1))]]
      /\ to_list e
         = [(Rmax (Rabs (get2 A 0 0)) (R_eps * Rmax (Rabs (get2 A 0 0)) 1)
             - get2 A 0 0)%R].
Proof.
  intros [nr nc g] Hr Hc. simpl in Hr, Hc. subst nr nc.
  unfold gmw_cholesky, gamma_xi, for_range. cbn [nrows Nat.sub for_loop].
  unfold item2. cbn [nrows ncols get2 Nat.ltb Nat.leb andb bind].
  unfold for_range. cbn [Nat.add Nat.sub for_loop bind].
  unfold gmw_step, find_pivot, for_range.
  cbn [Nat.add Nat.sub for_loop bind].
  rewrite interchange_same. cbn [bind].
  unfold calc_theta. cbn [Nat.sub Nat.ltb Nat.leb bind].
  unfold item2, np_scale. cbn [nrows ncols get2 Nat.ltb Nat.leb andb bind].
  unfold setitem1, np_zeros1. cbn [len1 get1 Nat.ltb Nat.leb bind].
  unfold setitem2. cbn [nrows ncols get2 Nat.ltb Nat.leb andb bind].
  unfold eliminate, for_range. cbn [Nat.add Nat.sub for_loop bind].
  eexists. eexists. eexists. split; [reflexivity|].
  unfold to_rows, to_list, calc_delta, calc_beta, _EPS.
  cbn [nrows ncols len1 get1 get2 transpose np_eye seq map Nat.eqb andb].
  rewrite !pymax_R. simpl.
  assert (Hd : (Rmax (Rmax (Rabs (1 * g 0%nat 0%nat))
                          (0 / sqrt (Rmax (Rmax (Rabs (g 0%nat 0%nat)) 0) R_eps)
                           * (0 / sqrt (Rmax (Rmax (Rabs (g 0%nat 0%nat)) 0) R_eps))))
                    (R_eps * Rmax (Rmax (Rabs (g 0%nat 0%nat)) 0 + 0) 1)
               = Rmax (Rabs (g 0%nat 0%nat))
                      (R_eps * Rmax (Rabs (g 0%nat 0%nat)) 1))%R).
  { pose proof (Rabs_pos (g 0%nat 0%nat)).
    rewrite Rmult_1_l.
    rewrite (Rmax_left (Rabs (g 0%nat 0%nat)) 0) by assumption.
    rewrite Rplus_0_r.
    replace (0 / sqrt (Rmax (Rabs (g 0%nat 0%nat)) R_eps)
             * (0 / sqrt (Rmax (Rabs (g 0%nat 0%nat)) R_eps)))%R with 0%R
      by (unfold Rdiv; ring).
    rewrite (Rmax_left (Rabs (g 0%nat 0%nat)) 0) by assumption. reflexivity. }
  repeat split.
  - rewrite Hd. reflexivity.
  - rewrite Hd, Rmult_1_l. reflexivity.
Qed.

Lemma gmw_cholesky_scalar_witness :
  exists P L e,
    gmw_cholesky (of_rows [[(-4)%R]]) = Ok (P, L, e)
    /\ to_rows P = [[1%R]]
    /\ to_rows L
       = [[sqrt (Rmax (Rabs (get2 (of_rows [[(-4)%R]]) 0 0))
                      (R_eps * Rmax (Rabs (get2 (of_rows [[(-4)%R]]) 0 0)) 1))]]
    /\ to_list e
       = [(Rmax (Rabs (get2 (of_rows [[(-4)%R]]) 0 0))
                (R_eps * Rmax (Rabs (get2 (of_rows [[(-4)%R]]) 0 0)) 1)
           - get2 (of_rows [[(-4)%R]]) 0 0)%R].
Proof.
  apply (gmw_cholesky_scalar (of_rows [[(-4)%R]])); reflexivity.
Defined.

(** X13.  The pivot search resolves ties in favour of the last candidate.
    In exact arithmetic, when all diagonal entries of [A] have the same
    absolute value (as those of a correlation matrix do) and [n >= 2], the
    first pivot is the last row and column: the returned [P] has
    [P[n-1, 0] = 1] and [P[0, 0] = 0], so it is not the identity. *)
Theorem gmw_cholesky_equal_diagonal_pivots_last :
  forall (n : nat) (A : array2 R),
    2 <= n -> nrows A = n -> ncols A = n ->
    (forall i, i < n -> Rabs (get2 A i i) = Rabs (get2 A 0 0)) ->
    exists P L e,
      gmw_cholesky A = Ok (P, L, e)
      /\ get2 P (n - 1) 0 = 1%R /\ get2 P 0 0 = 0%R.
Proof.
  intros n A Hn Hr Hc Hdiag.
  assert (HsA : square n A) by (split; assumption).
  unfold gmw_cholesky. rewrite Hr.
  destruct (gamma_xi_inv n A (fun _ _ _ => True) HsA I (fun _ _ _ _ _ _ _ => I))
    as (gamma & xi & Eg & _).
  rewrite Eg. cbn [bind].
  set (delta := calc_delta gamma xi). set (beta := calc_beta n gamma xi).
  destruct (for_range_inv
              (fun (k : nat) (s : array2 R * array2 R * array1 R * array2 R) =>
                 let '(a, r, e, P) := s in
                 square n a /\ square n r /\ square n P /\ len1 e = n
                 /\ (k = 0 -> a = np_scale one A /\ P = np_eye n)
                 /\ (1 <= k -> get2 P (n - 1) 0 = 1%R /\ get2 P 0 0 = 0%R))
              (gmw_step n beta delta) 0 n
              (np_scale one A, np_scale zero A, np_zeros1 n, np_eye n))
    as ([[[a r] e] P] & E & _ & _ & _ & _ & _ & HP).
  - lia.
  - unfold square in *. simpl. repeat split; try assumption; try reflexivity; lia.
  - intros j [[[a r] e] P] Hj (Ha & Hra & HPs & He & H0 & H1).
    destruct (gmw_step_spec n beta delta j a r P e Ha Hra HPs He)
      as (q & a1 & r1 & P1 & theta & a2 & r2 & e2 & Es & Eq & Hq & Eint & _ & _
          & HP1 & _ & Ha2 & Hr2 & He2 & _); [lia|].
    exists (a2, r2, e2, P1). split; [exact Es|].
    split; [exact Ha2|]. split; [exact Hr2|]. split; [exact HP1|].
    split; [exact He2|]. split; [lia|]. intros _.
    destruct (Nat.eq_dec j 0) as [->|Hj0].
    + (* the first iteration: the pivot is the last index *)
      destruct (H0 eq_refl) as [-> ->].
      destruct (find_pivot_inv n (np_scale one A) 0 (fun i q0 => q0 = i - 1)
                  Ha ltac:(lia)) as (q' & Eq' & _ & Hq').
      { reflexivity. }
      { intros i q0 Hi Hq0 ->. simpl.
        rewrite !Rmult_1_l, (Hdiag i), (Hdiag (i - 1)) by lia.
        destruct (Rle_dec (Rabs (get2 A 0 0)) (Rabs (get2 A 0 0))) as [_|Hno];
          [lia | exfalso; apply Hno; lra]. }
      rewrite Eq in Eq'. inversion Eq'; subst q'. clear Eq'. subst q.
      destruct (interchange_spec n 0 (n - 0 - 1 + 0) (np_scale one A) r (np_eye n))
        as (a1' & r1' & P1' & E' & _ & _ & _ & _ & _ & HgP);
        try assumption; try lia.
      replace (n - 0 - 1 + 0) with (n - 1) in * by lia.
      replace (n - 1 - 0) with (n - 1) in * by lia.
      rewrite Eint in E'. inversion E'; subst a1' r1' P1'. clear E'.
      rewrite !HgP. unfold np_eye. cbn [get2].
      rewrite !Nat.eqb_refl.
      destruct (Nat.eqb_spec 0 (n - 1)); [lia|]. simpl. split; ring.
    + (* later iterations leave column 0 alone *)
      destruct (H1 ltac:(lia)) as [Hl Hf].
      destruct (Nat.eq_dec q j) as [->|Hne].
      * rewrite interchange_same in Eint. inversion Eint; subst a1 r1 P1.
        split; assumption.
      * destruct (interchange_spec n j q a r P Ha Hra HPs)
          as (a1' & r1' & P1' & E' & _ & _ & _ & _ & _ & HgP); try lia.
        rewrite Eint in E'. inversion E'; subst a1' r1' P1'. clear E'.
        rewrite !HgP.
        destruct (Nat.eqb_spec 0 j); [lia|].
        destruct (Nat.eqb_spec 0 q); [lia|]. split; assumption.
  - rewrite E. cbn [bind]. exists P, (transpose r), e.
    split; [reflexivity|]. apply HP. lia.
Qed.

Lemma gmw_cholesky_equal_diagonal_pivots_last_witness :
  exists P L e,
    gmw_cholesky corr_half = Ok (P, L, e)
    /\ get2 P (2 - 1) 0 = 1%R /\ get2 P 0 0 = 0%R.
Proof.
  apply (gmw_cholesky_equal_diagonal_pivots_last 2 corr_half).
  - lia.
  - reflexivity.
  - reflexivity.
  - intros i Hi. destruct i as [|[|i]]; try lia; reflexivity.
Defined.

(** ** The sampler *)

Section SortingOverR.
Open Scope R_scope.
Context {A : Type}.
Variable key : A -> R.

Lemma insert_by_ascending (x : A) (l : list A) :
  ascending_by key l ->
  ascending_by key (insert_by (fun a b => ltb (key a) (key b)) x l).
Proof.
  induction l as [|y l IH]; simpl; intros Hl.
  - split; [intros y []| exact I].
  - destruct Hl as [Hy Hl].
    destruct (Rlt_dec (key y) (key x)) as [Hlt|Hge].
    + split; [|apply IH, Hl].
      intros z Hz.
      apply (Permutation_in _ (insert_by_perm _ x l)) in Hz.
      destruct Hz as [<-|Hz]; [lra | apply Hy, Hz].
    + split; [|split; assumption].
      intros z [<-|Hz]; [lra|]. specialize (Hy z Hz). lra.
Qed.

Lemma sort_by_ascending (l : list A) :
  ascending_by key (sort_by (fun a b => ltb (key a) (key b)) l).
Proof.
  induction l as [|x l IH]; simpl; [exact I|].
  apply insert_by_ascending, IH.
Qed.

Lemma ascending_by_nth (l : list A) (d : A) :
  ascending_by key l ->
  forall p p', (p <= p')%nat -> (p' < length l)%nat ->
               key (nth p l d) <= key (nth p' l d).
Proof.
  induction l as [|x l IH]; simpl; intros Hl p p' Hpp Hp'; [lia|].
  destruct Hl as [Hx Hl].
  destruct p as [|p], p' as [|p']; try lia.
  - lra.
  - apply Hx, nth_In. lia.
  - apply IH; try assumption; lia.
Qed.

End SortingOverR.

Section RankOrder.
Open Scope R_scope.

(** [np.sort] returns its values in non-decreasing order. *)
Lemma np_sort_ascending (v : array1 R) p p' :
  (p <= p')%nat -> (p' < len1 v)%nat ->
  get1 (np_sort v) p <= get1 (np_sort v) p'.
Proof.
  intros Hpp Hp'. unfold np_sort, of_list. simpl.
  apply (ascending_by_nth (fun x => x)).
  - apply (sort_by_ascending (fun x : R => x)).
  - exact Hpp.
  - rewrite sort_by_length, to_list_length. exact Hp'.
Qed.

(** [np.argsort] lists the positions in non-decreasing order of their
    values. *)
Lemma np_argsort_ascending (v : array1 R) p p' :
  (p <= p')%nat -> (p' < len1 v)%nat ->
  get1 v (get1 (np_argsort v) p) <= get1 v (get1 (np_argsort v) p').
Proof.
  intros Hpp Hp'. unfold np_argsort. simpl.
  apply (ascending_by_nth (get1 v)).
  - apply (sort_by_ascending (get1 v)).
  - exact Hpp.
  - rewrite sort_by_length, length_seq. exact Hp'.
Qed.

(** Every position is listed by a rearrangement of the positions. *)
Lemma perm_seq_surj (r : nat -> nat) (m a : nat) :
  Permutation (map r (seq 0 m)) (seq 0 m) ->
  (a < m)%nat -> exists k, (k < m)%nat /\ r k = a.
Proof.
  intros Hp Ha.
  assert (Hin : In a (map r (seq 0 m))).
  { apply (Permutation_in _ (Permutation_sym Hp)), in_seq. lia. }
  apply in_map_iff in Hin. destruct Hin as (k & Ek & Hk).
  apply in_seq in Hk. exists k. split; [lia | exact Ek].
Qed.

Variables (num_samples : nat) (samples dependent_samples : array2 R).
Variables (mean_values std_dev : array1 R).

(** The column written by the rank-matching step is ordered as the column
    of [dependent_samples] is. *)
Lemma rank_match_column_order j z z1 :
  rank_match_column num_samples samples dependent_samples mean_values std_dev
                    j z = Ok z1 ->
  0 <= get1 std_dev j ->
  forall a b, (a < num_samples)%nat -> (b < num_samples)%nat ->
    get2 dependent_samples a j < get2 dependent_samples b j ->
    get2 z1 a j <= get2 z1 b j.
Proof.
  intros E Hsd a b Ha Hb Hab. unfold rank_match_column in E.
  apply bind_Ok_inv in E. destruct E as (dj & Edj & E).
  apply bind_Ok_inv in E. destruct E as (rank & Erank & E).
  apply bind_Ok_inv in E. destruct E as (sj & Esj & E).
  apply bind_Ok_inv in E. destruct E as (rsr & Ersr & E).
  apply bind_Ok_inv in E. destruct E as (sd & Esd & E).
  apply bind_Ok_inv in E. destruct E as (mu & Emu & E).
  apply getcol_Ok_inv in Edj. destruct Edj as [Hjd Edj].
  apply getcol_Ok_inv in Esj. destruct Esj as [Hjs Esj].
  apply item1_Ok_inv in Esd. destruct Esd as [_ ->].
  apply item1_Ok_inv in Emu. destruct Emu as [_ ->].
  pose proof (scatter_range_Ok_len _ _ _ Erank) as Hr.
  destruct (np_argsort_perm dj) as [Hal Hap].
  rewrite Hal in Hr.
  destruct (scatter_range_spec (np_argsort dj) num_samples)
    as (rank' & E' & Hl' & Hinv & Hbound).
  { congruence. }
  { rewrite <- Hr. exact Hap. }
  rewrite E' in Erank. inversion Erank; subst rank'. clear Erank E'.
  assert (Htake : forall i, (i < num_samples)%nat ->
                            (get1 rank i < len1 (np_sort sj))%nat).
  { unfold take in Ersr.
    destruct (forallb _ _) eqn:Hall in Ersr; [|discriminate].
    intros i Hi. rewrite forallb_forall in Hall.
    apply Nat.ltb_lt, Hall, in_seq. lia. }
  apply take_Ok_inv in Ersr.
  apply setcol_Ok_inv in E. destruct E as (_ & _ & ->).
  subst rsr. simpl. rewrite Nat.eqb_refl.
  (* the ranks of [a] and [b] *)
  rewrite Hr in Hap.
  destruct (perm_seq_surj (get1 (np_argsort dj)) num_samples a) as (ka & Hka & Eka);
    [exact Hap | exact Ha |].
  destruct (perm_seq_surj (get1 (np_argsort dj)) num_samples b) as (kb & Hkb & Ekb);
    [exact Hap | exact Hb |].
  assert (Ra : get1 rank a = ka) by (rewrite <- Eka; apply Hinv, Hka).
  assert (Rb : get1 rank b = kb) by (rewrite <- Ekb; apply Hinv, Hkb).
  assert (Hlt : (ka < kb)%nat).
  { destruct (Nat.lt_ge_cases ka kb) as [Hlt|Hge]; [exact Hlt|].
    exfalso.
    pose proof (np_argsort_ascending dj kb ka Hge ltac:(lia)) as Hs.
    rewrite Eka, Ekb in Hs. subst dj. simpl in Hs. lra. }
  rewrite Ra, Rb.
  assert (Hrs : get1 (np_sort sj) ka <= get1 (np_sort sj) kb).
  { apply np_sort_ascending; [lia|].
    specialize (Htake b Hb). rewrite Rb, np_sort_len in Htake. exact Htake. }
  apply Rplus_le_compat_r, Rmult_le_compat_r; assumption.
Qed.

(** Whenever the rank-matching loop returns, each of its columns is ordered
    as the corresponding column of [dependent_samples]. *)
Lemma rank_match_order num_vars z0 z :
  rank_match num_vars num_samples samples dependent_samples mean_values std_dev z0
  = Ok z ->
  forall j a b, (j < num_vars)%nat -> (a < num_samples)%nat -> (b < num_samples)%nat ->
    0 <= get1 std_dev j ->
    get2 dependent_samples a j < get2 dependent_samples b j ->
    get2 z a j <= get2 z b j.
Proof.
  intros E. rewrite rank_match_eq in E.
  apply (for_range_inv_partial
           (fun (i : nat) (z : array2 R) =>
              forall j a b, (j < i)%nat -> (a < num_samples)%nat ->
                (b < num_samples)%nat -> 0 <= get1 std_dev j ->
                get2 dependent_samples a j < get2 dependent_samples b j ->
                get2 z a j <= get2 z b j)
           (rank_match_column num_samples samples dependent_samples
                              mean_values std_dev) 0 num_vars z0 z);
    try assumption.
  - lia.
  - intros j a b Hj. lia.
  - intros i z1 z2 Hi Hinv E1 j a b Hj Ha Hb Hsd Hab.
    destruct (Nat.eq_dec j i) as [->|Hne].
    + apply (rank_match_column_order i z1 z2 E1 Hsd a b Ha Hb Hab).
    + assert (Hkeep : forall r c, c <> i -> get2 z2 r c = get2 z1 r c).
      { unfold rank_match_column in E1.
        apply bind_Ok_inv in E1. destruct E1 as (dj & _ & E1).
        apply bind_Ok_inv in E1. destruct E1 as (rank & _ & E1).
        apply bind_Ok_inv in E1. destruct E1 as (sj & _ & E1).
        apply bind_Ok_inv in E1. destruct E1 as (rsr & _ & E1).
        apply bind_Ok_inv in E1. destruct E1 as (sd & _ & E1).
        apply bind_Ok_inv in E1. destruct E1 as (mu & _ & E1).
        apply setcol_Ok_inv in E1. destruct E1 as (_ & _ & ->).
        intros r c Hc. simpl.
        destruct (Nat.eqb_spec c i); [contradiction | reflexivity]. }
      rewrite !Hkeep by assumption. apply Hinv; try assumption. lia.
Qed.

End RankOrder.

(** X14.  In exact arithmetic the rank-matching step gives every output
    column the rank order of the corresponding column of the transformed
    sample: when [std_dev[j]] is not negative and row [a] of
    [dependent_samples] is below row [b] in column [j], the output has
    [z[a, j] <= z[b, j]].  This holds of the result of
    [lhs_normal_sample_corr] whenever it returns, for every implementation
    of the library routines, and with consistent shapes the loop always
    returns. *)
Theorem rank_matching_follows_dependent_order :
  (forall (L : Library R) (mean_values std_dev : array1 R)
          (desired_corr : array2 R) (num_samples : nat) (zb : array2 R),
      lhs_normal_sample_corr mean_values std_dev desired_corr num_samples = Ok zb ->
      exists samples dependent_samples,
        lhs_normal_sample num_samples (np_zeros1 (len1 mean_values))
                          (np_ones (len1 mean_values)) = Ok samples
        /\ dependent_samples_of samples desired_corr = Ok dependent_samples
        /\ forall j a b,
             j < len1 mean_values -> a < num_samples -> b < num_samples ->
             (0 <= get1 std_dev j)%R ->
             (get2 dependent_samples a j < get2 dependent_samples b j)%R ->
             (get2 zb a j <= get2 zb b j)%R)
  /\ (forall (num_vars num_samples : nat) (samples dependent_samples : array2 R)
             (mean_values std_dev : array1 R) (z0 : array2 R),
         nrows dependent_samples = num_samples ->
         nrows samples = num_samples -> nrows z0 = num_samples ->
         num_vars <= ncols dependent_samples -> num_vars <= ncols samples ->
         num_vars <= ncols z0 ->
         num_vars <= len1 std_dev -> num_vars <= len1 mean_values ->
         exists z,
           rank_match num_vars num_samples samples dependent_samples
                      mean_values std_dev z0 = Ok z
           /\ forall j a b,
                j < num_vars -> a < num_samples -> b < num_samples ->
                (0 <= get1 std_dev j)%R ->
                (get2 dependent_samples a j < get2 dependent_samples b j)%R ->
                (get2 z a j <= get2 z b j)%R).
Proof.
  split.
  - intros L mean_values std_dev desired_corr num_samples zb E.
    rewrite lhs_normal_sample_corr_unrolled in E.
    apply bind_Ok_inv in E. destruct E as (samples & Es & E).
    apply bind_Ok_inv in E. destruct E as (dep & Ed & E).
    apply bind_Ok_inv in E. destruct E as ([z ae] & Et & E).
    destruct (ltb ae lit_1_8e308); [|discriminate].
    inversion E; subst z. clear E.
    unfold one_try in Et.
    apply bind_Ok_inv in Et. destruct Et as (z & Ez & Et).
    apply bind_Ok_inv in Et. destruct Et as (c & _ & Et).
    apply bind_Ok_inv in Et. destruct Et as (ae' & _ & Et).
    inversion Et; subst z ae'. clear Et.
    exists samples, dep. split; [exact Es|]. split; [exact Ed|].
    apply (rank_match_order num_samples samples dep mean_values std_dev
             (len1 mean_values) _ zb Ez).
  - intros num_vars num_samples samples dep mean_values std_dev z0
           Hd Hs Hz Hvd Hvs Hvz Hsd Hmu.
    destruct (rank_match_total num_samples samples dep mean_values std_dev
                num_vars z0) as (z & E); try assumption.
    exists z. split; [exact E|].
    apply (rank_match_order num_samples samples dep mean_values std_dev
             num_vars z0 z E).
Qed.

Lemma rank_matching_follows_dependent_order_witness :
  exists z,
    rank_match 2 3 (of_rows [[1; 5]; [2; 4]; [3; 6]]%R)
               (of_rows [[9; 1]; [7; 2]; [8; 3]]%R)
               (of_list [10; 20]%R) (of_list [1; 2]%R) (np_zeros2 3 2) = Ok z
    /\ forall j a b,
         j < 2 -> a < 3 -> b < 3 ->
         (0 <= get1 (of_list [1; 2]%R) j)%R ->
         (get2 (of_rows [[9; 1]; [7; 2]; [8; 3]]%R) a j
          < get2 (of_rows [[9; 1]; [7; 2]; [8; 3]]%R) b j)%R ->
         (get2 z a j <= get2 z b j)%R.
Proof.
  apply (proj2 rank_matching_follows_dependent_order); simpl; lia.
Defined.

Section NormalSample.
Context {T : Type} {num : Num T} {lib : Library T}.
Variables (num_samples : nat) (means std_dev : array1 T).

(** One column of [lhs_normal_sample]. *)
Lemma lhs_normal_sample_column (i : nat) (s : array2 T) :
  i < len1 means -> i < len1 std_dev -> i < ncols s ->
  (m <- item1 means i ;;
   sd <- item1 std_dev i ;;
   col <- getcol s i ;;
   setcol s i (np_map1 (norm_ppf m sd) col))
  = Ok (Arr2 (nrows s) (ncols s)
          (fun r c => if c =? i
                      then norm_ppf (get1 means i) (get1 std_dev i) (get2 s r i)
                      else get2 s r c)).
Proof.
  intros Hm Hs Hc. rewrite !item1_Ok by assumption. cbn [bind].
  unfold getcol. destruct (Nat.ltb_spec i (ncols s)); [|lia]. cbn [bind].
  unfold setcol. destruct (Nat.ltb_spec i (ncols s)); [|lia].
  simpl. rewrite Nat.eqb_refl. reflexivity.
Qed.

Variable u : array2 T.
Hypothesis lhs_sample_Ok : lhs_sample (len1 means) num_samples = Ok u.

Lemma lhs_normal_sample_spec :
  len1 means <= len1 std_dev ->
  len1 means <= ncols u ->
  exists samples,
    lhs_normal_sample num_samples means std_dev = Ok samples
    /\ nrows samples = nrows u
    /\ ncols samples = ncols u
    /\ forall r i,
         get2 samples r i
         = if i <? len1 means
           then norm_ppf (get1 means i) (get1 std_dev i) (get2 u r i)
           else get2 u r i.
Proof.
  intros Hsd Hcols. unfold lhs_normal_sample, lhs_uniform_sample.
  rewrite lhs_sample_Ok. cbn [bind].
  destruct (for_range_inv
              (fun (k : nat) (s : array2 T) =>
                 nrows s = nrows u /\ ncols s = ncols u
                 /\ forall r i, get2 s r i
                      = if i <? k
                        then norm_ppf (get1 means i) (get1 std_dev i) (get2 u r i)
                        else get2 u r i)
              (fun i samples =>
                 m <- item1 means i ;;
                 sd <- item1 std_dev i ;;
                 col <- getcol samples i ;;
                 setcol samples i (np_map1 (norm_ppf m sd) col))
              0 (len1 means) u) as (s & E & Hr & Hc & Hg).
  - lia.
  - repeat split.
  - intros i s Hi (Hr & Hc & Hg).
    rewrite lhs_normal_sample_column by lia.
    eexists. split; [reflexivity|]. simpl.
    split; [exact Hr|]. split; [exact Hc|].
    intros r c. rewrite !Hg.
    destruct (Nat.eqb_spec c i) as [->|Hne].
    + destruct (Nat.ltb_spec i i); [lia|].
      destruct (Nat.ltb_spec i (S i)); [reflexivity | lia].
    + destruct (Nat.ltb_spec c i), (Nat.ltb_spec c (S i)); try lia; reflexivity.
  - exists s. auto.
Qed.

Lemma lhs_normal_sample_IndexError :
  len1 std_dev < len1 means \/ ncols u < len1 means ->
  lhs_normal_sample num_samples means std_dev = Raise IndexError.
Proof.
  intros Hshort. unfold lhs_normal_sample, lhs_uniform_sample.
  rewrite lhs_sample_Ok. cbn [bind].
  apply (for_range_raise
           (fun (_ : nat) (s : array2 T) => ncols s = ncols u)
           _ IndexError 0 (len1 means) u
           (Nat.min (len1 std_dev) (ncols u))).
  - lia.
  - reflexivity.
  - intros i s Hi Hc.
    rewrite lhs_normal_sample_column by lia.
    eexists. split; [reflexivity | exact Hc].
  - intros s Hc.
    rewrite item1_Ok by lia. cbn [bind].
    destruct (Nat.lt_ge_cases (Nat.min (len1 std_dev) (ncols u)) (len1 std_dev))
      as [Hlt|Hge].
    + rewrite item1_Ok by exact Hlt. cbn [bind].
      unfold getcol.
      destruct (Nat.ltb_spec (Nat.min (len1 std_dev) (ncols u)) (ncols s));
        [lia | reflexivity].
    + unfold item1 at 1.
      destruct (Nat.ltb_spec (Nat.min (len1 std_dev) (ncols u)) (len1 std_dev));
        [lia | reflexivity].
Qed.

End NormalSample.

(** X15.  [lhs_normal_sample] passes on the exception of the Latin-hypercube
    sampler when that raises.  When the sampler returns a sample,
    [lhs_normal_sample] returns it with every entry of column [i] replaced
    by the normal quantile of location [means[i]] and scale [std_dev[i]] at
    that entry, the shape unchanged, provided [std_dev] and the sample have
    at least [len(means)] entries and columns; otherwise it ends with an
    [IndexError].  This holds for every arithmetic and every implementation
    of the library routines. *)
Theorem lhs_normal_sample_transforms_columns :
  forall (T : Type) (HN : Num T) (L : Library T)
         (num_samples : nat) (means std_dev : array1 T),
    (forall e, lhs_sample (len1 means) num_samples = Raise e ->
               lhs_normal_sample num_samples means std_dev = Raise e)
    /\ (forall u, lhs_sample (len1 means) num_samples = Ok u ->
          (len1 means <= len1 std_dev ->
           len1 means <= ncols u ->
           exists samples,
             lhs_normal_sample num_samples means std_dev = Ok samples
             /\ nrows samples = nrows u
             /\ ncols samples = ncols u
             /\ forall r i,
                  get2 samples r i
                  = if i <? len1 means
                    then norm_ppf (get1 means i) (get1 std_dev i) (get2 u r i)
                    else get2 u r i)
          /\ (len1 std_dev < len1 means \/ ncols u < len1 means ->
              lhs_normal_sample num_samples means std_dev = Raise IndexError)).
Proof.
  intros T HN L num_samples means std_dev. split.
  - intros e E. unfold lhs_normal_sample, lhs_uniform_sample.
    rewrite E. reflexivity.
  - intros u E. split.
    + apply lhs_normal_sample_spec. exact E.
    + apply lhs_normal_sample_IndexError. exact E.
Qed.

Lemma lhs_normal_sample_transforms_columns_witness :
  (exists samples,
      lhs_normal_sample (lib:=run_library) 10 run_mean run_std = Ok samples
      /\ nrows samples = nrows lhs_draw
      /\ ncols samples = ncols lhs_draw
      /\ forall r i,
           get2 samples r i
           = if i <? 2
             then norm_ppf (Library:=run_library)
                           (get1 run_mean i) (get1 run_std i)
                           (get2 lhs_draw r i)
             else get2 lhs_draw r i)
  /\ lhs_normal_sample (lib:=run_library) 10 (of_list [20; 20; 20]%float) run_std
     = Raise IndexError
  /\ lhs_normal_sample
       (lib:={| lhs_sample := fun _ _ => Raise ZeroDivisionError;
                norm_ppf := norm_ppf (Library:=run_library);
                np_corrcoef := corrcoef_model;
                linalg_cholesky := cholesky_model;
                linalg_inv := inv_model |})
       0 run_mean run_std
     = Raise ZeroDivisionError.
Proof.
  split; [|split].
  - apply (proj1 (proj2 (lhs_normal_sample_transforms_columns float float_Num
                           run_library 10 run_mean run_std) lhs_draw eq_refl));
      simpl; lia.
  - apply (proj2 (proj2 (lhs_normal_sample_transforms_columns float float_Num
                           run_library 10 (of_list [20; 20; 20]%float) run_std)
                        lhs_draw eq_refl)).
    left. simpl. lia.
  - apply (proj1 (lhs_normal_sample_transforms_columns float float_Num
                    {| lhs_sample := fun _ _ => Raise ZeroDivisionError;
                       norm_ppf := norm_ppf (Library:=run_library);
                       np_corrcoef := corrcoef_model;
                       linalg_cholesky := cholesky_model;
                       linalg_inv := inv_model |}
                    0 run_mean run_std)).
    reflexivity.
Defined.

(** ** The tries of the rank matching *)

(** Two runs of a loop whose states are related at the start stay related,
    when the body keeps the relation. *)
Lemma for_loop_related {S : Type} (Rel : nat -> S -> S -> Prop)
    (body : nat -> S -> result S) :
  forall count lo s t s',
    Rel lo s t ->
    (forall i s0 t0 s1, lo <= i < lo + count -> Rel i s0 t0 ->
       body i s0 = Ok s1 ->
       exists t1, body i t0 = Ok t1 /\ Rel (Datatypes.S i) s1 t1) ->
    for_loop count lo body s = Ok s' ->
    exists t', for_loop count lo body t = Ok t' /\ Rel (lo + count) s' t'.
Proof.
  induction count as [|count IH]; intros lo s t s' H0 Hstep E; simpl in *.
  - injection E as <-. exists t. rewrite Nat.add_0_r. auto.
  - destruct (body lo s) as [s1|e] eqn:E1; [|discriminate E].
    cbn [bind] in E.
    destruct (Hstep lo s t s1) as (t1 & Et1 & H1); [lia | assumption.. |].
    rewrite Et1. cbn [bind].
    destruct (IH (Datatypes.S lo) s1 t1 s' H1) as (t' & Et' & H').
    + intros i s0 t0 s2 Hi. apply Hstep. lia.
    + exact E.
    + exists t'. split; [exact Et'|].
      replace (lo + Datatypes.S count) with (Datatypes.S lo + count) by lia.
      exact H'.
Qed.

Section RankMatchTries.
Context {T : Type} {num : Num T}.
Variables (num_samples : nat) (samples dependent_samples : array2 T)
          (mean_values std_dev : array1 T).

(** The column that the rank-matching step writes does not depend on what
    [z] holds. *)
Lemma rank_match_column_related (j : nat) (z1 z2 t1 : array2 T) :
  rank_match_column num_samples samples dependent_samples mean_values std_dev
                    j z1 = Ok z2 ->
  nrows t1 = nrows z1 -> ncols t1 = ncols z1 ->
  exists t2,
    rank_match_column num_samples samples dependent_samples mean_values std_dev
                      j t1 = Ok t2
    /\ nrows z2 = nrows z1 /\ ncols z2 = ncols z1
    /\ nrows t2 = nrows z1 /\ ncols t2 = ncols z1
    /\ (forall r, get2 t2 r j = get2 z2 r j)
    /\ (forall r c, c <> j -> get2 z2 r c = get2 z1 r c)
    /\ (forall r c, c <> j -> get2 t2 r c = get2 t1 r c).
Proof.
  intros E Hr Hc. unfold rank_match_column in *.
  destruct (getcol dependent_samples j) as [dj|]; [|discriminate E].
  cbn [bind] in *.
  destruct (scatter_range (np_argsort dj) num_samples) as [rank|];
    [|discriminate E].
  cbn [bind] in *.
  destruct (getcol samples j) as [sj|]; [|discriminate E].
  cbn [bind] in *.
  destruct (take (np_sort sj) rank) as [rsr|]; [|discriminate E].
  cbn [bind] in *.
  destruct (item1 std_dev j) as [sd|]; [|discriminate E].
  cbn [bind] in *.
  destruct (item1 mean_values j) as [mu|]; [|discriminate E].
  cbn [bind] in *.
  unfold setcol in *. rewrite Hr, Hc.
  destruct (j <? ncols z1); [|discriminate E].
  destruct (len1 _ =? nrows z1); [|discriminate E].
  injection E as <-.
  eexists. split; [reflexivity|]. cbn [nrows ncols get2].
  repeat split; try assumption.
  - intros r. rewrite Nat.eqb_refl. reflexivity.
  - intros r c Hne. destruct (Nat.eqb_spec c j); [contradiction|reflexivity].
  - intros r c Hne. destruct (Nat.eqb_spec c j); [contradiction|reflexivity].
Qed.

End RankMatchTries.

(** X27.  A try of the rank matching never reads what [z] holds.  In any
    arithmetic, if the loop over the columns returns from one array [z0], it
    returns from every array of the same shape, with the same first
    [num_vars] columns; the other columns are left as they were.  So a
    second try, which starts from the [z] of the first, computes the same
    [z] again. *)
Theorem rank_matching_ignores_previous_try :
  forall (T : Type) (num : Num T) (num_vars num_samples : nat)
         (samples dependent_samples : array2 T) (mean_values std_dev : array1 T)
         (z0 z : array2 T),
    rank_match num_vars num_samples samples dependent_samples
               mean_values std_dev z0 = Ok z ->
    (forall z0' : array2 T,
       nrows z0' = nrows z0 -> ncols z0' = ncols z0 ->
       exists z',
         rank_match num_vars num_samples samples dependent_samples
                    mean_values std_dev z0' = Ok z'
         /\ nrows z' = nrows z /\ ncols z' = ncols z
         /\ (forall r c, c < num_vars -> get2 z' r c = get2 z r c)
         /\ (forall r c, num_vars <= c -> get2 z' r c = get2 z0' r c))
    /\ exists z',
         rank_match num_vars num_samples samples dependent_samples
                    mean_values std_dev z = Ok z'
         /\ nrows z' = nrows z /\ ncols z' = ncols z
         /\ forall r c, get2 z' r c = get2 z r c.
Proof.
  intros T num num_vars num_samples samples dependent_samples mean_values
         std_dev z0 z E.
  assert (Hgen : forall z0' : array2 T,
             nrows z0' = nrows z0 -> ncols z0' = ncols z0 ->
             exists z',
               rank_match num_vars num_samples samples dependent_samples
                          mean_values std_dev z0' = Ok z'
               /\ nrows z = nrows z0 /\ ncols z = ncols z0
               /\ nrows z' = nrows z0 /\ ncols z' = ncols z0
               /\ (forall r c, c < num_vars -> get2 z' r c = get2 z r c)
               /\ (forall r c, num_vars <= c -> get2 z' r c = get2 z0' r c)).
  { intros z0' Hr Hc. unfold rank_match, for_range in *.
    rewrite Nat.sub_0_r in *.
    destruct (for_loop_related
                (fun (i : nat) (s t : array2 T) =>
                   nrows s = nrows z0 /\ ncols s = ncols z0
                   /\ nrows t = nrows z0 /\ ncols t = ncols z0
                   /\ (forall r c, c < i -> get2 t r c = get2 s r c)
                   /\ (forall r c, i <= c -> get2 t r c = get2 z0' r c))
                (rank_match_column num_samples samples dependent_samples
                                   mean_values std_dev)
                num_vars 0 z0 z0' z) as (z' & E' & H').
    - repeat split; try assumption; try reflexivity. intros r c Hlt. lia.
    - intros i s0 t0 s1 Hi (Hsr & Hsc & Htr & Htc & Hlow & Hhigh) Es.
      destruct (rank_match_column_related num_samples samples
                  dependent_samples mean_values std_dev i s0 s1 t0 Es)
        as (t1 & Et & Hs1r & Hs1c & Ht1r & Ht1c & Hcol & Hks & Hkt);
        [congruence.. |].
      exists t1. split; [exact Et|].
      repeat split; try congruence.
      + intros r c Hlt. destruct (Nat.eq_dec c i) as [->|Hne].
        * apply Hcol.
        * rewrite Hkt, Hks by exact Hne. apply Hlow. lia.
      + intros r c Hle. rewrite Hkt by lia. apply Hhigh. lia.
    - exact E.
    - exists z'. split; [exact E'|]. simpl in H'. tauto. }
  split.
  - intros z0' Hr Hc.
    destruct (Hgen z0' Hr Hc) as (z' & E' & Hzr & Hzc & Hr' & Hc' & Hlow & Hhigh).
    exists z'. repeat split; try assumption; congruence.
  - destruct (Hgen z0 eq_refl eq_refl) as (z1 & E1 & Hzr & Hzc & _).
    rewrite E in E1. injection E1 as <-.
    destruct (Hgen z Hzr Hzc) as (z' & E' & _ & _ & Hr' & Hc' & Hlow & Hhigh).
    exists z'. repeat split; try assumption; try congruence.
    intros r c. destruct (Nat.lt_ge_cases c num_vars) as [Hlt|Hge].
    + apply Hlow, Hlt.
    + apply Hhigh, Hge.
Qed.

Lemma rank_matching_ignores_previous_try_witness :
  exists z z',
    rank_match 2 3 (of_rows [[1; 5]; [2; 4]; [3; 6]]%R)
               (of_rows [[9; 1]; [7; 2]; [8; 3]]%R)
               (of_list [10; 20]%R) (of_list [1; 2]%R) (np_zeros2 3 2) = Ok z
    /\ rank_match 2 3 (of_rows [[1; 5]; [2; 4]; [3; 6]]%R)
                  (of_rows [[9; 1]; [7; 2]; [8; 3]]%R)
                  (of_list [10; 20]%R) (of_list [1; 2]%R) z = Ok z'
    /\ forall r c, get2 z' r c = get2 z r c.
Proof.
  destruct (rank_match_total 3 (of_rows [[1; 5]; [2; 4]; [3; 6]]%R)
              (of_rows [[9; 1]; [7; 2]; [8; 3]]%R)
              (of_list [10; 20]%R) (of_list [1; 2]%R) 2 (np_zeros2 3 2))
    as (z & E); try (simpl; lia).
  destruct (rank_matching_ignores_previous_try R R_Num 2 3
              (of_rows [[1; 5]; [2; 4]; [3; 6]]%R)
              (of_rows [[9; 1]; [7; 2]; [8; 3]]%R)
              (of_list [10; 20]%R) (of_list [1; 2]%R) (np_zeros2 3 2) z E)
    as (_ & z' & E' & _ & _ & H).
  exists z, z'. split; [exact E|]. split; [exact E'|exact H].
Defined.

(** ** AceIO: splitting, reading and writing text *)

Section Splitting.

Lemma isspace_space : isspace space = true.
Proof. reflexivity. Qed.

Lemma isspace_newline : isspace newline = true.
Proof. reflexivity. Qed.

(** Reading the characters of a word extends the word being read. *)
Lemma split_from_word (w word s : pystr) :
  (forall c, In c w -> isspace c = false) ->
  split_from word (w ++ s) = split_from (word ++ w) s.
Proof.
  revert word. induction w as [|c w IH]; intros word Hw; simpl.
  - rewrite app_nil_r. reflexivity.
  - rewrite (Hw c) by (left; reflexivity).
    rewrite IH by (intros c' Hc'; apply Hw; right; exact Hc').
    rewrite <- app_assoc. reflexivity.
Qed.

(** Whitespace ends the word being read. *)
Lemma split_from_space (word s : pystr) (c : Ascii.ascii) :
  isspace c = true ->
  split_from word (c :: s)
  = match word with [] => [] | _ => [word] end ++ py_split s.
Proof.
  intros Hc. simpl. rewrite Hc. destruct word; reflexivity.
Qed.

Lemma py_split_spaces (sp s : pystr) :
  (forall c, In c sp -> isspace c = true) ->
  py_split (sp ++ s) = py_split s.
Proof.
  induction sp as [|c sp IH]; intros Hsp; simpl; [reflexivity|].
  unfold py_split in *. simpl. rewrite (Hsp c) by (left; reflexivity).
  apply IH. intros c' Hc'. apply Hsp. right. exact Hc'.
Qed.

(** A word followed by nothing or by whitespace is the first word. *)
Lemma py_split_word (w s : pystr) :
  is_word w ->
  s = [] \/ (exists c s', s = c :: s' /\ isspace c = true) ->
  py_split (w ++ s) = w :: py_split s.
Proof.
  intros [Hne Hw] Hs. unfold py_split at 1.
  rewrite split_from_word by assumption. simpl.
  destruct Hs as [->|(c & s' & -> & Hc)].
  - simpl. destruct w; [contradiction | reflexivity].
  - rewrite split_from_space by assumption.
    change (py_split (c :: s')) with (split_from [] (c :: s')).
    rewrite (split_from_space [] s' c Hc).
    destruct w; [contradiction | reflexivity].
Qed.

(** What [split_from] returns consists of the word being read, completed,
    and of words. *)
Lemma split_from_words (s word : pystr) :
  (forall c, In c word -> isspace c = false) ->
  Forall is_word (split_from word s).
Proof.
  revert word. induction s as [|c s IH]; intros word Hw; simpl.
  - destruct word as [|c0 word]; constructor; [|constructor].
    split; [discriminate | exact Hw].
  - destruct (isspace c) eqn:Hc.
    + destruct word as [|c0 word].
      * apply IH. intros c' [].
      * constructor; [split; [discriminate | exact Hw]|].
        apply IH. intros c' [].
    + apply IH. intros c' Hc'. apply in_app_or in Hc'.
      destruct Hc' as [Hc'|[<-|[]]]; [apply Hw, Hc' | exact Hc].
Qed.

Lemma py_split_words (s : pystr) : Forall is_word (py_split s).
Proof. apply split_from_words. intros c []. Qed.

(** Turning newlines into spaces does not change the words. *)
Lemma split_from_newlines_to_spaces (s word : pystr) :
  split_from word (newlines_to_spaces s) = split_from word s.
Proof.
  revert word. induction s as [|c s IH]; intros word; simpl; [reflexivity|].
  destruct (Ascii.eqb_spec c newline) as [->|Hne].
  - rewrite isspace_space, isspace_newline. destruct word; rewrite IH; reflexivity.
  - destruct (isspace c); [destruct word|]; rewrite IH; reflexivity.
Qed.

(** Squeezing runs of spaces does not change the words. *)
Lemma split_from_squeeze (s word : pystr) (in_run : bool) :
  (in_run = true -> word = []) ->
  split_from word (squeeze_from in_run s) = split_from word s.
Proof.
  revert word in_run. induction s as [|c s IH]; intros word in_run Hrun; simpl;
    [reflexivity|].
  destruct (Ascii.eqb_spec c space) as [->|Hne].
  - rewrite isspace_space. destruct in_run.
    + rewrite (Hrun eq_refl). apply IH. reflexivity.
    + simpl. rewrite ?isspace_space.
      destruct word; rewrite IH; reflexivity.
  - simpl. destruct (isspace c).
    + destruct word; rewrite IH; try reflexivity; discriminate.
    + apply IH. discriminate.
Qed.

Lemma py_split_re_sub_spaces (s : pystr) :
  py_split (re_sub_spaces s) = py_split s.
Proof. apply split_from_squeeze. discriminate. Qed.

End Splitting.

Section Lines.

(** The lines of a text, put together, are the text. *)
Lemma concat_lines_from (text line : pystr) :
  concat (lines_from line text) = line ++ text.
Proof.
  revert line. induction text as [|c text IH]; intros line; simpl.
  - destruct line; simpl; rewrite ?app_nil_r; reflexivity.
  - destruct (Ascii.eqb c newline); simpl.
    + rewrite IH. simpl. rewrite <- app_assoc. reflexivity.
    + rewrite IH, <- app_assoc. reflexivity.
Qed.

Lemma lines_from_body (body line text : pystr) :
  ~ In newline body ->
  lines_from line (body ++ newline :: text)
  = (line ++ body ++ [newline]) :: lines_from [] text.
Proof.
  revert line. induction body as [|c body IH]; intros line Hb; simpl.
  - destruct (Ascii.eqb_spec newline newline); [reflexivity | congruence].
  - destruct (Ascii.eqb_spec c newline) as [->|Hne].
    + exfalso. apply Hb. left. reflexivity.
    + rewrite IH by (intros Hin; apply Hb; right; exact Hin).
      rewrite <- app_assoc. reflexivity.
Qed.

(** A text that starts with a whole line has it as its first line. *)
Lemma readlines_line (l text : pystr) :
  is_line l -> readlines (l ++ text) = l :: readlines text.
Proof.
  intros (body & -> & Hb). unfold readlines.
  rewrite <- app_assoc. simpl. apply (lines_from_body body [] text Hb).
Qed.

Lemma readlines_lines (ls : list pystr) (text : pystr) :
  Forall is_line ls -> readlines (concat ls ++ text) = ls ++ readlines text.
Proof.
  induction ls as [|l ls IH]; intros Hls; simpl; [reflexivity|].
  inversion Hls as [|? ? Hl Hls']; subst.
  rewrite <- app_assoc, readlines_line by assumption.
  rewrite IH by assumption. reflexivity.
Qed.

Lemma fold_left_app_concat (ls : list pystr) (f : pystr) :
  fold_left (fun f line => f ++ line) ls f = f ++ concat ls.
Proof.
  revert f. induction ls as [|l ls IH]; intros f; simpl.
  - rewrite app_nil_r. reflexivity.
  - rewrite IH, <- app_assoc. reflexivity.
Qed.

Lemma newlines_to_spaces_app (s t : pystr) :
  newlines_to_spaces (s ++ t) = newlines_to_spaces s ++ newlines_to_spaces t.
Proof. apply map_app. Qed.

Lemma fold_left_newlines_to_spaces (ls : list pystr) (acc : pystr) :
  fold_left (fun single_line l => single_line ++ newlines_to_spaces l) ls acc
  = acc ++ newlines_to_spaces (concat ls).
Proof.
  revert acc. induction ls as [|l ls IH]; intros acc; simpl.
  - rewrite app_nil_r. reflexivity.
  - rewrite IH, newlines_to_spaces_app, <- app_assoc. reflexivity.
Qed.

End Lines.

Section Reading.

Lemma In_squeeze_from (c : Ascii.ascii) (s : pystr) (in_run : bool) :
  In c (squeeze_from in_run s) -> In c s.
Proof.
  revert in_run. induction s as [|c0 s IH]; intros in_run; simpl; [auto|].
  destruct (Ascii.eqb c0 space); [destruct in_run|]; simpl; intros H.
  - right. apply (IH true), H.
  - destruct H as [H|H]; [left; exact H | right; apply (IH true), H].
  - destruct H as [H|H]; [left; exact H | right; apply (IH false), H].
Qed.

Lemma not_In_newlines_to_spaces (s : pystr) :
  ~ In newline (newlines_to_spaces s).
Proof.
  unfold newlines_to_spaces. intros H. apply in_map_iff in H.
  destruct H as (c & Hc & _).
  destruct (Ascii.eqb_spec c newline); [discriminate Hc | congruence].
Qed.

(** After a space, what [squeeze_from true] returns does not start with a
    space; and it never has two spaces in a row. *)
Lemma squeeze_from_single_spaced (s : pystr) (in_run : bool) :
  single_spaced (squeeze_from in_run s)
  /\ (in_run = true ->
      match squeeze_from in_run s with
      | [] => True
      | c :: _ => c <> space
      end).
Proof.
  revert in_run. induction s as [|c s IH]; intros in_run; simpl; [auto|].
  destruct (Ascii.eqb_spec c space) as [->|Hne].
  - destruct in_run.
    + apply IH.
    + split; [|discriminate]. simpl.
      destruct (IH true) as [Hs Hfirst]. split; [|exact Hs].
      specialize (Hfirst eq_refl).
      destruct (squeeze_from true s); [exact I|].
      intros [_ E]. contradiction.
  - split; [|intros _; exact Hne]. simpl.
    destruct (IH false) as [Hs _]. split; [|exact Hs].
    destruct (squeeze_from false s); [exact I|].
    intros [E _]. contradiction.
Qed.

Lemma list_item_Ok_inv {A : Type} (l : list A) (i : nat) (x : A) :
  list_item l i = Ok x -> nth_error l i = Some x.
Proof.
  unfold list_item. destruct (nth_error l i); intros E; inversion E. reflexivity.
Qed.

(** The number of header lines depends on the first line alone. *)
Lemma number_of_header_lines_first (line0 : pystr) (rest rest' : list pystr) :
  number_of_header_lines (line0 :: rest)
  = number_of_header_lines (line0 :: rest').
Proof. reflexivity. Qed.

Lemma number_of_header_lines_bound (lines : list pystr) (n : nat) :
  number_of_header_lines lines = Ok n -> n = 12 \/ n = 15.
Proof.
  unfold number_of_header_lines. intros E.
  apply bind_Ok_inv in E. destruct E as (line0 & _ & E).
  apply bind_Ok_inv in E. destruct E as (word0 & _ & E).
  apply bind_Ok_inv in E. destruct E as (c & _ & E).
  inversion E. destruct (Ascii.eqb c full_stop); auto.
Qed.

(** [_read_ace_to_a_line] in closed form. *)
Lemma read_ace_spec (text : pystr) (n : nat) :
  number_of_header_lines (readlines text) = Ok n ->
  _read_ace_to_a_line text
  = Ok (re_sub_spaces (newlines_to_spaces (concat (skipn n (readlines text)))),
        firstn n (readlines text)).
Proof.
  intros E. unfold _read_ace_to_a_line. rewrite E. cbn [bind].
  rewrite fold_left_newlines_to_spaces. reflexivity.
Qed.

End Reading.

(** X17.  Whenever [WriteAce] loads a file, its [single_line] has no newline
    and no two spaces in a row, and holds exactly the words of the lines
    after the header, in their order; the header lines and those lines make
    up the file. *)
Theorem read_ace_single_line :
  forall (text single_line : pystr) (header_lines : list pystr),
    _read_ace_to_a_line text = Ok (single_line, header_lines) ->
    ~ In newline single_line
    /\ single_spaced single_line
    /\ exists data_lines,
         readlines text = header_lines ++ data_lines
         /\ concat header_lines ++ concat data_lines = text
         /\ py_split single_line = py_split (concat data_lines).
Proof.
  intros text s h E.
  destruct (number_of_header_lines (readlines text)) as [n|e] eqn:En.
  - rewrite (read_ace_spec text n En) in E. inversion E; subst s h. clear E.
    split; [|split].
    + intros H. apply In_squeeze_from in H.
      apply (not_In_newlines_to_spaces _ H).
    + apply squeeze_from_single_spaced.
    + exists (skipn n (readlines text)). split; [|split].
      * symmetry. apply firstn_skipn.
      * rewrite <- concat_app, firstn_skipn.
        unfold readlines. apply (concat_lines_from text []).
      * rewrite py_split_re_sub_spaces. apply split_from_newlines_to_spaces.
  - unfold _read_ace_to_a_line in E. rewrite En in E. discriminate E.
Qed.

Lemma read_ace_single_line_witness :
  ~ In newline (single_line example_ace)
  /\ single_spaced (single_line example_ace)
  /\ exists data_lines,
       readlines example_text = header_lines example_ace ++ data_lines
       /\ concat (header_lines example_ace) ++ concat data_lines = example_text
       /\ py_split (single_line example_ace) = py_split (concat data_lines).
Proof.
  apply (read_ace_single_line example_text). vm_compute. reflexivity.
Defined.

Section Writing.

Lemma write_values_from (values : list pystr) (f : pystr) (c : nat) :
  c < 4 ->
  exists c',
    c' < 4
    /\ fold_left (fun '(f, values_printed_coutner) value =>
                    let f := f ++ format_right_20 value in
                    let values_printed_coutner := values_printed_coutner + 1 in
                    if values_printed_coutner =? 4
                    then (f ++ [newline], 0)
                    else (f, values_printed_coutner))
                 values (f, c)
       = (f ++ values_text c values, c').
Proof.
  revert f c. induction values as [|v values IH]; intros f c Hc; simpl.
  - exists c. rewrite app_nil_r. auto.
  - destruct (Nat.eqb_spec (c + 1) 4) as [E|Hne].
    + destruct (IH ((f ++ format_right_20 v) ++ [newline]) 0 ltac:(lia))
        as (c' & Hc' & E').
      exists c'. split; [exact Hc'|]. etransitivity; [exact E'|].
      rewrite <- !app_assoc. reflexivity.
    + destruct (IH (f ++ format_right_20 v) (c + 1) ltac:(lia))
        as (c' & Hc' & E').
      exists c'. split; [exact Hc'|]. etransitivity; [exact E'|].
      rewrite <- !app_assoc. reflexivity.
Qed.

Lemma write_values_spec (values : list pystr) (f : pystr) :
  exists c', c' < 4 /\ write_values values f = (f ++ values_text 0 values, c').
Proof. apply (write_values_from values f 0). lia. Qed.

(** What [write_ace] writes: the header lines, the values, and a final
    newline in every case. *)
Lemma write_ace_text (self : WriteAce) :
  write_ace self
  = concat (header_lines self)
    ++ values_text 0 (py_split (single_line self)) ++ [newline].
Proof.
  unfold write_ace. cbv zeta.
  rewrite fold_left_app_concat, app_nil_l.
  destruct (write_values_spec (py_split (single_line self))
              (concat (header_lines self))) as (c' & Hc' & ->).
  destruct (Nat.ltb_spec c' 4); [|lia].
  rewrite <- app_assoc. reflexivity.
Qed.

Lemma format_right_20_short (w : pystr) :
  length w < 20 ->
  exists pad, format_right_20 w = space :: pad ++ w
              /\ forall c, In c pad -> isspace c = true.
Proof.
  intros Hw. unfold format_right_20.
  destruct (20 - length w) as [|k] eqn:E; [lia|].
  exists (repeat space k). split; [reflexivity|].
  intros c Hc. apply repeat_spec in Hc. subst c. reflexivity.
Qed.

(** Values shorter than 20 characters are read back as they were
    written. *)
Lemma values_text_split (values : list pystr) :
  Forall is_word values ->
  Forall (fun w => length w < 20) values ->
  forall c t,
    t = [] \/ (exists c0 t', t = c0 :: t' /\ isspace c0 = true) ->
    py_split (values_text c values ++ t) = values ++ py_split t.
Proof.
  induction values as [|v values IH]; intros Hw Hs c t Ht; [reflexivity|].
  inversion Hw as [|? ? Hv Hw']; subst. inversion Hs as [|? ? Hl Hs']; subst.
  destruct (format_right_20_short v Hl) as (pad & Epad & Hpad).
  cbn [values_text]. rewrite Epad.
  set (X := (if c + 1 =? 4
             then newline :: values_text 0 values
             else values_text (c + 1) values) ++ t).
  replace (((space :: pad ++ v)
            ++ (if c + 1 =? 4
                then newline :: values_text 0 values
                else values_text (c + 1) values)) ++ t)
    with ((space :: pad) ++ v ++ X)
    by (unfold X; simpl; rewrite <- !app_assoc; reflexivity).
  rewrite py_split_spaces
    by (intros c0 [<-|H0]; [reflexivity | apply Hpad, H0]).
  assert (HX : py_split X = values ++ py_split t
               /\ (X = [] \/ exists c0 X', X = c0 :: X' /\ isspace c0 = true)).
  { unfold X. destruct (c + 1 =? 4).
    - split.
      + change ((newline :: values_text 0 values) ++ t)
          with ([newline] ++ (values_text 0 values ++ t)).
        rewrite py_split_spaces
          by (intros c0 [<-|[]]; reflexivity).
        apply IH; assumption.
      + right. exists newline, (values_text 0 values ++ t).
        split; reflexivity.
    - split; [apply IH; assumption|].
      destruct values as [|v' values'].
      + simpl. exact Ht.
      + right. inversion Hs' as [|? ? Hl' _]; subst.
        destruct (format_right_20_short v' Hl') as (pad' & Epad' & _).
        cbn [values_text]. rewrite Epad'.
        eexists. eexists. split; [reflexivity | reflexivity]. }
  destruct HX as [HX1 HX2].
  rewrite py_split_word by assumption. rewrite HX1. reflexivity.
Qed.

Lemma firstn_length_app {A : Type} (l x : list A) :
  firstn (length l) (l ++ x) = l.
Proof. induction l; simpl; [destruct x; reflexivity | f_equal; assumption]. Qed.

Lemma skipn_length_app {A : Type} (l x : list A) :
  skipn (length l) (l ++ x) = x.
Proof. induction l; simpl; [reflexivity | assumption]. Qed.

(** Reading what [write_ace] wrote: the header is found again when it is
    made of whole lines, as many as its first line announces. *)
Lemma read_written (self : WriteAce) :
  Forall is_line (header_lines self) ->
  number_of_header_lines (header_lines self) = Ok (length (header_lines self)) ->
  exists single_line',
    _read_ace_to_a_line (write_ace self) = Ok (single_line', header_lines self)
    /\ py_split single_line'
       = py_split (values_text 0 (py_split (single_line self)) ++ [newline]).
Proof.
  intros Hlines Hn. rewrite write_ace_text.
  set (B := values_text 0 (py_split (single_line self)) ++ [newline]).
  assert (Hread : readlines (concat (header_lines self) ++ B)
                  = header_lines self ++ readlines B)
    by (apply readlines_lines, Hlines).
  assert (Hn' : number_of_header_lines (header_lines self ++ readlines B)
                = Ok (length (header_lines self))).
  { destruct (header_lines self) as [|l0 h]; [discriminate Hn | exact Hn]. }
  eexists. split.
  - rewrite (read_ace_spec _ (length (header_lines self)))
      by (rewrite Hread; exact Hn').
    rewrite Hread, firstn_length_app, skipn_length_app. reflexivity.
  - rewrite py_split_re_sub_spaces.
    unfold py_split at 1. rewrite split_from_newlines_to_spaces.
    unfold readlines. rewrite concat_lines_from. reflexivity.
Qed.

(** The lines of a text before the last one are whole lines. *)
Lemma lines_from_whole (text line : pystr) (ls : list pystr) (last : pystr) :
  ~ In newline line ->
  lines_from line text = ls ++ [last] ->
  Forall is_line ls.
Proof.
  revert line ls. induction text as [|c text IH]; intros line ls Hline E;
    simpl in E.
  - destruct line; destruct ls as [|l [|l' ls]]; try discriminate E; constructor.
  - destruct (Ascii.eqb_spec c newline) as [->|Hne].
    + destruct ls as [|l ls]; [constructor|].
      simpl in E. inversion E; subst l. constructor.
      * exists line. split; [reflexivity | exact Hline].
      * apply (IH [] ls); [intros [] | assumption].
    + apply (IH (line ++ [c]) ls); [|exact E].
      intros Hin. apply in_app_or in Hin.
      destruct Hin as [Hin|[Hin|[]]]; [apply Hline, Hin | congruence].
Qed.

Lemma header_of_longer_file (text : pystr) (n : nat) :
  n < length (readlines text) ->
  Forall is_line (firstn n (readlines text))
  /\ length (firstn n (readlines text)) = n.
Proof.
  intros Hn. split; [|apply firstn_length_le; lia].
  assert (Hne : skipn n (readlines text) <> []).
  { intros E. pose proof (length_skipn n (readlines text)) as Hl.
    rewrite E in Hl. simpl in Hl. lia. }
  destruct (exists_last Hne) as (mid & last & Emid).
  pose proof (firstn_skipn n (readlines text)) as Hsplit.
  rewrite Emid, app_assoc in Hsplit.
  pose proof (lines_from_whole text [] _ last (fun H => H) (eq_sym Hsplit)) as Hall.
  apply Forall_app in Hall. apply Hall.
Qed.

End Writing.

(** X18.  Loading a file, writing it and loading what was written gives the
    same header lines and the same data values, provided the file has lines
    after its header and every value is shorter than 20 characters; writing
    what was loaded again gives the same text. *)
Theorem write_ace_then_load :
  forall (text : pystr) (self : WriteAce),
    WriteAce_init text = Ok self ->
    length (header_lines self) < length (readlines text) ->
    Forall (fun w => length w < 20) (py_split (single_line self)) ->
    exists self',
      WriteAce_init (write_ace self) = Ok self'
      /\ header_lines self' = header_lines self
      /\ py_split (single_line self') = py_split (single_line self)
      /\ write_ace self' = write_ace self.
Proof.
  intros text self E Hlen Hshort. unfold WriteAce_init in E.
  apply bind_Ok_inv in E. destruct E as ([s h] & Er & E).
  inversion E; subst self. clear E. cbn [header_lines single_line] in *.
  destruct (number_of_header_lines (readlines text)) as [n|e] eqn:En;
    [|unfold _read_ace_to_a_line in Er; rewrite En in Er; discriminate Er].
  rewrite (read_ace_spec text n En) in Er. injection Er as Es Eh.
  assert (Hn : n < length (readlines text)).
  { destruct (Nat.lt_ge_cases n (length (readlines text))) as [H|H]; [exact H|].
    rewrite <- Eh, firstn_all2 in Hlen by exact H. lia. }
  destruct (header_of_longer_file text n Hn) as [Hwhole Hcount].
  rewrite Eh in Hwhole, Hcount.
  assert (Hhead : number_of_header_lines h = Ok (length h)).
  { rewrite Hcount, <- En, <- Eh.
    destruct (readlines text) as [|l0 ls]; [discriminate En|].
    destruct (number_of_header_lines_bound _ _ En) as [->| ->]; reflexivity. }
  destruct (read_written {| single_line := s; header_lines := h |} Hwhole Hhead)
    as (s' & Er' & Es').
  exists {| single_line := s'; header_lines := h |}.
  unfold WriteAce_init. rewrite Er'. cbn [bind header_lines single_line].
  split; [reflexivity|].
  assert (Hsplit : py_split s' = py_split s).
  { rewrite Es'. cbn [single_line].
    rewrite values_text_split.
    - apply app_nil_r.
    - apply py_split_words.
    - exact Hshort.
    - right. exists newline, []. split; reflexivity. }
  split; [reflexivity|]. split; [exact Hsplit|].
  rewrite !write_ace_text. cbn [header_lines single_line].
  rewrite Hsplit. reflexivity.
Qed.

Lemma example_ace_short_values :
  Forall (fun w => length w < 20) (py_split (single_line example_ace)).
Proof. vm_compute. repeat constructor. Qed.

Lemma write_ace_then_load_witness :
  exists self',
    WriteAce_init (write_ace example_ace) = Ok self'
    /\ header_lines self' = header_lines example_ace
    /\ py_split (single_line self') = py_split (single_line example_ace)
    /\ write_ace self' = write_ace example_ace.
Proof.
  apply (write_ace_then_load example_text example_ace).
  - vm_compute. reflexivity.
  - vm_compute. lia.
  - exact example_ace_short_values.
Defined.

(** X19.  A value of 20 characters or more is written without a separator:
    when it is not the first value of its line it is read back glued to the
    value before it.  For two values the second of which is that long, what
    is loaded from the written file is a single value. *)
Theorem write_ace_long_value_merges :
  forall (self : WriteAce) (w1 w2 : pystr),
    Forall is_line (header_lines self) ->
    number_of_header_lines (header_lines self)
    = Ok (length (header_lines self)) ->
    py_split (single_line self) = [w1; w2] ->
    20 <= length w2 ->
    exists self',
      WriteAce_init (write_ace self) = Ok self'
      /\ header_lines self' = header_lines self
      /\ py_split (single_line self') = [w1 ++ w2].
Proof.
  intros self w1 w2 Hlines Hn Hsplit Hlong.
  destruct (read_written self Hlines Hn) as (s' & Er & Es).
  exists {| single_line := s'; header_lines := header_lines self |}.
  unfold WriteAce_init. rewrite Er. cbn [bind header_lines single_line].
  split; [reflexivity|]. split; [reflexivity|].
  rewrite Es, Hsplit.
  pose proof (py_split_words (single_line self)) as Hw. rewrite Hsplit in Hw.
  inversion Hw as [|? ? [Hne1 Hw1] Hw']; subst.
  inversion Hw' as [|? ? [Hne2 Hw2] _]; subst.
  cbn [values_text Nat.add Nat.eqb].
  unfold format_right_20.
  replace (20 - length w2) with 0 by lia. cbn [repeat app].
  rewrite <- !app_assoc.
  rewrite py_split_spaces
    by (intros c Hc; apply repeat_spec in Hc; subst c; reflexivity).
  rewrite app_assoc. rewrite py_split_word.
  - reflexivity.
  - split.
    + destruct w1; [contradiction | discriminate].
    + intros c Hc. apply in_app_or in Hc. destruct Hc; auto.
  - right. exists newline, []. split; reflexivity.
Qed.

Lemma text_line_is_line (s : string) :
  ~ In newline (list_ascii_of_string s) -> is_line (text_line s).
Proof. intros H. exists (list_ascii_of_string s). split; [reflexivity | exact H]. Qed.

Lemma example_header_lines : Forall is_line example_header.
Proof.
  unfold example_header. constructor.
  - apply text_line_is_line. vm_compute. intuition discriminate.
  - apply Forall_forall. intros l Hl. apply repeat_spec in Hl. subst l.
    apply text_line_is_line. vm_compute. intuition discriminate.
Qed.

Lemma write_ace_long_value_merges_witness :
  exists self',
    WriteAce_init (write_ace example_long_value) = Ok self'
    /\ header_lines self' = header_lines example_long_value
    /\ py_split (single_line self')
       = [list_ascii_of_string "1.5" ++ list_ascii_of_string "-1.00000000000000E+00"].
Proof.
  apply (write_ace_long_value_merges example_long_value).
  - exact example_header_lines.
  - reflexivity.
  - reflexivity.
  - simpl. lia.
Defined.

Section Replacing.

Lemma startswith_app (p t : pystr) : startswith (p ++ t) p = true.
Proof.
  induction p as [|c p IH]; simpl; [reflexivity|].
  destruct (Ascii.eqb_spec c c); [exact IH | congruence].
Qed.

Lemma startswith_inv (s p : pystr) :
  startswith s p = true -> exists t, s = p ++ t.
Proof.
  revert s. induction p as [|c p IH]; intros s; simpl.
  - exists s. reflexivity.
  - destruct s as [|c' s]; [discriminate|].
    destruct (Ascii.eqb_spec c' c) as [->|]; [|discriminate]. simpl.
    intros H. destruct (IH s H) as (t & ->). exists t. reflexivity.
Qed.

(** [sub] occurs in [s] at position [i] exactly when what follows position
    [i] starts with [sub]. *)
Lemma occurs_at_startswith (s sub : pystr) (i : nat) :
  occurs_at s sub i <-> i <= length s /\ startswith (skipn i s) sub = true.
Proof.
  split.
  - intros (before & after & -> & <-). split.
    + rewrite length_app. lia.
    + rewrite skipn_length_app. apply startswith_app.
  - intros [Hi H]. destruct (startswith_inv _ _ H) as (t & Et).
    exists (firstn i s), t. split.
    + rewrite <- Et. symmetry. apply firstn_skipn.
    + apply firstn_length_le, Hi.
Qed.

Lemma not_occurs_at (s sub : pystr) (i : nat) :
  i <= length s -> ~ occurs_at s sub i -> startswith (skipn i s) sub = false.
Proof.
  intros Hi Hno. destruct (startswith (skipn i s) sub) eqn:E; [|reflexivity].
  exfalso. apply Hno, occurs_at_startswith. auto.
Qed.

(** [s.index(sub)] is the first position at which [sub] occurs. *)
Lemma find_from_first (sub before after : pystr) (position : nat) :
  (forall i, i < length before ->
             startswith (skipn i (before ++ sub ++ after)) sub = false) ->
  find_from position (before ++ sub ++ after) sub
  = Some (position + length before).
Proof.
  revert position. induction before as [|c before IH]; intros position Hno.
  - simpl app. simpl length. rewrite Nat.add_0_r.
    destruct (sub ++ after) eqn:E; simpl;
      rewrite <- E, startswith_app; reflexivity.
  - pose proof (Hno 0 ltac:(simpl; lia)) as H0. simpl in H0.
    change ((c :: before) ++ sub ++ after) with (c :: (before ++ sub ++ after)).
    cbn [find_from]. rewrite H0.
    rewrite IH.
    + simpl. f_equal. lia.
    + intros i Hi. apply (Hno (S i)). simpl. lia.
Qed.

Lemma find_from_none (s sub : pystr) (position : nat) :
  (forall i, i <= length s -> startswith (skipn i s) sub = false) ->
  find_from position s sub = None.
Proof.
  revert position. induction s as [|c s IH]; intros position Hno.
  - pose proof (Hno 0 ltac:(simpl; lia)) as H0. simpl in H0.
    simpl. rewrite H0. reflexivity.
  - pose proof (Hno 0 ltac:(simpl; lia)) as H0. simpl in H0.
    cbn [find_from]. rewrite H0. apply IH.
    intros i Hi. apply (Hno (S i)). simpl. lia.
Qed.

Lemma find_from_some (s sub : pystr) (position i : nat) :
  i <= length s -> startswith (skipn i s) sub = true ->
  exists j, find_from position s sub = Some j.
Proof.
  revert position i. induction s as [|c s IH]; intros position i Hi H.
  - simpl in Hi. replace i with 0 in H by lia. simpl in H.
    simpl. rewrite H. eauto.
  - cbn [find_from]. destruct (startswith (c :: s) sub) eqn:E; [eauto|].
    destruct i as [|i]; [simpl in H; congruence|].
    apply (IH (S position) i); [simpl in Hi; lia | exact H].
Qed.

Lemma slice_found (before sub after : pystr) :
  slice (before ++ sub ++ after) (length before) (length before + length sub)
  = sub.
Proof.
  unfold slice. rewrite skipn_length_app.
  replace (length before + length sub - length before) with (length sub) by lia.
  apply firstn_length_app.
Qed.

(** Passing over the rest of an occurrence. *)
Lemma replace_from_skip (old new a t : pystr) (left : option nat) :
  replace_from old new left (length a) (a ++ t)
  = replace_from old new left 0 t.
Proof.
  induction a as [|c a IH]; simpl; [|exact IH].
  destruct t; reflexivity.
Qed.

Lemma replace_from_exhausted (old new s : pystr) :
  replace_from old new (Some 0) 0 s = s.
Proof.
  induction s as [|c s IH]; simpl; [reflexivity|]. rewrite IH. reflexivity.
Qed.

(** With one replacement allowed, the first occurrence is replaced and
    everything else is kept. *)
Lemma replace_from_first (old new before after : pystr) :
  old <> [] ->
  (forall i, i < length before ->
             startswith (skipn i (before ++ old ++ after)) old = false) ->
  replace_from old new (Some 1) 0 (before ++ old ++ after)
  = before ++ new ++ after.
Proof.
  intros Hold. induction before as [|c before IH]; intros Hno.
  - destruct old as [|c old]; [contradiction|].
    change ([] ++ (c :: old) ++ after) with (c :: (old ++ after)).
    cbn [replace_from may_replace andb].
    change (c :: old ++ after) with ((c :: old) ++ after).
    rewrite startswith_app.
    cbn [one_replaced option_map Nat.pred length Nat.sub].
    rewrite Nat.sub_0_r, replace_from_skip, replace_from_exhausted.
    reflexivity.
  - pose proof (Hno 0 ltac:(simpl; lia)) as H0. simpl in H0.
    change ((c :: before) ++ old ++ after) with (c :: (before ++ old ++ after)).
    cbn [replace_from may_replace andb]. rewrite H0.
    rewrite IH; [reflexivity|].
    intros i Hi. apply (Hno (S i)). simpl. lia.
Qed.

(** Replacing a string by itself changes nothing. *)
Lemma replace_from_same (old : pystr) :
  old <> [] ->
  forall (k : nat) (s : pystr) (left : option nat),
    length s <= k -> replace_from old old left 0 s = s.
Proof.
  intros Hold. induction k as [|k IH]; intros s left Hk.
  - destruct s; [reflexivity | simpl in Hk; lia].
  - destruct s as [|c s]; [reflexivity|].
    cbn [replace_from].
    destruct (may_replace left && startswith (c :: s) old) eqn:E.
    + apply andb_prop in E. destruct E as [_ E].
      destruct (startswith_inv _ _ E) as (t & Et).
      destruct old as [|c0 old]; [contradiction|].
      simpl in Et. injection Et as -> ->.
      cbn [length Nat.sub]. rewrite Nat.sub_0_r, replace_from_skip.
      rewrite IH; [reflexivity|].
      simpl in Hk. rewrite length_app in Hk. lia.
    + rewrite IH by (simpl in Hk; lia). reflexivity.
Qed.

Lemma interleave_nothing (s : pystr) (left : option nat) :
  interleave [] left s = s.
Proof.
  revert left. induction s as [|c s IH]; intros left; simpl.
  - destruct (may_replace left); reflexivity.
  - destruct (may_replace left); [|reflexivity]. rewrite IH. reflexivity.
Qed.

Lemma py_replace_same (s old : pystr) (count : Z) :
  py_replace s old old count = s.
Proof.
  unfold py_replace. destruct old as [|c old].
  - apply interleave_nothing.
  - apply (replace_from_same (c :: old) ltac:(discriminate) (length s)). lia.
Qed.

End Replacing.

(** X20.  With the default [max_replaces = 1], [replace_array] replaces the
    first occurrence of the formatted [array] in [single_line] by the
    formatted [replace_with] and keeps every other character, whatever
    stands before and after the occurrence; the header is untouched.  This
    holds for every formatter. *)
Theorem replace_array_replaces_first_occurrence :
  forall (V : Type) (py_format : V -> pystr) (self : WriteAce)
         (array replace_with : list V) (before after : pystr),
    length array = length replace_with ->
    format_mcnp V py_format array <> [] ->
    single_line self = before ++ format_mcnp V py_format array ++ after ->
    (forall i, i < length before ->
               ~ occurs_at (single_line self) (format_mcnp V py_format array) i) ->
    replace_array V py_format self array replace_with 1
    = Ok {| single_line :=
              before ++ format_mcnp V py_format replace_with ++ after;
            header_lines := header_lines self |}.
Proof.
  intros V fmt self array replace_with before after Hlen Hne Es Hfirst.
  set (old := format_mcnp V fmt array) in *.
  assert (Hno : forall i, i < length before ->
              startswith (skipn i (before ++ old ++ after)) old = false).
  { intros i Hi. rewrite <- Es. apply not_occurs_at.
    - rewrite Es, length_app. lia.
    - apply Hfirst, Hi. }
  unfold replace_array. rewrite Hlen, Nat.eqb_refl. cbn [negb].
  fold old. unfold py_index. rewrite Es.
  rewrite (find_from_first old before after 0 Hno). cbn [bind Nat.add].
  rewrite slice_found. unfold py_replace.
  destruct old as [|c old'] eqn:Eold; [contradiction|].
  cbn [replacements_allowed Z.ltb Z.compare Z.to_nat Pos.to_nat Pos.iter_op Nat.add].
  rewrite (replace_from_first (c :: old') _ before after); [reflexivity | discriminate |].
  exact Hno.
Qed.

Lemma replace_array_replaces_first_occurrence_witness :
  replace_array nat example_format example_data [1] [2] 1
  = Ok {| single_line :=
            list_ascii_of_string " 0.00E+00 -"
            ++ format_mcnp nat example_format [2]
            ++ list_ascii_of_string " 2.00E+00 1.00E+00 ";
          header_lines := header_lines example_data |}.
Proof.
  apply (replace_array_replaces_first_occurrence nat example_format
           example_data [1] [2]
           (list_ascii_of_string " 0.00E+00 -")
           (list_ascii_of_string " 2.00E+00 1.00E+00 ")).
  - reflexivity.
  - discriminate.
  - reflexivity.
  - intros i Hi Hocc. apply occurs_at_startswith in Hocc.
    destruct Hocc as [_ Hs]. simpl in Hi.
    do 11 (destruct i as [|i]; [vm_compute in Hs; discriminate Hs|]). lia.
Defined.

(** X21.  [replace_array] rejects arrays of different lengths with an
    [Exception], before anything else; with equal lengths it ends with
    [ValueError] when the formatted [array] occurs nowhere in
    [single_line], and succeeds, leaving the header as it is, when it occurs
    somewhere. *)
Theorem replace_array_errors :
  forall (V : Type) (py_format : V -> pystr) (self : WriteAce)
         (array replace_with : list V) (max_replaces : Z),
    (length array <> length replace_with ->
     replace_array V py_format self array replace_with max_replaces
     = Raise (Exception "Arrays must be equal length for replacement."%string))
    /\ (length array = length replace_with ->
        (forall i, ~ occurs_at (single_line self)
                               (format_mcnp V py_format array) i) ->
        replace_array V py_format self array replace_with max_replaces
        = Raise ValueError)
    /\ (length array = length replace_with ->
        (exists i, occurs_at (single_line self)
                             (format_mcnp V py_format array) i) ->
        exists self',
          replace_array V py_format self array replace_with max_replaces
          = Ok self'
          /\ header_lines self' = header_lines self).
Proof.
  intros V fmt self array replace_with max_replaces. split; [|split].
  - intros Hne. unfold replace_array.
    destruct (Nat.eqb_spec (length array) (length replace_with));
      [contradiction | reflexivity].
  - intros Hlen Hno. unfold replace_array. rewrite Hlen, Nat.eqb_refl.
    cbn [negb]. unfold py_index. rewrite find_from_none; [reflexivity|].
    intros i Hi. apply not_occurs_at; [exact Hi | apply Hno].
  - intros Hlen (i & Hocc). apply occurs_at_startswith in Hocc.
    destruct Hocc as [Hi Hs].
    destruct (find_from_some _ _ 0 i Hi Hs) as (j & Ej).
    unfold replace_array. rewrite Hlen, Nat.eqb_refl. cbn [negb].
    unfold py_index. rewrite Ej. cbn [bind].
    eexists. split; reflexivity.
Qed.

Lemma replace_array_errors_witness :
  replace_array nat example_format example_data [1] [2; 0] 1
  = Raise (Exception "Arrays must be equal length for replacement."%string).
Proof.
  apply (proj1 (replace_array_errors nat example_format example_data
                  [1] [2; 0] 1)).
  simpl. lia.
Defined.

(** X22.  Replacing an array by itself changes nothing: when the formatted
    [array] occurs in [single_line], [replace_array(array, array,
    max_replaces)] leaves the object as it is, for every [max_replaces] and
    every formatter. *)
Theorem replace_array_by_itself :
  forall (V : Type) (py_format : V -> pystr) (self : WriteAce)
         (array : list V) (max_replaces : Z) (i : nat),
    occurs_at (single_line self) (format_mcnp V py_format array) i ->
    replace_array V py_format self array array max_replaces = Ok self.
Proof.
  intros V fmt self array max_replaces i Hocc.
  destruct Hocc as (before & after & Es & _).
  set (old := format_mcnp V fmt array) in *.
  unfold replace_array. rewrite Nat.eqb_refl. cbn [negb]. fold old.
  unfold py_index.
  assert (Hfound : exists j before' after',
             find_from 0 (single_line self) old = Some j
             /\ single_line self = before' ++ old ++ after'
             /\ length before' = j).
  { assert (Hs : startswith (skipn (length before) (single_line self)) old = true)
      by (rewrite Es, skipn_length_app; apply startswith_app).
    assert (Hle : length before <= length (single_line self))
      by (rewrite Es, length_app; lia).
    clear Es.
    assert (Hgen : forall s position k,
               k <= length s -> startswith (skipn k s) old = true ->
               exists j before' after',
                 find_from position s old = Some (position + j)
                 /\ s = before' ++ old ++ after' /\ length before' = j).
    { induction s as [|c s IH]; intros position k Hk Hsk.
      - simpl in Hk. replace k with 0 in Hsk by lia. simpl in Hsk.
        destruct (startswith_inv _ _ Hsk) as (t & Et).
        exists 0, [], t. simpl. rewrite Hsk, Nat.add_0_r. auto.
      - cbn [find_from]. destruct (startswith (c :: s) old) eqn:E.
        + destruct (startswith_inv _ _ E) as (t & Et).
          exists 0, [], t. rewrite Nat.add_0_r. auto.
        + destruct k as [|k]; [simpl in Hsk; congruence|].
          destruct (IH (S position) k) as (j & b' & a' & Ej & Es' & Hl);
            [simpl in Hk; lia | exact Hsk |].
          exists (S j), (c :: b'), a'. rewrite Ej. split; [f_equal; lia|].
          split; [simpl; f_equal; exact Es' | simpl; f_equal; exact Hl]. }
    destruct (Hgen (single_line self) 0 (length before) Hle Hs)
      as (j & b' & a' & Ej & Es' & Hl).
    exists j, b', a'. auto. }
  destruct Hfound as (j & before' & after' & Ej & Es' & Hl).
  rewrite Ej. cbn [bind]. rewrite Es' at 2. rewrite <- Hl, slice_found.
  rewrite py_replace_same. destruct self. reflexivity.
Qed.

Lemma replace_array_by_itself_witness :
  replace_array nat example_format example_data [2; 1] [2; 1] (-1)
  = Ok example_data.
Proof.
  apply (replace_array_by_itself nat example_format example_data [2; 1] (-1) 20).
  exists (list_ascii_of_string " 0.00E+00 -1.00E+00 "),
    (list_ascii_of_string " ").
  split; reflexivity.
Defined.

(** X23.  The line built by [format_mcnp] splits back into the formatted
    values: when every formatted value is a word (not empty, no
    whitespace), [format_mcnp(array).split()] is the list of the formatted
    values. *)
Theorem format_mcnp_splits_into_values :
  forall (V : Type) (py_format : V -> pystr) (array : list V),
    Forall is_word (map py_format array) ->
    py_split (format_mcnp V py_format array) = map py_format array.
Proof.
  intros V fmt array. unfold format_mcnp.
  induction (map fmt array) as [|w ws IH]; intros Hw; [reflexivity|].
  inversion Hw as [|? ? Hw1 Hws]; subst.
  destruct ws as [|w' ws].
  - simpl. rewrite <- (app_nil_r w) at 1.
    rewrite py_split_word; [reflexivity | exact Hw1 | left; reflexivity].
  - change (join_spaces (w :: w' :: ws))
      with (w ++ space :: join_spaces (w' :: ws)).
    rewrite py_split_word; [|exact Hw1|].
    + f_equal.
      change (space :: join_spaces (w' :: ws))
        with ([space] ++ join_spaces (w' :: ws)).
      rewrite py_split_spaces by (intros c [<-|[]]; reflexivity).
      apply IH, Hws.
    + right. eexists. eexists. split; reflexivity.
Qed.

Lemma format_mcnp_splits_into_values_witness :
  py_split (format_mcnp nat example_format [0; 2; 1])
  = map example_format [0; 2; 1].
Proof.
  apply (format_mcnp_splits_into_values nat example_format [0; 2; 1]).
  repeat constructor; try discriminate;
    intros c Hc; vm_compute in Hc;
    repeat (destruct Hc as [<-|Hc]; [reflexivity|]); contradiction.
Defined.

(** ** AceIO: the editor *)

Section Temperature.

Lemma pystr_eqb_spec (a b : pystr) : reflect (a = b) (pystr_eqb a b).
Proof.
  unfold pystr_eqb. destruct (list_eq_dec Ascii.ascii_dec a b);
    constructor; assumption.
Qed.

(** A string is one of its own characters only when it has one
    character. *)
Lemma py_in_own_characters (t : pystr) :
  py_in t (list_of_characters t) = true <-> exists c, t = [c].
Proof.
  unfold py_in, list_of_characters. rewrite existsb_exists. split.
  - intros (x & Hx & E). apply in_map_iff in Hx. destruct Hx as (c & <- & _).
    destruct (pystr_eqb_spec t [c]); [eauto | discriminate].
  - intros (c & ->). exists [c]. split; [left; reflexivity|].
    destruct (pystr_eqb_spec [c] [c]); [reflexivity | congruence].
Qed.

Lemma endswith_K_app (s : pystr) : endswith_K (s ++ [letter_K]) = true.
Proof.
  unfold endswith_K. rewrite rev_app_distr. simpl.
  destruct (Ascii.eqb_spec letter_K letter_K); [reflexivity | congruence].
Qed.

Lemma endswith_K_single (c : Ascii.ascii) :
  endswith_K [c] = true -> c = letter_K.
Proof.
  unfold endswith_K. simpl.
  destruct (Ascii.eqb_spec c letter_K); [auto | discriminate].
Qed.

End Temperature.

(** X24.  A temperature given to [AceEditor] is never looked up in the
    table: it is compared with its own characters.  Once the [K] is
    appended, the only temperature with which an editor is built is the
    string ["K"]; every other one ends with the exception "Could not find
    temperature", whatever temperatures the table holds. *)
Theorem given_temperature_is_rejected :
  forall (str_float : float -> pystr) (temperatures : list pystr)
         (reaction_keys : list Z) (temperature : temperature_argument),
    py_not temperature = false ->
    AceEditor_init str_float temperatures reaction_keys temperature
    = let t := if endswith_K (py_str str_float temperature)
               then py_str str_float temperature
               else py_str str_float temperature ++ [letter_K] in
      if pystr_eqb t [letter_K]
      then Ok {| temperature := t;
                 all_mts := init_all_mts reaction_keys;
                 adjusted_mts := [] |}
      else Raise (Exception
                    (String.append "Could not find temperature "
                       (String.append (string_of_list_ascii t) " in ace file"))).
Proof.
  intros str_float temperatures reaction_keys temperature Hnot.
  unfold AceEditor_init, init_temperature. rewrite Hnot. cbv zeta.
  set (s := py_str str_float temperature).
  replace (if negb (endswith_K s) then s ++ [letter_K] else s)
    with (if endswith_K s then s else s ++ [letter_K])
    by (destruct (endswith_K s); reflexivity).
  set (t := if endswith_K s then s else s ++ [letter_K]).
  assert (Hends : endswith_K t = true).
  { unfold t. destruct (endswith_K s) eqn:E; [exact E | apply endswith_K_app]. }
  destruct (pystr_eqb_spec t [letter_K]) as [E|Hne].
  - replace (py_in t (list_of_characters t)) with true; [reflexivity|].
    symmetry. apply py_in_own_characters. eauto.
  - replace (py_in t (list_of_characters t)) with false; [reflexivity|].
    symmetry. destruct (py_in t (list_of_characters t)) eqn:Hin; [|reflexivity].
    exfalso. apply py_in_own_characters in Hin. destruct Hin as (c & Ec).
    apply Hne. rewrite Ec in Hends |- *.
    apply endswith_K_single in Hends. rewrite Hends. reflexivity.
Qed.

Lemma given_temperature_is_rejected_witness :
  AceEditor_init (fun _ => list_ascii_of_string "293.6")
                 [list_ascii_of_string "294K"] [2%Z; 18%Z; 102%Z]
                 (TemperatureStr (list_ascii_of_string "294K"))
  = Raise (Exception "Could not find temperature 294K in ace file"%string).
Proof.
  apply (given_temperature_is_rejected (fun _ => list_ascii_of_string "293.6")
           [list_ascii_of_string "294K"] [2%Z; 18%Z; 102%Z]
           (TemperatureStr (list_ascii_of_string "294K"))).
  reflexivity.
Defined.

(** X25.  [_check_if_mts_present] returns the MT numbers of [mt_list] that
    are in [compare_to] (in [all_mts] when [compare_to] is not given), each
    of them once. *)
Theorem check_if_mts_present_is_intersection :
  forall (self : AceEditor) (mt_list : list Z) (compare_to : option (list Z)),
    NoDup (_check_if_mts_present self mt_list compare_to)
    /\ forall mt,
         In mt (_check_if_mts_present self mt_list compare_to)
         <-> In mt mt_list
             /\ In mt (match compare_to with
                       | None => all_mts self
                       | Some compare_to => compare_to
                       end).
Proof.
  intros self mt_list compare_to. unfold _check_if_mts_present, set_intersection,
    py_set. split.
  - apply NoDup_filter, NoDup_nodup.
  - intros mt. rewrite filter_In, nodup_In, existsb_exists. split.
    + intros (Hc & x & Hx & E). apply Z.eqb_eq in E. subst x.
      apply nodup_In in Hx. auto.
    + intros (Hm & Hc). split; [exact Hc|].
      exists mt. split; [apply nodup_In, Hm | apply Z.eqb_refl].
Qed.

Section ChiDistroOverR.
Open Scope R_scope.

(** The width of the interval that ends at point [k] of the grid. *)
Lemma delta_e_R (x : array1 R) (k : nat) :
  get1 (np_insert_front (np_diff x) zero) k
  = match k with 0%nat => 0 | S k' => get1 x k - get1 x k' end.
Proof.
  destruct k as [|k]; simpl; [reflexivity|].
  rewrite Nat.add_1_r. reflexivity.
Qed.

(** [set_chi_distro_update] in closed form, when the four vectors have the
    same length. *)
Lemma set_chi_distro_update_R (pdf_idx : array1 R) (distro : Tabular) (n : nat) :
  (1 <= n)%nat ->
  len1 pdf_idx = n -> len1 (distro_x distro) = n ->
  len1 (distro_p distro) = n -> len1 (distro_c distro) = n ->
  exists distro',
    set_chi_distro_update pdf_idx distro = Ok distro'
    /\ distro_x distro' = distro_x distro
    /\ len1 (distro_p distro') = n /\ len1 (distro_c distro') = n
    /\ (forall i, get1 (distro_p distro') i
                  = get1 pdf_idx i
                    / (get1 (distro_c distro) (n - 1)
                       + sum_n n (fun k =>
                           (get1 pdf_idx k - get1 (distro_p distro) k)
                           * match k with
                             | 0%nat => 0
                             | S k' => get1 (distro_x distro) k
                                       - get1 (distro_x distro) k'
                             end)))
    /\ (forall i, get1 (distro_c distro') i
                  = (get1 (distro_c distro) i
                     + sum_n (i + 1) (fun k =>
                         (get1 pdf_idx k - get1 (distro_p distro) k)
                         * match k with
                           | 0%nat => 0
                           | S k' => get1 (distro_x distro) k
                                     - get1 (distro_x distro) k'
                           end))
                    / (get1 (distro_c distro) (n - 1)
                       + sum_n n (fun k =>
                           (get1 pdf_idx k - get1 (distro_p distro) k)
                           * match k with
                             | 0%nat => 0
                             | S k' => get1 (distro_x distro) k
                                       - get1 (distro_x distro) k'
                             end))).
Proof.
  intros Hn Hpdf Hx Hp Hc. unfold set_chi_distro_update.
  unfold broadcast1 at 1. rewrite Hpdf, Hp, Nat.eqb_refl. cbn [bind].
  unfold broadcast1 at 1. cbn [len1 np_insert_front np_diff].
  rewrite Hx. replace (S (n - 1)) with n by lia. rewrite Nat.eqb_refl.
  cbn [bind].
  unfold item_last at 1. rewrite Hc.
  destruct (Nat.eqb_spec n 0); [lia|]. cbn [bind].
  unfold item_last at 1. cbn [len1 running_sums].
  destruct (Nat.eqb_spec n 0); [lia|]. cbn [bind].
  unfold broadcast1 at 1. cbn [len1 running_sums]. rewrite Hc, Nat.eqb_refl.
  cbn [bind].
  eexists. split; [reflexivity|].
  cbn [distro_x distro_p distro_c len1 get1 np_map1 running_sums].
  replace (n - 1 + 1)%nat with n by lia.
  assert (Hsum : forall m,
             sum_n m (fun i => mul (sub (get1 pdf_idx i) (get1 (distro_p distro) i))
                                   (match i with
                                    | 0%nat => zero
                                    | S k => sub (get1 (distro_x distro) (k + 1))
                                                 (get1 (distro_x distro) k)
                                    end))
             = sum_n m (fun k => (get1 pdf_idx k - get1 (distro_p distro) k)
                                 * match k with
                                   | 0%nat => 0
                                   | S k' => get1 (distro_x distro) k
                                             - get1 (distro_x distro) k'
                                   end)).
  { intros m. apply sum_n_ext. intros k _. destruct k as [|k]; simpl;
      [reflexivity|]. rewrite Nat.add_1_r. reflexivity. }
  split; [reflexivity|]. split; [first [exact Hpdf | reflexivity]|].
  split; [first [exact Hc | reflexivity]|]. split.
  - intros i. simpl. rewrite Hsum. reflexivity.
  - intros i. simpl. rewrite !Hsum. reflexivity.
Qed.

End ChiDistroOverR.

(** The update of one distribution: the grid is kept, the new density is
    divided by the normalisation, the cumulative distribution ends at 1 and
    stays the cumulative sum of the density. *)
Lemma set_chi_distro_update_renormalises (pdf_idx : array1 R) (distro : Tabular) :
  same_bins pdf_idx distro ->
  normalization_of pdf_idx distro <> 0%R ->
  exists distro',
    set_chi_distro_update pdf_idx distro = Ok distro'
    /\ distro_x distro' = distro_x distro
    /\ len1 (distro_p distro') = len1 pdf_idx
    /\ len1 (distro_c distro') = len1 pdf_idx
    /\ get1 (distro_c distro') (len1 pdf_idx - 1) = 1%R
    /\ (forall i, i < len1 pdf_idx ->
          get1 (distro_p distro') i
          = (get1 pdf_idx i / normalization_of pdf_idx distro)%R)
    /\ (cumulative_of (distro_x distro) (distro_p distro) (distro_c distro) ->
        cumulative_of (distro_x distro') (distro_p distro') (distro_c distro')).
Proof.
  intros (Hn & Hx & Hp & Hc) HN.
  destruct (set_chi_distro_update_R pdf_idx distro (len1 pdf_idx)
              Hn eq_refl Hx Hp Hc)
    as (distro' & E & Ex & Hlp & Hlc & Hgp & Hgc).
  unfold normalization_of in *. rewrite Hc in HN |- *.
  set (n := len1 pdf_idx) in *.
  exists distro'. split; [exact E|]. split; [exact Ex|].
  split; [exact Hlp|]. split; [exact Hlc|].
  set (N := (get1 (distro_c distro) (n - 1)
             + sum_n n (fun k =>
                 (get1 pdf_idx k - get1 (distro_p distro) k)
                 * match k with
                   | 0 => 0
                   | S k' => get1 (distro_x distro) k - get1 (distro_x distro) k'
                   end))%R) in *.
  split; [|split].
  - rewrite Hgc. replace (n - 1 + 1) with n by lia. fold N.
    field. exact HN.
  - intros i _. apply Hgp.
  - intros Hcum i Hi. rewrite Hlc in Hi. rewrite Hgc, Ex.
    rewrite (Hcum i) by (rewrite Hc; exact Hi).
    rewrite <- sum_n_plus. unfold Rdiv. rewrite Rmult_comm, <- sum_n_scal.
    apply sum_n_ext. intros k _. rewrite Hgp. fold N. unfold Rdiv. ring.
Qed.

(** The loop of [set_chi_distro] from index [idx] on. *)
Lemma set_chi_distro_loop_renormalises (pdf : list (array1 R)) :
  forall (energy_out : list Tabular) (idx : nat),
    (forall k distro, nth_error energy_out k = Some distro ->
       exists pdf_idx, nth_error pdf (idx + k) = Some pdf_idx
                       /\ same_bins pdf_idx distro
                       /\ normalization_of pdf_idx distro <> 0%R) ->
    exists energy_out',
      set_chi_distro_loop pdf idx energy_out = Ok energy_out'
      /\ length energy_out' = length energy_out
      /\ forall k pdf_idx distro distro',
           nth_error pdf (idx + k) = Some pdf_idx ->
           nth_error energy_out k = Some distro ->
           nth_error energy_out' k = Some distro' ->
           set_chi_distro_update pdf_idx distro = Ok distro'.
Proof.
  induction energy_out as [|distro energy_out IH]; intros idx H.
  - exists []. split; [reflexivity|]. split; [reflexivity|].
    intros [|k] ? ? ? _ E; discriminate E.
  - destruct (H 0 distro eq_refl) as (pdf_idx & Epdf & Hbins & HN).
    rewrite Nat.add_0_r in Epdf.
    destruct (set_chi_distro_update_renormalises pdf_idx distro Hbins HN)
      as (distro' & E & _).
    destruct (IH (S idx)) as (rest & Erest & Hlen & Hrest).
    { intros k d Hk. destruct (H (S k) d Hk) as (q & Eq & Hq).
      exists q. split; [|exact Hq].
      replace (S idx + k) with (idx + S k) by lia. exact Eq. }
    exists (distro' :: rest). split; [|split].
    + cbn [set_chi_distro_loop]. unfold list_item. rewrite Epdf.
      cbn [bind]. rewrite E. cbn [bind]. rewrite Erest. reflexivity.
    + simpl. rewrite Hlen. reflexivity.
    + intros [|k] q d d' Eq Ed Ed'.
      * rewrite Nat.add_0_r in Eq. simpl in Ed, Ed'.
        congruence.
      * simpl in Ed, Ed'. apply (Hrest k q d d'); [|exact Ed|exact Ed'].
        replace (S idx + k) with (idx + S k) by lia. exact Eq.
Qed.

(** X26.  In exact arithmetic [set_chi_distro] renormalises every
    distribution.  Given one density for each distribution, of the length of
    its grid, and normalisations [N = c[-1] + sum((pdf[idx] - p) * delta_e)]
    that are not zero, the loop succeeds; each distribution keeps its grid,
    gets the density [pdf[idx] / N] and a cumulative distribution that ends
    at exactly 1; and if the old [c] was the cumulative sum of the old [p]
    over the grid, the new [c] is the cumulative sum of the new [p]. *)
Theorem set_chi_distro_renormalises :
  forall (pdf : list (array1 R)) (energy_out : list Tabular),
    length pdf = length energy_out ->
    (forall idx pdf_idx distro,
       nth_error pdf idx = Some pdf_idx ->
       nth_error energy_out idx = Some distro ->
       same_bins pdf_idx distro /\ normalization_of pdf_idx distro <> 0%R) ->
    exists energy_out',
      set_chi_distro_loop pdf 0 energy_out = Ok energy_out'
      /\ length energy_out' = length energy_out
      /\ forall idx pdf_idx distro distro',
           nth_error pdf idx = Some pdf_idx ->
           nth_error energy_out idx = Some distro ->
           nth_error energy_out' idx = Some distro' ->
           distro_x distro' = distro_x distro
           /\ len1 (distro_p distro') = len1 pdf_idx
           /\ len1 (distro_c distro') = len1 pdf_idx
           /\ get1 (distro_c distro') (len1 pdf_idx - 1) = 1%R
           /\ (forall i, i < len1 pdf_idx ->
                 get1 (distro_p distro') i
                 = (get1 pdf_idx i / normalization_of pdf_idx distro)%R)
           /\ (cumulative_of (distro_x distro) (distro_p distro)
                             (distro_c distro) ->
               cumulative_of (distro_x distro') (distro_p distro')
                             (distro_c distro')).
Proof.
  intros pdf energy_out Hlen H.
  destruct (set_chi_distro_loop_renormalises pdf energy_out 0)
    as (energy_out' & E & Hlen' & Hupd).
  { intros k distro Hk. cbn [Nat.add].
    destruct (nth_error pdf k) as [pdf_idx|] eqn:Epdf.
    - exists pdf_idx. split; [reflexivity|]. apply (H k); assumption.
    - exfalso. apply nth_error_None in Epdf.
      assert (k < length energy_out)
        by (apply nth_error_Some; congruence).
      lia. }
  exists energy_out'. split; [exact E|]. split; [exact Hlen'|].
  intros idx pdf_idx distro distro' Epdf Ed Ed'.
  destruct (H idx pdf_idx distro Epdf Ed) as (Hbins & HN).
  destruct (set_chi_distro_update_renormalises pdf_idx distro Hbins HN)
    as (d & Eupd & Hd).
  rewrite (Hupd idx pdf_idx distro distro' Epdf Ed Ed') in Eupd.
  injection Eupd as <-. exact Hd.
Qed.

Lemma set_chi_distro_renormalises_witness :
  exists energy_out',
    set_chi_distro_loop [of_list [1; 1; 1]%R; of_list [3; 1]%R] 0
      [ {| distro_x := of_list [0; 1; 3]%R;
           distro_p := of_list [2; 2; 2]%R;
           distro_c := of_list [0; 2; 6]%R |};
        {| distro_x := of_list [0; 2]%R;
           distro_p := of_list [0; 1]%R;
           distro_c := of_list [0; 2]%R |} ] = Ok energy_out'
    /\ length energy_out' = 2.
Proof.
  destruct (set_chi_distro_renormalises
              [of_list [1; 1; 1]%R; of_list [3; 1]%R]
              [ {| distro_x := of_list [0; 1; 3]%R;
                   distro_p := of_list [2; 2; 2]%R;
                   distro_c := of_list [0; 2; 6]%R |};
                {| distro_x := of_list [0; 2]%R;
                   distro_p := of_list [0; 1]%R;
                   distro_c := of_list [0; 2]%R |} ])
    as (energy_out' & E & Hlen & _).
  - reflexivity.
  - intros [|[|[|idx]]] pdf_idx distro Epdf Ed; simpl in Epdf, Ed;
      try discriminate;
      injection Epdf as <-; injection Ed as <-;
      (split; [repeat split; simpl; lia
              | unfold normalization_of, sum_n; simpl; lra]).
  - exists energy_out'. split; assumption.
Defined.
